(** * redis-go: the server core, embedded in Rocq

    A shallow embedding of the Go sources [server.go] (the response writer,
    the prepared-response interleaver, the per-connection loop, [Serve] and
    the tracking of listeners and connections, [Shutdown] and [backoff]),
    [args.go] (the [Args] interface, its variants, [txArgs] and
    [ParseArgs]) and of the helpers of the hash-ring test, followed by the
    properties the specification states about them and by further
    properties of the code.

    Conventions. A Go method with a pointer receiver becomes a function that
    takes the receiver's value and returns the updated value next to the
    result. A call that can panic returns an [outcome]. [nil] errors and nil
    interface values are [None]. *)

From Stdlib Require Import ZArith String Ascii List Bool Lia.
From stdpp Require Import base list strings gmap.
Import ListNotations.
Local Open Scope string_scope.
Local Open Scope list_scope.
Local Open Scope Z_scope.

(** ** Errors *)

(** The error sentinels the sources name (declared in the package's
    [errors.go]), the two errors of the [context] package, and [ErrorString]
    for every error made from a text ([fmt.Errorf], [errors.New], the errors
    of the codec and of the transport). *)
Inductive error : Type :=
| ErrServerClosed
| ErrHijacked
| ErrNilArgs
| ErrNegativeStreamCount
| ErrWriteStreamCalledAfterWrite
| ErrWriteStreamCalledTooManyTimes
| ErrWriteCalledTooManyTimes
| ErrWriteCalledNotEnoughTimes
| ErrNotHijackable
| ErrNotPipeline
| DeadlineExceeded
| Canceled
| ErrorString (msg : string).

Definition error_eqb (a b : error) : bool :=
  match a, b with
  | ErrServerClosed, ErrServerClosed
  | ErrHijacked, ErrHijacked
  | ErrNilArgs, ErrNilArgs
  | ErrNegativeStreamCount, ErrNegativeStreamCount
  | ErrWriteStreamCalledAfterWrite, ErrWriteStreamCalledAfterWrite
  | ErrWriteStreamCalledTooManyTimes, ErrWriteStreamCalledTooManyTimes
  | ErrWriteCalledTooManyTimes, ErrWriteCalledTooManyTimes
  | ErrWriteCalledNotEnoughTimes, ErrWriteCalledNotEnoughTimes
  | ErrNotHijackable, ErrNotHijackable
  | ErrNotPipeline, ErrNotPipeline
  | DeadlineExceeded, DeadlineExceeded
  | Canceled, Canceled => true
  | ErrorString x, ErrorString y => String.eqb x y
  | _, _ => false
  end.

(** The value a panic carries: an [error] (the run-time errors are errors
    too) or any other value, kept as the text [%v] prints for it. *)
Inductive panic_value : Type :=
| PanicError (e : error)
| PanicValue (text : string).

(** What a Go call yields: it returns, or it panics with a value. *)
Inductive outcome (A : Type) : Type :=
| Ret (a : A)
| Panic (v : panic_value).
Arguments Ret {A} a.
Arguments Panic {A} v.

Definition nil_dereference : panic_value :=
  PanicError (ErrorString "runtime error: invalid memory address or nil pointer dereference").

Definition index_out_of_range : panic_value :=
  PanicError (ErrorString "runtime error: index out of range").

Definition slice_bounds_out_of_range : panic_value :=
  PanicError (ErrorString "runtime error: slice bounds out of range").

Definition isSome {A} (o : option A) : bool :=
  match o with Some _ => true | None => false end.

(** ** Machine integers and durations *)

(** Go's [int] and [time.Duration] are 64-bit signed integers; arithmetic
    wraps around. *)
Definition int64_wrap (z : Z) : Z := (z + 2 ^ 63) mod 2 ^ 64 - 2 ^ 63.

Definition Millisecond : Z := 1000000.

(** [backoff] of server.go. *)
Definition backoff (attempt : Z) (minDelay maxDelay : Z) : Z :=
  let d := int64_wrap (int64_wrap (attempt * attempt) * minDelay) in
  if d >? maxDelay then maxDelay else d.

(** ** Server.Shutdown *)

Module Shutdown.

(** [Shutdown] runs next to the connection goroutines and to the clock.
    What it sees of them is gathered in an environment: the number of
    actors [len(s.connections) + len(s.listeners)] that [numberOfActors]
    finds at each instant (after the signal has fired and the listeners
    have been closed), the instant at which [ctx] becomes done, the error
    [ctx] reports from then on, and the time one pass of the loop takes
    besides its wait. Instants and durations are in nanoseconds. *)
Record Env : Type := {
  actorsAt : Z -> Z;
  ctxDone : option Z;
  ctxErr : error;
  passCost : Z
}.

Definition minPollInterval : Z := 10 * Millisecond.
Definition maxPollInterval : Z := 500 * Millisecond.

(** [ctx.Err()] at instant [now]. *)
Definition ctx_Err (env : Env) (now : Z) : option error :=
  match ctxDone env with
  | Some t => if t <=? now then Some (ctxErr env) else None
  | None => None
  end.

(** The instant at which
    [select { case <-ctx.Done(): case <-time.After(d): }]
    entered at [now] is left. Neither case has a body. *)
Definition select_wake (env : Env) (now d : Z) : Z :=
  let timer := now + Z.max 0 d in
  match ctxDone env with
  | Some t => if t <=? now then now else Z.min t timer
  | None => timer
  end.

(** The instant of the next test of the loop condition. *)
Definition next_poll (env : Env) (i now : Z) : Z :=
  select_wake env now (backoff i minPollInterval maxPollInterval) + passCost env.

(** [for i := 0; s.numberOfActors() != 0; i++ { select ... }; return ctx.Err()]
    [None] is "still polling when the fuel ran out". *)
Fixpoint loop (fuel : nat) (env : Env) (i now : Z) : option (option error) :=
  match fuel with
  | O => None
  | S fuel' =>
      if actorsAt env now =? 0 then Some (ctx_Err env now)
      else loop fuel' env (int64_wrap (i + 1)) (next_poll env i now)
  end.

Definition Shutdown (fuel : nat) (env : Env) (start : Z) : option (option error) :=
  loop fuel env 0 start.

(** The instant of the [k]-th test of the loop condition, and the value of
    [i] there. *)
Fixpoint poll (env : Env) (k : nat) (i now : Z) : Z * Z :=
  match k with
  | O => (i, now)
  | S k' => poll env k' (int64_wrap (i + 1)) (next_poll env i now)
  end.

Definition pollTime (env : Env) (start : Z) (k : nat) : Z :=
  snd (poll env k 0 start).

End Shutdown.

(** ** Argument lists (args.go) *)

(** A byte slice. *)
Definition bytes : Type := string.

(** [reflect.Kind] of a destination, after the pointers in front of it have
    been followed ([for v.Kind() == reflect.Ptr { v = v.Elem() }]). *)
Inductive Kind : Type :=
| KBool
| KInt | KInt8 | KInt16 | KInt32 | KInt64
| KUint | KUint8 | KUint16 | KUint32 | KUint64 | KUintptr
| KFloat32 | KFloat64
| KComplex64 | KComplex128
| KArray | KChan | KFunc | KInterface | KMap
| KSlice (elem : Kind)
| KString | KStruct | KUnsafePointer.

(** What [Next] leaves in its destination. A float is kept as the text it
    was parsed from. *)
Inductive stored : Type :=
| SBool (b : bool)
| SInt (i : Z)
| SUint (u : Z)
| SFloat (text : bytes)
| SString (s : string)
| SBytes (b : bytes)
| SValue (b : bytes).

(** The parsers of [objutil] and [strconv], which args.go calls and does not
    define. [ParseFloat] only says whether the text is a float. *)
Class Parsers : Type := {
  ParseInt : bytes -> Z + error;
  ParseUint : bytes -> Z + error;
  ParseFloat : bytes -> option error
}.

(** The [Args] interface. *)
Module Args.
Class t (A : Type) : Type := {
  Close : A -> option error * A;
  Len : A -> Z;
  Next : Kind -> A -> bool * option stored * A
}.
End Args.

(** [reflect.Value.SetInt] and [SetUint] keep the low bits that fit the
    destination. *)
Definition wrap_signed (bits : Z) (z : Z) : Z :=
  (z + 2 ^ (bits - 1)) mod 2 ^ bits - 2 ^ (bits - 1).

Definition wrap_unsigned (bits : Z) (z : Z) : Z := z mod 2 ^ bits.

Definition kind_bits (k : Kind) : Z :=
  match k with
  | KInt8 | KUint8 => 8
  | KInt16 | KUint16 => 16
  | KInt32 | KUint32 => 32
  | _ => 64
  end.

Module byteArgs.
Section WithParsers.
Context {P : Parsers}.

Record t : Type := { args : list bytes; err : option error }.

Definition Close (a : t) : option error * t :=
  (err a, {| args := []; err := err a |}).

Definition Len (a : t) : Z := Z.of_nat (length (args a)).

Definition parseBool (a : bytes) : stored + error :=
  match ParseInt a with
  | inr e => inr e
  | inl i => inl (SBool (negb (i =? 0)))
  end.

Definition parseInt (v : Kind) (a : bytes) : stored + error :=
  match ParseInt a with
  | inr e => inr e
  | inl i => inl (SInt (wrap_signed (kind_bits v) i))
  end.

Definition parseUint (v : Kind) (a : bytes) : stored + error :=
  match ParseUint a with
  | inr e => inr e
  | inl u => inl (SUint (wrap_unsigned (kind_bits v) u))
  end.

Definition parseFloat (a : bytes) : stored + error :=
  match ParseFloat a with
  | Some e => inr e
  | None => inl (SFloat a)
  end.

Definition parseString (a : bytes) : stored + error := inl (SString a).
Definition parseBytes (a : bytes) : stored + error := inl (SBytes a).
Definition parseValue (a : bytes) : stored + error := inl (SValue a).

(** The message of the last line of [next]; the name of the type, which
    the source appends, is left out. *)
Definition unsupported : error :=
  ErrorString "unsupported output type for value in argument of a redis command".

Definition next (v : Kind) (a : bytes) : stored + error :=
  match v with
  | KBool => parseBool a
  | KInt | KInt8 | KInt16 | KInt32 | KInt64 => parseInt v a
  | KUint | KUint8 | KUint16 | KUint32 | KUint64 | KUintptr => parseUint v a
  | KFloat32 | KFloat64 => parseFloat a
  | KString => parseString a
  | KSlice elem =>
      match elem with
      | KUint8 => parseBytes a
      | _ => inr unsupported
      end
  | KInterface => parseValue a
  | _ => inr unsupported
  end.

Definition Next (dst : Kind) (a : t) : bool * option stored * t :=
  if (Z.of_nat (length (args a)) =? 0) || isSome (err a) then (false, None, a)
  else
    match args a with
    | [] => (false, None, a)
    | a0 :: rest =>
        match next dst a0 with
        | inl v => (true, Some v, {| args := rest; err := None |})
        | inr e => (false, None, {| args := rest; err := Some e |})
        end
    end.

Definition byteArgs_Args : Args.t t :=
  {| Args.Close := Close; Args.Len := Len; Args.Next := Next |}.

End WithParsers.
End byteArgs.

Module argsError.

Record t : Type := { err : option error }.

Definition newArgsError (e : option error) : t := {| err := e |}.

Definition Close (a : t) : option error * t := (err a, a).
Definition Len (a : t) : Z := 0.
Definition Next (val : Kind) (a : t) : bool * option stored * t := (false, None, a).

Definition argsError_Args : Args.t t :=
  {| Args.Close := Close; Args.Len := Len; Args.Next := Next |}.

End argsError.

Module argsList.
Section WithDecoder.
(** [objconv.StreamDecoder] belongs to the codec. Of it, [Len] reads the
    number of values still to decode. [Close] and [Next] of [argsList]
    drive the decoder and record in [err] what it reports; they are not
    embedded. *)
Variable StreamDecoder : Type.
Variable dec_Len : StreamDecoder -> Z.

Record t : Type := { dec : StreamDecoder; err : option error }.

Definition Len (a : t) : Z :=
  if isSome (err a) then 0 else dec_Len (dec a).

End WithDecoder.
End argsList.

Module multiArgs.
Section Over.
Context {A : Type} {HA : Args.t A}.

Record t : Type := { args : list A; argn : nat; err : option error }.

(** [MultiArgs] *)
Definition MultiArgs (l : list A) : t := {| args := l; argn := 0; err := None |}.

Fixpoint closeAll (l : list A) (e : option error) : option error * list A :=
  match l with
  | [] => (e, [])
  | arg :: rest =>
      let '(cerr, arg') := Args.Close arg in
      let e' := if isSome cerr && negb (isSome e) then cerr else e in
      let '(e'', rest') := closeAll rest e' in
      (e'', arg' :: rest')
  end.

Definition Close (m : t) : option error * t :=
  let '(e, l) := closeAll (args m) None in
  ((if isSome (err m) then err m else e),
   {| args := l; argn := argn m; err := err m |}).

Definition Len (m : t) : Z :=
  if isSome (err m) then 0
  else fold_left (fun n a => int64_wrap (n + Args.Len a)) (args m) 0.

(** The [for !m.args[m.argn].Next(dst)] loop. Every pass that goes on
    increments [argn], so [length (args m)] passes are enough. *)
Fixpoint Next_loop (fuel : nat) (dst : Kind) (m : t) : bool * option stored * t :=
  match fuel with
  | O => (false, None, m)
  | S fuel' =>
      match args m !! argn m with
      | None => (false, None, m)
      | Some a =>
          let '(ok, out, a1) := Args.Next dst a in
          let m1 := {| args := <[argn m := a1]> (args m); argn := argn m; err := err m |} in
          if ok then (true, out, m1)
          else
            let '(cerr, a2) := Args.Close a1 in
            let l2 := <[argn m := a2]> (args m1) in
            match cerr with
            | Some e => (false, None, {| args := l2; argn := argn m; err := Some e |})
            | None =>
                let m3 := {| args := l2; argn := S (argn m); err := err m |} in
                if (length l2 <=? argn m3)%nat then (false, None, m3)
                else Next_loop fuel' dst m3
            end
      end
  end.

Definition Next (dst : Kind) (m : t) : bool * option stored * t :=
  if (length (args m) <=? argn m)%nat || isSome (err m) then (false, None, m)
  else Next_loop (length (args m)) dst m.

Definition multiArgs_Args : Args.t t :=
  {| Args.Close := Close; Args.Len := Len; Args.Next := Next |}.

End Over.
End multiArgs.

(** Parsers to run the code on examples: decimal integer literals within
    the range of the type. For floats this is stricter than [strconv], which
    the examples do not depend on. *)
Fixpoint digits (a : bytes) (acc : Z) : option Z :=
  match a with
  | EmptyString => Some acc
  | String ch rest =>
      let n := Z.of_nat (Ascii.nat_of_ascii ch) in
      if (48 <=? n) && (n <=? 57) then digits rest (10 * acc + (n - 48)) else None
  end.

Definition syntax_error : error := ErrorString "invalid syntax".
Definition range_error : error := ErrorString "value out of range".

Definition decimal_ParseUint (a : bytes) : Z + error :=
  match a with
  | EmptyString => inr syntax_error
  | _ =>
      match digits a 0 with
      | Some z => if z <? 2 ^ 64 then inl z else inr range_error
      | None => inr syntax_error
      end
  end.

Definition decimal_ParseInt (a : bytes) : Z + error :=
  let '(neg, body) :=
    match a with
    | String "-"%char rest => (true, rest)
    | String "+"%char rest => (false, rest)
    | _ => (false, a)
    end in
  match body with
  | EmptyString => inr syntax_error
  | _ =>
      match digits body 0 with
      | Some z =>
          let v := if neg then - z else z in
          if (- 2 ^ 63 <=? v) && (v <? 2 ^ 63) then inl v else inr range_error
      | None => inr syntax_error
      end
  end.

Definition decimalParsers : Parsers :=
  {| ParseInt := decimal_ParseInt;
     ParseUint := decimal_ParseUint;
     ParseFloat := fun a => match decimal_ParseInt a with inl _ => None | inr e => Some e end |}.

#[global] Existing Instance byteArgs.byteArgs_Args.
#[global] Existing Instance argsError.argsError_Args.
#[global] Existing Instance multiArgs.multiArgs_Args.

(** ** ParseArgs *)

Section ParseArgs.
Context {A : Type} {HA : Args.t A}.

(** [for _, dst := range dsts { if !args.Next(dst) { break } }] *)
Fixpoint readInto (a : A) (dsts : list Kind) : A * list stored :=
  match dsts with
  | [] => (a, [])
  | dst :: rest =>
      let '(ok, out, a') := Args.Next dst a in
      if ok then
        let '(a'', outs) := readInto a' rest in
        (a'', match out with Some v => v :: outs | None => outs end)
      else (a', [])
  end.

(** [ParseArgs]. [args] is an interface value, [None] when nil; a method
    called on the nil interface panics. The result comes with the
    argument list as the call leaves it and the values stored in the
    destinations. *)
Definition ParseArgs (args : option A) (dsts : list Kind)
  : outcome (option error) * option A * list stored :=
  if negb (isSome args) && negb (Z.of_nat (length dsts) =? 0)
  then (Ret (Some ErrNilArgs), args, [])
  else
    match args with
    | None => (Panic nil_dereference, None, [])
    | Some a =>
        let '(a', outs) := readInto a dsts in
        let '(e, a'') := Args.Close a' in
        (Ret e, Some a'', outs)
    end.

End ParseArgs.

(** ** Commands, the wire and the connection *)

(** A command as the server holds it: the opcode and the argument list read
    from the wire. The interface value [Args] is [None] when nil, as in the
    zero [Command{}]. *)
Record Command : Type := { Cmd : string; Args : option byteArgs.t }.

Definition Command_zero : Command := {| Cmd := ""; Args := None |}.

(** A value a handler passes to [Write]. *)
Inductive value : Type :=
| Str (s : string)
| Int (n : Z).

(** What the encoders put on the wire: the head of an array of [n] elements
    ([StreamEncoder.Open]) and single values ([Encode]). *)
Inductive frame : Type :=
| ArrayBegin (n : Z)
| Value (v : value).

(** What can be observed of a connection, in the order it happens: a frame
    reaching the socket, a request reaching the handler, the argument list
    of a command being closed by the server loop. *)
Inductive event : Type :=
| Sent (f : frame)
| Served (cmds : list Command)
| Drained (cmd : string)
| Logged (err : option error).

(** Modelled from the spec: the cursor [CommandReader] of conn.go, which is
    not among the sources (section 4.C). A cursor delivers the commands of
    one batch in order, each an opcode and the argument list that follows
    it on the wire: [Read] yields the next one and is false when none is
    left; [Close] reports the error the cursor met. For a transaction the
    batch holds [MULTI], the queued commands and the command that ends it
    (section 4.F). *)
Record CommandReader : Type := {
  pending : list (string * byteArgs.t);
  rerr : option error
}.

Definition Read (next : string * byteArgs.t) : Command :=
  {| Cmd := fst next; Args := Some (snd next) |}.

Inductive ConnState : Type :=
| StateNew | StateActive | StateIdle | StateHijacked | StateClosed.

(** Modelled from the spec: the connection object [Conn] of conn.go, which
    is not among the sources. Section 3 gives it a write buffer and a state
    tag, section 4.C per-direction deadlines. [wbuffer] holds the frames
    encoded and not yet flushed. [werr] is the error of the transport under
    the buffered writer, if it has failed: every write and flush reports it
    from then on. [rdeadline] and [wdeadline] keep the timeouts from which
    the deadlines were last set. *)
Record Conn : Type := {
  state : ConnState;
  wbuffer : list frame;
  werr : option error;
  rdeadline : Z;
  wdeadline : Z;
  closed : bool
}.

Definition with_state (x : ConnState) (k : Conn) : Conn :=
  {| state := x; wbuffer := wbuffer k; werr := werr k;
     rdeadline := rdeadline k; wdeadline := wdeadline k; closed := closed k |}.
Definition with_wbuffer (x : list frame) (k : Conn) : Conn :=
  {| state := state k; wbuffer := x; werr := werr k;
     rdeadline := rdeadline k; wdeadline := wdeadline k; closed := closed k |}.
Definition with_rdeadline (x : Z) (k : Conn) : Conn :=
  {| state := state k; wbuffer := wbuffer k; werr := werr k;
     rdeadline := x; wdeadline := wdeadline k; closed := closed k |}.
Definition with_wdeadline (x : Z) (k : Conn) : Conn :=
  {| state := state k; wbuffer := wbuffer k; werr := werr k;
     rdeadline := rdeadline k; wdeadline := x; closed := closed k |}.
Definition with_closed (x : bool) (k : Conn) : Conn :=
  {| state := state k; wbuffer := wbuffer k; werr := werr k;
     rdeadline := rdeadline k; wdeadline := wdeadline k; closed := x |}.

Inductive responseWriterType : Type := notype | oneshot | stream.

(** A reference to the connection; the connection itself is in the state. *)
Inductive ConnRef : Type := conn_ref.

(** [responseWriter]. The fields [enc] and [stream] are encoders over
    [conn.wbuffer] and hold nothing else the writer reads. *)
Record responseWriter : Type := {
  conn : option ConnRef;
  wtype : responseWriterType;
  remain : Z;
  timeout : Z
}.

Module preparedResponse.
Record t : Type := { index : Z; value : value }.
End preparedResponse.

(** [preparedResponseWriter]. Its [base] is the [responseWriter] of the
    request. *)
Record preparedResponseWriter : Type := {
  index : Z;
  responses : list preparedResponse.t
}.

(** The state the server code runs on: the connection [c], the response
    writer [res] of the request being served and its interleaver, if one was
    made, what has been observed of the connection so far, the cursors the
    client's input will still give, and whether the server's context is
    done. *)
Record St : Type := {
  c : Conn;
  res : responseWriter;
  preparedRes : option preparedResponseWriter;
  history : list event;
  incoming : list CommandReader;
  shutdown : bool
}.

Definition set_c (x : Conn) (s : St) : St :=
  {| c := x; res := res s; preparedRes := preparedRes s; history := history s;
     incoming := incoming s; shutdown := shutdown s |}.
Definition set_res (x : responseWriter) (s : St) : St :=
  {| c := c s; res := x; preparedRes := preparedRes s; history := history s;
     incoming := incoming s; shutdown := shutdown s |}.
Definition set_preparedRes (x : option preparedResponseWriter) (s : St) : St :=
  {| c := c s; res := res s; preparedRes := x; history := history s;
     incoming := incoming s; shutdown := shutdown s |}.
Definition set_history (x : list event) (s : St) : St :=
  {| c := c s; res := res s; preparedRes := preparedRes s; history := x;
     incoming := incoming s; shutdown := shutdown s |}.
Definition set_incoming (x : list CommandReader) (s : St) : St :=
  {| c := c s; res := res s; preparedRes := preparedRes s; history := history s;
     incoming := x; shutdown := shutdown s |}.

(** The frames that reached the socket, oldest first. *)
Definition wire (h : list event) : list frame :=
  flat_map (fun e => match e with Sent f => [f] | _ => [] end) h.

(** The requests that reached the handler, oldest first. *)
Definition served (h : list event) : list (list Command) :=
  flat_map (fun e => match e with Served cmds => [cmds] | _ => [] end) h.

(** *** The monad of the server code: state, and panics *)

Definition M (A : Type) : Type := St -> outcome A * St.

Definition ret {A} (a : A) : M A := fun s => (Ret a, s).

Definition bind {A B} (m : M A) (k : A -> M B) : M B :=
  fun s =>
    match m s with
    | (Ret a, s') => k a s'
    | (Panic v, s') => (Panic v, s')
    end.

Definition panic {A} (v : panic_value) : M A := fun s => (Panic v, s).
Definition get : M St := fun s => (Ret s, s).
Definition modify (f : St -> St) : M unit := fun s => (Ret tt, f s).

Notation "x <- m ;; k" := (bind m (fun x => k))
  (at level 100, m at next level, right associativity).
Notation "m ;;; k" := (bind m (fun _ => k))
  (at level 100, right associativity).

(** [defer func() { if v := recover(); v != nil { ... } }()] around [m]. *)
Definition recover {A} (m : M A) : M (A + panic_value) :=
  fun s =>
    match m s with
    | (Ret a, s') => (Ret (inl a), s')
    | (Panic v, s') => (Ret (inr v), s')
    end.

(** *** The codec and the buffered writer *)

(** Modelled from the spec: the encoders of the external codec (section 6)
    and the buffered writer they write to. An encoder appends its frame to
    the write buffer; a flush moves the buffer to the socket; both report
    the error of the transport when it has failed. *)
Definition encode (f : frame) : M (option error) :=
  s <- get ;;
  match werr (c s) with
  | Some e => ret (Some e)
  | None =>
      modify (fun s => set_c (with_wbuffer (wbuffer (c s) ++ [f]) (c s)) s) ;;;
      ret None
  end.

Definition wbuffer_Flush : M (option error) :=
  s <- get ;;
  match werr (c s) with
  | Some e => ret (Some e)
  | None =>
      modify (fun s =>
        set_history (history s ++ map Sent (wbuffer (c s)))
          (set_c (with_wbuffer [] (c s)) s)) ;;;
      ret None
  end.

(** Modelled from the spec: [Conn.setState], [Conn.setTimeout] and
    [Conn.setWriteTimeout] of conn.go (section 4.C). They are methods that
    read the connection: called through a nil reference they crash
    (section 9). *)
Definition setState (r : option ConnRef) (st : ConnState) : M unit :=
  match r with
  | None => panic nil_dereference
  | Some _ =>
      modify (fun s => set_c (with_state st (c s)) s)
  end.

Definition setTimeout (r : option ConnRef) (t : Z) : M unit :=
  match r with
  | None => panic nil_dereference
  | Some _ =>
      modify (fun s => set_c (with_rdeadline t (c s)) s)
  end.

Definition setWriteTimeout (r : option ConnRef) (t : Z) : M unit :=
  match r with
  | None => panic nil_dereference
  | Some _ =>
      modify (fun s => set_c (with_wdeadline t (c s)) s)
  end.

(** *** responseWriter *)

Definition set_writer (ty : responseWriterType) (n : Z) : M unit :=
  modify (fun s =>
    set_res {| conn := conn (res s); wtype := ty; remain := n;
               timeout := timeout (res s) |} s).

Definition waitReadyWrite : M unit :=
  s <- get ;;
  if negb (timeout (res s) =? 0)
  then setWriteTimeout (conn (res s)) (timeout (res s))
  else ret tt.

Definition WriteStream (n : Z) : M (option error) :=
  s <- get ;;
  if negb (isSome (conn (res s))) then ret (Some ErrHijacked)
  else if n <? 0 then ret (Some ErrNegativeStreamCount)
  else
    match wtype (res s) with
    | oneshot => ret (Some ErrWriteStreamCalledAfterWrite)
    | stream => ret (Some ErrWriteStreamCalledTooManyTimes)
    | notype =>
        waitReadyWrite ;;;
        set_writer stream n ;;;
        encode (ArrayBegin n)
    end.

Definition Write (val : value) : M (option error) :=
  s <- get ;;
  if negb (isSome (conn (res s))) then ret (Some ErrHijacked)
  else
    (match wtype (res s) with
     | notype => waitReadyWrite ;;; set_writer oneshot 1
     | _ => ret tt
     end) ;;;
    s <- get ;;
    if remain (res s) =? 0 then ret (Some ErrWriteCalledTooManyTimes)
    else
      set_writer (wtype (res s)) (int64_wrap (remain (res s) - 1)) ;;;
      encode (Value val).

Definition Flush : M (option error) :=
  s <- get ;;
  if negb (isSome (conn (res s))) then ret (Some ErrHijacked)
  else
    err <- (match wtype (res s) with
            | notype => Write (Str "OK")
            | _ => ret None
            end) ;;
    match err with
    | Some e => ret (Some e)
    | None =>
        s <- get ;;
        if negb (remain (res s) =? 0) then ret (Some ErrWriteCalledNotEnoughTimes)
        else wbuffer_Flush
    end.

(** [Hijack] returns the connection and its buffers, here the reference, and
    an error. *)
Definition Hijack : M (option ConnRef * option error) :=
  s <- get ;;
  match conn (res s) with
  | None => ret (None, Some ErrHijacked)
  | Some nc =>
      modify (fun s =>
        set_res {| conn := None; wtype := wtype (res s); remain := remain (res s);
                   timeout := timeout (res s) |} s) ;;;
      s <- get ;;
      setState (conn (res s)) StateHijacked ;;;
      ret (Some nc, None)
  end.

(** *** preparedResponseWriter *)

Definition preparedResponseWriter_WriteStream (n : Z) : M (option error) :=
  ret (Some ErrWriteStreamCalledTooManyTimes).

Definition set_prepared (i : Z) (l : list preparedResponse.t) : M unit :=
  modify (set_preparedRes (Some {| index := i; responses := l |})).

Definition preparedResponseWriter_Write (v : value) : M (option error) :=
  s <- get ;;
  match preparedRes s with
  | None => panic nil_dereference
  | Some p =>
      err <- (match responses p with
              | r0 :: rest =>
                  if preparedResponse.index r0 =? index p then
                    err <- Write (preparedResponse.value r0) ;;
                    match err with
                    | Some e => ret (Some e)
                    | None => set_prepared (index p) rest ;;; ret None
                    end
                  else ret None
              | [] => ret None
              end) ;;
      match err with
      | Some e => ret (Some e)
      | None =>
          s <- get ;;
          match preparedRes s with
          | None => panic nil_dereference
          | Some p =>
              set_prepared (int64_wrap (index p + 1)) (responses p) ;;;
              Write v
          end
      end
  end.

(** The base is a [responseWriter], which is a [Flusher] and a [Hijacker]. *)
Definition preparedResponseWriter_Flush : M (option error) := Flush.

Definition preparedResponseWriter_Hijack : M (option ConnRef * option error) := Hijack.

Fixpoint writeValues (l : list preparedResponse.t) : M (option error) :=
  match l with
  | [] => ret None
  | r :: rest =>
      err <- Write (preparedResponse.value r) ;;
      match err with
      | Some e => ret (Some e)
      | None => writeValues rest
      end
  end.

Definition writeRemainingValues : M (option error) :=
  s <- get ;;
  match preparedRes s with
  | None => panic nil_dereference
  | Some p =>
      err <- writeValues (responses p) ;;
      s <- get ;;
      match preparedRes s with
      | None => panic nil_dereference
      | Some p => set_prepared (index p) [] ;;; ret err
      end
  end.

(** *** Handlers *)

(** [Request], without its [Context]. *)
Record Request : Type := { Addr : string; Cmds : list Command }.

(** The interface value [w] a handler is given holds one of the two
    writers. *)
Inductive ResponseWriter : Type := the_responseWriter | the_preparedResponseWriter.

(** What a handler does with its writer, in order: the calls of the
    [ResponseWriter] interface, of [Flusher] and of [Hijacker], and a panic
    of its own. A handler is given by the calls it makes for a request; the
    errors the calls return do not change what it calls next. *)
Inductive call : Type :=
| CallWriteStream (n : Z)
| CallWrite (v : value)
| CallFlush
| CallHijack
| CallPanic (v : panic_value).

Definition Handler : Type := Request -> list call.

Definition perform (w : ResponseWriter) (k : call) : M unit :=
  match k, w with
  | CallWriteStream n, the_responseWriter => WriteStream n ;;; ret tt
  | CallWriteStream n, the_preparedResponseWriter =>
      preparedResponseWriter_WriteStream n ;;; ret tt
  | CallWrite v, the_responseWriter => Write v ;;; ret tt
  | CallWrite v, the_preparedResponseWriter => preparedResponseWriter_Write v ;;; ret tt
  | CallFlush, the_responseWriter => Flush ;;; ret tt
  | CallFlush, the_preparedResponseWriter => preparedResponseWriter_Flush ;;; ret tt
  | CallHijack, the_responseWriter => Hijack ;;; ret tt
  | CallHijack, the_preparedResponseWriter => preparedResponseWriter_Hijack ;;; ret tt
  | CallPanic v, _ => panic v
  end.

Fixpoint ServeRedis (w : ResponseWriter) (calls : list call) : M unit :=
  match calls with
  | [] => ret tt
  | k :: rest => perform w k ;;; ServeRedis w rest
  end.

Definition convertPanicToError (v : panic_value) : error :=
  match v with
  | PanicError x => x
  | PanicValue x => ErrorString ("recovered from redis handler: " ++ x)%string
  end.

Definition note (e : event) : M unit :=
  modify (fun s => set_history (history s ++ [e]) s).

(** ** The server *)

Inductive fueled (A : Type) : Type :=
| Done (a : A)
| OutOfFuel.
Arguments Done {A} a.
Arguments OutOfFuel {A}.

Record serverConfig : Type := {
  idleTimeout : Z;
  readTimeout : Z;
  writeTimeout : Z;
  retryable : bool
}.

Module Server.
(** The fields of [Server] the request path reads. [pipeCommand] stands
    for the method [Command.pipeCommand] of command.go, which is not among
    the sources: it gives the follow-up command of a command, or an
    error. *)
Record t : Type := {
  Handler : Handler;
  EnablePipeline : bool;
  pipeCommand : Command -> Command * option error
}.
End Server.

Section Server.
Context {P : Parsers}.
Variable s : Server.t.
Variable config : serverConfig.

(** Modelled from the spec: [Command.ParseArgs] of command.go, which hands
    the argument list of the command to [ParseArgs]. *)
Definition Command_ParseArgs (cmd : Command) (dsts : list Kind)
  : outcome (option error) * option byteArgs.t * list stored :=
  ParseArgs (Args cmd) dsts.

(** Modelled from the spec: [Command.loadByteArgs] of command.go
    (section 4.F: the arguments are forced into a byte vector so that the
    connection can go on reading). The argument lists of this embedding
    are byte vectors from the start. *)
Definition loadByteArgs (cmd : Command) : Command := cmd.

(** Modelled from the spec: [Conn.WriteArgs] of conn.go (section 4.C): the
    values are encoded one after the other and flushed. *)
Fixpoint encodeAll (vals : list value) : M (option error) :=
  match vals with
  | [] => ret None
  | v :: rest =>
      err <- encode (Value v) ;;
      match err with
      | Some e => ret (Some e)
      | None => encodeAll rest
      end
  end.

Definition WriteArgs (vals : list value) : M (option error) :=
  err <- encodeAll vals ;;
  match err with
  | Some e => ret (Some e)
  | None => wbuffer_Flush
  end.

(** Modelled from the spec: [Request.Close] of request.go closes the
    argument list of every command of the request and returns the first
    error (section 3). *)
Fixpoint Request_Close (cmds : list Command) (err : option error) : M (option error) :=
  match cmds with
  | [] => ret err
  | cmd :: rest =>
      match Args cmd with
      | None => Request_Close rest err
      | Some a =>
          note (Drained (Cmd cmd)) ;;;
          let cerr := fst (byteArgs.Close a) in
          Request_Close rest (if isSome cerr && negb (isSome err) then cerr else err)
      end
  end.

Definition log (err : option error) : M unit :=
  match err with
  | Some ErrHijacked | Some ErrNotPipeline => ret tt
  | _ => note (Logged err)
  end.

(** [serveRedis]: the handler is called, and its panic recovered. *)
Definition serveRedis (w : ResponseWriter) (req : Request) : M (option error) :=
  note (Served (Cmds req)) ;;;
  r <- recover (ServeRedis w (Server.Handler s req)) ;;
  match r with
  | inl _ => ret None
  | inr v => ret (Some (convertPanicToError v))
  end.

Definition addPreparedResponse (preparedRes : option preparedResponseWriter)
    (i : nat) (v : value) : option preparedResponseWriter :=
  let p := match preparedRes with
           | None => {| index := 0; responses := [] |}
           | Some p => p
           end in
  Some {| index := index p;
          responses := responses p ++
            [{| preparedResponse.index := Z.of_nat i; preparedResponse.value := v |}] |}.

(** The first loop of [serveRequest]. [range] is what is left of
    [req.Cmds] to go through, [Cmds] the array of [req.Cmds], which the
    loop writes at [i], never beyond the command it is at. *)
Fixpoint stripPrepared (range Cmds : list Command) (i : nat)
    (preparedRes : option preparedResponseWriter)
  : list Command * nat * option preparedResponseWriter :=
  match range with
  | [] => (Cmds, i, preparedRes)
  | cmd :: rest =>
      if (Cmd cmd =? "PING")%string then
        let msg := match Command_ParseArgs cmd [KString] with
                   | (_, _, [SString m]) => m
                   | _ => "PONG"
                   end in
        stripPrepared rest Cmds i (addPreparedResponse preparedRes i (Str msg))
      else stripPrepared rest (<[i := cmd]> Cmds) (S i) preparedRes
  end.

(** [serveRequest]. It returns the error and the request as it leaves it,
    with the array of [req.Cmds] at its full length, which the caller
    still holds as [cmds]. *)
Definition serveRequest (req : Request)
  : M (option error * Request * list Command) :=
  let '(array, i, prepared) := stripPrepared (Cmds req) (Cmds req) 0 None in
  modify (set_preparedRes prepared) ;;;
  w <- (match prepared with
        | Some p =>
            preparedResponseWriter_WriteStream
              (Z.of_nat (length array) + Z.of_nat (length (responses p))) ;;;
            ret the_preparedResponseWriter
        | None => ret the_responseWriter
        end) ;;
  let req := {| Addr := Addr req; Cmds := take i array |} in
  err <- (if negb (Z.of_nat (length (Cmds req)) =? 0)
          then serveRedis w req else ret None) ;;
  err <- (if negb (isSome err) && isSome prepared
          then writeRemainingValues else ret err) ;;
  err <- (if negb (isSome err) then Flush else ret err) ;;
  ret (err, req, array).

(** The loop of [servePipeline]. *)
Fixpoint pipeCommands (cmds pipeCmds : list Command) : list Command * option error :=
  match cmds with
  | [] => (pipeCmds, None)
  | cmd :: rest =>
      match Server.pipeCommand s cmd with
      | (_, Some pipeErr) => (pipeCmds, Some pipeErr)
      | (pipeCmd, None) => pipeCommands rest (pipeCmds ++ [pipeCmd])
      end
  end.

(** [serveCommands] and [servePipeline] call each other; [fuel] bounds the
    depth of the calls. The metrics are left out. *)
Fixpoint serveCommands (fuel : nat) (addr : string) (cmds : list Command)
  : M (fueled (option error)) :=
  match fuel with
  | O => ret OutOfFuel
  | S fuel' =>
      let servePipeline (cmds : list Command) : M (fueled (option error)) :=
        match pipeCommands cmds [] with
        | (_, Some err) => ret (Done (Some err))
        | (pipeCmds, None) =>
            if 0 <? Z.of_nat (length pipeCmds) then
              setTimeout (Some conn_ref) (readTimeout config) ;;;
              serveCommands fuel' addr pipeCmds
            else ret (Done None)
        end in
      modify (set_res {| conn := Some conn_ref; wtype := notype; remain := 0;
                         timeout := writeTimeout config |}) ;;;
      r <- serveRequest {| Addr := addr; Cmds := cmds |} ;;
      let '(err, req, cmds) := r in
      reqErr <- Request_Close (Cmds req) None ;;
      if Server.EnablePipeline s && negb (isSome err) && negb (isSome reqErr) then
        r <- servePipeline cmds ;;
        match r with
        | OutOfFuel => ret OutOfFuel
        | Done (Some ErrNotPipeline) => ret (Done err)
        | Done pipeErr => ret (Done pipeErr)
        end
      else ret (Done err)
  end.

(** How a pass of the [for] loop of [serveConnection] ends: the loop goes
    on, or the function returns. *)
Inductive pass : Type := Again | Return.

(** The loop that queues a transaction. [pending] is what the cursor has
    still to deliver: [cmdReader.Read(cmd)] takes its head, and is false
    when it is empty. *)
Fixpoint queue (pending : list (string * byteArgs.t)) (cmds : list Command)
  : M (list Command) :=
  let lastIndex := length cmds in
  let cmds :=
    if 0 <? Z.of_nat lastIndex then
      match cmds !! (lastIndex - 1)%nat with
      | Some cmd => <[(lastIndex - 1)%nat := loadByteArgs cmd]> cmds
      | None => cmds
      end
    else cmds in
  (if Z.of_nat lastIndex =? 0
   then WriteArgs [Str "OK"]
   else WriteArgs [Str "QUEUED"]) ;;;
  let cmds := (cmds ++ [Command_zero])%list in
  match pending with
  | [] => ret (take lastIndex cmds)
  | next :: pending' => queue pending' (<[lastIndex := Read next]> cmds)
  end.

(** What a pass does with a transaction once it is queued: [inl] is the
    end of the pass, [inr] the commands to serve. *)
Definition endTransaction (cmds : list Command) : M (pass + list Command) :=
  let lastIndex := Z.of_nat (length cmds) - 1 in
  match (if lastIndex <? 0 then None else cmds !! Z.to_nat lastIndex) with
  | None => panic index_out_of_range
  | Some last =>
      if (Cmd last =? "DISCARD")%string then
        (match Args last with
         | None => panic nil_dereference
         | Some a => note (Drained (Cmd last))
         end) ;;;
        err <- WriteArgs [Str "OK"] ;;
        match err with
        | Some _ => ret (inl Return)
        | None => ret (inl Again)
        end
      else if lastIndex <? 1 then panic slice_bounds_out_of_range
      else ret (inr (drop 1 (take (Z.to_nat lastIndex) cmds)))
  end.

(** One pass of the loop of [serveConnection]. [c.waitReadyRead] fails
    when the client sends nothing more. [depth] is the fuel of
    [serveCommands]. *)
Definition servePass (addr : string) (depth : nat) : M (fueled pass) :=
  st <- get ;;
  if shutdown st then ret (Done Return)
  else
    match incoming st with
    | [] => ret (Done Return)
    | cmdReader :: later =>
        setState (Some conn_ref) StateActive ;;;
        setTimeout (Some conn_ref) (readTimeout config) ;;;
        modify (set_incoming later) ;;;
        match pending cmdReader with
        | [] => log (rerr cmdReader) ;;; ret (Done Return)
        | first :: pending' =>
            let cmds := <[0%nat := Read first]> [Command_zero] in
            r <- (if (Cmd (Read first) =? "MULTI")%string
                  then
                    cmds <- queue pending' cmds ;;
                    endTransaction cmds
                  else ret (inr cmds)) ;;
            match r with
            | inl p => ret (Done p)
            | inr cmds =>
                r <- serveCommands depth addr cmds ;;
                match r with
                | OutOfFuel => ret OutOfFuel
                | Done (Some err) => log (Some err) ;;; ret (Done Return)
                | Done None =>
                    match rerr cmdReader with
                    | Some err => log (Some err) ;;; ret (Done Return)
                    | None =>
                        setState (Some conn_ref) StateIdle ;;;
                        ret (Done Again)
                    end
                end
            end
        end
    end.

Fixpoint passes (fuel : nat) (addr : string) (depth : nat) : M (fueled unit) :=
  match fuel with
  | O => ret OutOfFuel
  | S fuel' =>
      r <- servePass addr depth ;;
      match r with
      | OutOfFuel => ret OutOfFuel
      | Done Return => ret (Done tt)
      | Done Again => passes fuel' addr depth
      end
  end.

(** [serveConnection]: the loop, and on return what was deferred,
    [c.Close()] and [c.setState(http.StateClosed)]. *)
Definition serveConnection (fuel : nat) (addr : string) (depth : nat)
  : M (fueled unit) :=
  r <- passes fuel addr depth ;;
  match r with
  | OutOfFuel => ret OutOfFuel
  | Done _ =>
      modify (fun st => set_c (with_closed true (c st)) st) ;;;
      setState (Some conn_ref) StateClosed ;;;
      ret (Done tt)
  end.

End Server.

(** ** Calls on the response writer, one at a time *)

(** A call on the [responseWriter] itself, with the error it returns. *)
Definition invoke (k : call) : M (option error) :=
  match k with
  | CallWriteStream n => WriteStream n
  | CallWrite v => Write v
  | CallFlush => Flush
  | CallHijack => r <- Hijack ;; ret (snd r)
  | CallPanic v => panic v
  end.

(** The errors of section 7 that report a broken call sequence. *)
Definition contract_violation (e : error) : bool :=
  match e with
  | ErrWriteCalledTooManyTimes
  | ErrWriteStreamCalledAfterWrite
  | ErrWriteStreamCalledTooManyTimes
  | ErrNegativeStreamCount => true
  | _ => false
  end.

(** The writer [serveCommands] makes for a request:
    [&responseWriter{conn: c, timeout: config.writeTimeout}]. *)
Definition newResponseWriter (t : Z) : responseWriter :=
  {| conn := Some conn_ref; wtype := notype; remain := 0; timeout := t |}.

(** The states a writer can be in: those that calls lead to from a new
    writer. A call that panics leaves the state it had reached. *)
Inductive reachable : St -> Prop :=
| reachable_new (st : St) (t : Z) :
    res st = newResponseWriter t -> reachable st
| reachable_call (st : St) (k : call) :
    reachable st -> reachable (snd (invoke k st)).

(** A writer that has not been written to has nothing left to write. *)
Definition idle_has_no_remain (st : St) : Prop :=
  wtype (res st) = notype -> remain (res st) = 0.

(** The state after the write buffer and the frames [fs] have been sent. *)
Definition flushed (fs : list frame) (st : St) : St :=
  set_history (history st ++ map Sent (wbuffer (c st) ++ fs))
    (set_c (with_wbuffer [] (c st)) st).

(** A writer that [WriteStream] has not put in stream mode. *)
Definition not_streaming (st : St) : Prop := wtype (res st) <> stream.

(** An action keeps a property of the state, also when it panics. *)
Definition keeps {A : Type} (I : St -> Prop) (m : M A) : Prop :=
  forall st, I st -> I (snd (m st)).

(** ** The readers of one value (args.go) *)

(** [Int], [Int64] and [String]: the value read, which is the zero value of
    its type when nothing was stored, and the error of [ParseArgs]. *)
Module Parse.
Section Over.
Context {A : Type} {HA : Args.t A}.

Definition Int (args : option A) : outcome (Z * option error) :=
  match ParseArgs args [KInt] with
  | (Ret err, _, outs) => Ret (match outs with [SInt i] => i | _ => 0 end, err)
  | (Panic v, _, _) => Panic v
  end.

Definition Int64 (args : option A) : outcome (Z * option error) :=
  match ParseArgs args [KInt64] with
  | (Ret err, _, outs) => Ret (match outs with [SInt i] => i | _ => 0 end, err)
  | (Panic v, _, _) => Panic v
  end.

Definition String (args : option A) : outcome (string * option error) :=
  match ParseArgs args [KString] with
  | (Ret err, _, outs) => Ret (match outs with [SString s] => s | _ => "" end, err)
  | (Panic v, _, _) => Panic v
  end.

End Over.
End Parse.

(** ** Sequences of writes *)

(** The values [vs] written one after the other on the response writer,
    with the error of each [Write]. *)
Fixpoint writes (vs : list value) : M (list (option error)) :=
  match vs with
  | [] => ret []
  | v :: rest =>
      err <- Write v ;;
      errs <- writes rest ;;
      ret (err :: errs)
  end.

(** The state in which the frames [fs] have been encoded by a writer in
    stream mode that has [n] writes left. *)
Definition streamed (fs : list frame) (n : Z) (st : St) : St :=
  set_res {| conn := conn (res st); wtype := stream; remain := n;
             timeout := timeout (res st) |}
    (set_c (with_wbuffer (wbuffer (c st) ++ fs) (c st)) st).

(** ** The commands the server answers itself *)

Definition is_PING (cmd : Command) : bool := (Cmd cmd =? "PING")%string.

(** The responses a wrapper holds, none when there is no wrapper. *)
Definition prepared_responses (p : option preparedResponseWriter)
  : list preparedResponse.t :=
  match p with
  | Some p => responses p
  | None => []
  end.



(** The message a [PING] is answered with: its first argument when one can
    be read, ["PONG"] otherwise. *)
Definition PING_message (a : byteArgs.t) : string :=
  match byteArgs.err a, byteArgs.args a with
  | None, m :: _ => m
  | _, _ => "PONG"
  end.

(** ** What the wrapper writes *)

(** The values that writing [vs] through a wrapper at [index = i] with the
    responses [rs] puts on the base writer, and the responses that are
    left: before each value the first response goes out if its index is the
    current one, and the index moves on by one. *)
Fixpoint spliced (i : Z) (rs : list preparedResponse.t) (vs : list value)
  : list value * list preparedResponse.t :=
  match vs with
  | [] => ([], rs)
  | v :: vs' =>
      match rs with
      | r :: rs' =>
          if preparedResponse.index r =? i then
            let '(out, rest) := spliced (i + 1) rs' vs' in
            (preparedResponse.value r :: v :: out, rest)
          else
            let '(out, rest) := spliced (i + 1) rs vs' in
            (v :: out, rest)
      | [] =>
          let '(out, rest) := spliced (i + 1) [] vs' in
          (v :: out, rest)
      end
  end.

(** All the values of a response: those spliced between the handler's, then
    those of the responses left when the handler is done. *)
Definition splice (i : Z) (rs : list preparedResponse.t) (vs : list value) : list value :=
  fst (spliced i rs vs) ++ map preparedResponse.value (snd (spliced i rs vs)).

(** The state in which a wrapper at index [i] with responses [rs] sits on a
    base writer in stream mode that has encoded [fs] and has [n] writes
    left. *)
Definition interleaved (fs : list frame) (n i : Z) (rs : list preparedResponse.t)
    (st : St) : St :=
  set_preparedRes (Some {| index := i; responses := rs |}) (streamed fs n st).

(** ** Argument lists in sequence *)

(** The raw arguments a [multiArgs] over byte arguments has still to give:
    those of its lists from [argn] on. *)
Definition pending_values (m : multiArgs.t (A := byteArgs.t)) : list bytes :=
  concat (map byteArgs.args (drop (multiArgs.argn m) (multiArgs.args m))).

(** No error is recorded, neither on the [multiArgs] nor on its lists. *)
Definition error_free (m : multiArgs.t (A := byteArgs.t)) : Prop :=
  multiArgs.err m = None /\
  Forall (fun a => byteArgs.err a = None) (multiArgs.args m).

(** The first error of a sequence of results. *)
Fixpoint first_error (l : list (option error)) : option error :=
  match l with
  | [] => None
  | Some e :: _ => Some e
  | None :: rest => first_error rest
  end.

(** The same server with the pipeline switched off. *)
Definition without_pipeline (s : Server.t) : Server.t :=
  {| Server.Handler := Server.Handler s;
     Server.EnablePipeline := false;
     Server.pipeCommand := Server.pipeCommand s |}.

(** ** The helpers of the hash-ring test *)

Module RingTest.

(** What the test uses of a ring: [ring.LookupServer(k).Addr]. *)
Record ServerEndpoint : Type := { Addr : string }.

Class ServerRing (R : Type) : Type := {
  LookupServer : R -> string -> ServerEndpoint
}.

(** [distribute]: the address of the server of every key. *)
Definition distribute {R : Type} {HR : ServerRing R} (ring : R) (keys : list string)
  : gmap string string :=
  foldl (fun dist k => <[k := Addr (LookupServer ring k)]> dist) ∅ keys.

(** [dist[key]], the empty string when the key is missing. *)
Definition index (dist : gmap string string) (key : string) : string :=
  default "" (dist !! key).

(** [difference]: the two loops over the maps, the set [diff] filled by
    both. *)
Definition difference (dist1 dist2 : gmap string string) : gset string :=
  let diff : gset string := ∅ in
  let diff :=
    map_fold (fun key1 addr1 diff =>
                let addr2 := index dist2 key1 in
                if negb (addr1 =? addr2)%string then {[key1]} ∪ diff else diff)
             diff dist1 in
  map_fold (fun key2 addr2 diff =>
              let addr1 := index dist1 key2 in
              if negb (addr1 =? addr2)%string then {[key2]} ∪ diff else diff)
           diff dist2.

(** A ring given by its lookup function. *)
#[global] Instance function_ring : ServerRing (string -> string) := {
  LookupServer ring k := {| Addr := ring k |}
}.

End RingTest.

(** ** Server.Serve and the tracking of listeners and connections *)

Module Serve.

(** The fields of [Server] that [Serve], the tracking functions and
    [numberOfActors] use. [listeners] and [connections] are Go maps used as
    sets, [None] while nil; a listener or a connection is named by a number.
    [context] is [None] while [s.context] is nil, and otherwise tells
    whether [s.shutdown] has been called. *)
Record t : Type := {
  IdleTimeout : Z;
  ReadTimeout : Z;
  WriteTimeout : Z;
  EnableRetry : bool;
  listeners : option (gset nat);
  connections : option (gset nat);
  context : option bool
}.

Definition set_listeners (ls : option (gset nat)) (s : t) : t :=
  {| IdleTimeout := IdleTimeout s; ReadTimeout := ReadTimeout s;
     WriteTimeout := WriteTimeout s; EnableRetry := EnableRetry s;
     listeners := ls; connections := connections s; context := context s |}.

Definition set_connections (cs : option (gset nat)) (s : t) : t :=
  {| IdleTimeout := IdleTimeout s; ReadTimeout := ReadTimeout s;
     WriteTimeout := WriteTimeout s; EnableRetry := EnableRetry s;
     listeners := listeners s; connections := cs; context := context s |}.

Definition set_context (ctx : option bool) (s : t) : t :=
  {| IdleTimeout := IdleTimeout s; ReadTimeout := ReadTimeout s;
     WriteTimeout := WriteTimeout s; EnableRetry := EnableRetry s;
     listeners := listeners s; connections := connections s; context := ctx |}.

(** [len] of a map that may be nil. *)
Definition len (m : option (gset nat)) : Z :=
  match m with
  | Some xs => Z.of_nat (size xs)
  | None => 0
  end.

Definition trackListener (l : nat) (s : t) : t :=
  let s :=
    match listeners s with
    | None => set_context (Some false) (set_listeners (Some ∅) s)
    | Some _ => s
    end in
  match listeners s with
  | Some ls => set_listeners (Some ({[l]} ∪ ls)) s
  | None => s
  end.

(** [delete] on a nil map does nothing. *)
Definition untrackListener (l : nat) (s : t) : t :=
  match listeners s with
  | Some ls => set_listeners (Some (ls ∖ {[l]})) s
  | None => s
  end.

Definition trackConnection (c : nat) (s : t) : t :=
  let s :=
    match connections s with
    | None => set_connections (Some ∅) s
    | Some _ => s
    end in
  match connections s with
  | Some cs => set_connections (Some ({[c]} ∪ cs)) s
  | None => s
  end.

Definition untrackConnection (c : nat) (s : t) : t :=
  match connections s with
  | Some cs => set_connections (Some (cs ∖ {[c]})) s
  | None => s
  end.

Definition numberOfActors (s : t) : Z :=
  len (connections s) + len (listeners s).

(** An error of [Accept]: the error, and what its [Timeout] and
    [Temporary] methods return when it has them. *)
Record netError : Type := {
  cause : error;
  timeoutError : option bool;
  temporaryError : option bool
}.

Definition isTimeout (err : netError) : bool :=
  match timeoutError err with
  | Some timeout => timeout
  | None => false
  end.

Definition isTemporary (err : netError) : bool :=
  match temporaryError err with
  | Some temporary => temporary
  | None => false
  end.

(** One pass of the accept loop as the environment decides it: what
    [l.Accept()] returns, whether another goroutine has called [s.shutdown]
    by the [select] that follows a failed [Accept], and whether it does so
    while the loop waits for its timer. *)
Inductive accept : Type :=
| Accepted (conn : nat)
| Failed (err : netError).

Record turn : Type := {
  accepted : accept;
  cancelled : bool;
  cancelled_waiting : bool
}.

(** What the loop does that others see: a connection handed to
    [serveConnection] in state [StateNew], a wait for the timer. *)
Inductive step : Type :=
| Spawned (conn : nat) (state : ConnState) (config : serverConfig)
| Waited (d : Z).

Definition minBackoffDelay : Z := 10 * Millisecond.
Definition maxBackoffDelay : Z := 1000 * Millisecond.

(** The [for] loop of [Serve]. [done] tells whether [s.context] is done.
    The result is what the loop did, the error it returned ([None] when
    the turns are used up: the loop is blocked in [Accept]) and whether the
    context is done at the end. *)
Fixpoint loop (config : serverConfig) (turns : list turn) (done : bool) (attempt : Z)
  : list step * option error * bool :=
  match turns with
  | [] => ([], None, done)
  | t :: rest =>
      match accepted t with
      | Failed err =>
          let done := done || cancelled t in
          if done then ([], Some ErrServerClosed, done)
          else if isTimeout err then loop config rest done attempt
          else if isTemporary err then
            let attempt := int64_wrap (attempt + 1) in
            if cancelled_waiting t then ([], Some ErrServerClosed, true)
            else
              let '(steps, r, done) := loop config rest done attempt in
              (Waited (backoff attempt minBackoffDelay maxBackoffDelay) :: steps, r, done)
          else ([], Some (cause err), done)
      | Accepted conn =>
          let '(steps, r, done) := loop config rest done 0 in
          (Spawned conn StateNew config :: steps, r, done)
      end
  end.

Record result : Type := {
  returned : option error;
  steps : list step;
  server : t;
  listener_closed : bool
}.

(** [Serve]: the listener is tracked, the configuration is read, the loop
    runs; what is deferred, [s.untrackListener(l)] and [l.Close()], runs
    when the loop returns. [listeners] and [context] are assigned by
    [trackListener] only, both at once, so [s.context] is not nil in the
    loop; the properties below are stated for servers where the two are nil
    together. *)
Definition Serve (l : nat) (turns : list turn) (s : t) : result :=
  let s := trackListener l s in
  let config :=
    {| idleTimeout := IdleTimeout s;
       readTimeout := ReadTimeout s;
       writeTimeout := WriteTimeout s;
       retryable := EnableRetry s |} in
  let config :=
    if idleTimeout config =? 0
    then {| idleTimeout := readTimeout config;
            readTimeout := readTimeout config;
            writeTimeout := writeTimeout config;
            retryable := retryable config |}
    else config in
  let done := match context s with Some done => done | None => false end in
  let '(did, r, done) := loop config turns done 0 in
  let s := set_context (Some done) s in
  match r with
  | Some err =>
      {| returned := Some err; steps := did;
         server := untrackListener l s; listener_closed := true |}
  | None =>
      {| returned := None; steps := did; server := s; listener_closed := false |}
  end.

End Serve.

(** The configuration [Serve] hands to every connection. *)
Definition config_of (s : Serve.t) : serverConfig :=
  {| idleTimeout := if Serve.IdleTimeout s =? 0 then Serve.ReadTimeout s
                    else Serve.IdleTimeout s;
     readTimeout := Serve.ReadTimeout s;
     writeTimeout := Serve.WriteTimeout s;
     retryable := Serve.EnableRetry s |}.

(** The connections among the steps of the loop, and the connections among
    the turns. *)
Definition spawned (steps : list Serve.step) : list (nat * ConnState * serverConfig) :=
  omap (fun st => match st with
                  | Serve.Spawned conn state config => Some (conn, state, config)
                  | Serve.Waited _ => None
                  end) steps.

Definition waits (steps : list Serve.step) : list Z :=
  omap (fun st => match st with
                  | Serve.Spawned _ _ _ => None
                  | Serve.Waited d => Some d
                  end) steps.

Definition accepted_of (turns : list Serve.turn) : list nat :=
  omap (fun t => match Serve.accepted t with
                 | Serve.Accepted conn => Some conn
                 | Serve.Failed _ => None
                 end) turns.

(** A turn after which the loop goes on while the context is not done: a
    connection, or a failure that is a timeout or temporary, with no
    cancellation seen. *)
Definition carries_on (t : Serve.turn) : bool :=
  match Serve.accepted t with
  | Serve.Accepted _ => true
  | Serve.Failed err =>
      negb (Serve.cancelled t)
      && (Serve.isTimeout err
          || (Serve.isTemporary err && negb (Serve.cancelled_waiting t)))
  end.

(** Whether the listener, the connection, is tracked. *)
Definition has_listener (l : nat) (s : Serve.t) : bool :=
  match Serve.listeners s with
  | Some ls => bool_decide (l ∈ ls)
  | None => false
  end.

Definition has_connection (c : nat) (s : Serve.t) : bool :=
  match Serve.connections s with
  | Some cs => bool_decide (c ∈ cs)
  | None => false
  end.

(** ** txArgs *)

Module txArgs.
Section Over.
Context {A : Type} {HA : Args.t A}.

(** The type assertion of [Close] on an error: whether the error is an
    error reply of the protocol, of the type [resp.Error] of the codec. *)
Variable stable : error -> bool.

(** What [txArgs] uses of its connection: [Close] and the read mutex. *)
Record Conn : Type := { closed : bool; rmutex : bool }.

Record t : Type := {
  mutex : bool;
  conn : option Conn;
  args : list A;
  err : option error
}.

(** A call that takes [tx.mutex] waits while the mutex is held; unlocking
    a mutex that is not held is a fatal error of the runtime. *)
Inductive ending (R : Type) : Type :=
| Blocked
| Fatal
| Returned (r : R).
Arguments Blocked {R}.
Arguments Fatal {R}.
Arguments Returned {R} r.

(** The loop of [Close] over [tx.args]. *)
Fixpoint closeAll (l : list A) (conn : option Conn) (err : option error)
  : list A * option Conn * option error :=
  match l with
  | [] => ([], conn, err)
  | arg :: rest =>
      let '(cerr, arg') := Args.Close arg in
      let '(conn, err) :=
        match cerr with
        | Some e =>
            let err := if isSome err then err else Some e in
            if negb (stable e)
            then (option_map (fun c => {| closed := true; rmutex := rmutex c |}) conn,
                  Some e)
            else (conn, err)
        | None => (conn, err)
        end in
      let '(rest', conn, err) := closeAll rest conn err in
      (arg' :: rest', conn, err)
  end.

(** [Close] returns the error, the receiver, and the connection it has let
    go of, if it held one. *)
Definition Close (tx : t) : ending (option error * t * option Conn) :=
  if mutex tx then Blocked
  else
    let '(l, conn, err) := closeAll (args tx) (conn tx) (err tx) in
    match conn with
    | Some c =>
        if rmutex c
        then Returned (err,
                       {| mutex := false; conn := None; args := l; err := err |},
                       Some {| closed := closed c; rmutex := false |})
        else Fatal
    | None =>
        Returned (err, {| mutex := false; conn := None; args := l; err := err |}, None)
    end.

Definition Len (tx : t) : ending Z :=
  if mutex tx then Blocked else Returned (Z.of_nat (length (args tx))).

(** [Next] returns with the mutex held when it hands out a list. *)
Definition Next (tx : t) : ending (option A * t) :=
  if mutex tx then Blocked
  else
    match args tx with
    | [] => Returned (None, tx)
    | a :: rest =>
        Returned (Some a,
                  {| mutex := true; conn := conn tx; args := rest; err := err tx |})
    end.

End Over.
End txArgs.

Arguments txArgs.Blocked {R}.
Arguments txArgs.Fatal {R}.
Arguments txArgs.Returned {R} r.

(** The errors that closing the lists returns, in order. *)
Definition close_errors {A : Type} {HA : Args.t A} (l : list A) : list error :=
  flat_map (fun a => match fst (Args.Close a) with
                     | Some e => [e]
                     | None => []
                     end) l.

(** The last element of a list. *)
Fixpoint last_of {X : Type} (l : list X) : option X :=
  match l with
  | [] => None
  | [x] => Some x
  | _ :: rest => last_of rest
  end.

(** What [txArgs.Close] reports: the last error that is not a reply of the
    protocol, else the error recorded before, else the first error. *)
Definition reported (stable : error -> bool) (before : option error) (errs : list error)
  : option error :=
  match last_of (List.filter (fun e => negb (stable e)) errs) with
  | Some e => Some e
  | None =>
      match before with
      | Some e => Some e
      | None => head errs
      end
  end.

(** A cursor that delivers one command and ends without error. *)
Definition one_command (cmd : string * byteArgs.t) : CommandReader :=
  {| pending := [cmd]; rerr := None |}.

(** What the history shows of a command answered ["OK"]: the handler
    called with the command alone, the reply sent, the arguments closed. *)
Definition answered (cmd : string * byteArgs.t) : list event :=
  [Served [Read cmd]; Sent (Value (Str "OK")); Drained (fst cmd)].

(** The frames encoded so far, sent or still in the write buffer. *)
Definition encoded (st : St) : list frame := wire (history st) ++ wbuffer (c st).

(** A writer that, since the frames [before], has been made to encode
    nothing, or one value as a one-shot response, and has no write left. *)
Definition one_value_at_most (before : list frame) (st : St) : Prop :=
  (wtype (res st) = notype /\ encoded st = before)
  \/ (wtype (res st) = oneshot /\ remain (res st) = 0
      /\ (encoded st = before \/ exists v, encoded st = before ++ [Value v])).

(** ** Inputs of the examples *)

(** A shutdown whose context expires after 50ms while one connection stays
    open until 100ms; a pass of the loop takes 1ms. *)
Definition late_drain : Shutdown.Env :=
  {| Shutdown.actorsAt := fun t => if t <? 100 * Millisecond then 1 else 0;
     Shutdown.ctxDone := Some (50 * Millisecond);
     Shutdown.ctxErr := DeadlineExceeded;
     Shutdown.passCost := Millisecond |}.

(** Two raw arguments, the first of which is not a number. *)
Definition two_args : byteArgs.t :=
  {| byteArgs.args := ["x"; "1"]; byteArgs.err := None |}.

(** A connection in working order with nothing buffered, and the state of
    a request that starts on it. *)
Definition conn0 : Conn :=
  {| state := StateActive; wbuffer := []; werr := None;
     rdeadline := 0; wdeadline := 0; closed := false |}.

Definition start (inc : list CommandReader) : St :=
  {| c := conn0; res := newResponseWriter 0; preparedRes := None;
     history := []; incoming := inc; shutdown := false |}.

(** A command as it comes off the wire. *)
Definition wire_command (name : string) (arguments : list bytes) : string * byteArgs.t :=
  (name, {| byteArgs.args := arguments; byteArgs.err := None |}).

(** A handler that answers every command with ["OK"]: one value for one
    command, a stream for more. *)
Definition ok_handler : Handler :=
  fun req =>
    match Cmds req with
    | [_] => [CallWrite (Str "OK")]
    | cmds => CallWriteStream (Z.of_nat (length cmds))
              :: map (fun _ => CallWrite (Str "OK")) cmds
    end.

Definition ok_server : Server.t :=
  {| Server.Handler := ok_handler;
     Server.EnablePipeline := false;
     Server.pipeCommand := fun cmd => (cmd, Some ErrNotPipeline) |}.

Definition no_timeouts : serverConfig :=
  {| idleTimeout := 0; readTimeout := 0; writeTimeout := 0; retryable := false |}.

(** [MULTI], [SET a 1], [SET b 2], [EXEC]. *)
Definition committed : CommandReader :=
  {| pending := [wire_command "MULTI" []; wire_command "SET" ["a"; "1"];
                 wire_command "SET" ["b"; "2"]; wire_command "EXEC" []];
     rerr := None |}.

(** [MULTI], [SET a 1], [DISCARD]. *)
Definition discarded : CommandReader :=
  {| pending := [wire_command "MULTI" []; wire_command "SET" ["a"; "1"];
                 wire_command "DISCARD" []];
     rerr := None |}.

(** The request [PING], [SET foo bar], as a transaction hands it over. *)
Definition ping_then_set : Request :=
  {| Addr := "";
     Cmds := [Read (wire_command "PING" []);
              Read (wire_command "SET" ["foo"; "bar"])] |}.

(** A shutdown during which one connection never goes away, with a context
    that expires after 50ms. *)
Definition never_drained : Shutdown.Env :=
  {| Shutdown.actorsAt := fun _ => 1;
     Shutdown.ctxDone := Some (50 * Millisecond);
     Shutdown.ctxErr := DeadlineExceeded;
     Shutdown.passCost := Millisecond |}.

(** A server whose handler makes no call, and the request [SET foo bar]. *)
Definition silent_server : Server.t :=
  {| Server.Handler := fun _ => [];
     Server.EnablePipeline := false;
     Server.pipeCommand := fun cmd => (cmd, Some ErrNotPipeline) |}.

Definition set_foo_bar : Request :=
  {| Addr := ""; Cmds := [Read (wire_command "SET" ["foo"; "bar"])] |}.

(** A response opened for three values, two for the handler and one for a
    [PING] that came between its two commands. *)
Definition opened_for_three : St :=
  {| c := conn0;
     res := {| conn := Some conn_ref; wtype := stream; remain := 3; timeout := 0 |};
     preparedRes := Some {| index := 0;
                            responses := [{| preparedResponse.index := 1;
                                             preparedResponse.value := Str "PONG" |}] |};
     history := []; incoming := []; shutdown := false |}.

(** A cursor that delivers [MULTI] and nothing after it. *)
Definition multi_alone : CommandReader :=
  {| pending := [wire_command "MULTI" []]; rerr := None |}.

(** The server of [ok_handler] with the pipeline on, no command having a
    follow-up. *)
Definition ok_server_with_pipeline : Server.t :=
  {| Server.Handler := ok_handler;
     Server.EnablePipeline := true;
     Server.pipeCommand := fun cmd => (cmd, Some ErrNotPipeline) |}.

(** A server that has not served yet, with a read timeout and no idle
    timeout. *)
Definition fresh_server : Serve.t :=
  {| Serve.IdleTimeout := 0;
     Serve.ReadTimeout := 30 * 1000 * Millisecond;
     Serve.WriteTimeout := 0;
     Serve.EnableRetry := false;
     Serve.listeners := None;
     Serve.connections := None;
     Serve.context := None |}.

(** A server that has served on listener 7 and has been shut down since. *)
Definition stopped_server : Serve.t :=
  {| Serve.IdleTimeout := 0;
     Serve.ReadTimeout := 0;
     Serve.WriteTimeout := 0;
     Serve.EnableRetry := false;
     Serve.listeners := Some ∅;
     Serve.connections := Some ∅;
     Serve.context := Some true |}.

(** Turns of the accept loop: a connection, a temporary failure, a failure
    that is neither a timeout nor temporary. *)
Definition connection (conn : nat) : Serve.turn :=
  {| Serve.accepted := Serve.Accepted conn;
     Serve.cancelled := false;
     Serve.cancelled_waiting := false |}.

Definition too_many_files : Serve.netError :=
  {| Serve.cause := ErrorString "accept: too many open files";
     Serve.timeoutError := Some false;
     Serve.temporaryError := Some true |}.

Definition listener_gone : Serve.netError :=
  {| Serve.cause := ErrorString "use of closed network connection";
     Serve.timeoutError := None;
     Serve.temporaryError := None |}.

Definition failure (err : Serve.netError) : Serve.turn :=
  {| Serve.accepted := Serve.Failed err;
     Serve.cancelled := false;
     Serve.cancelled_waiting := false |}.

Definition failure_at_shutdown (err : Serve.netError) : Serve.turn :=
  {| Serve.accepted := Serve.Failed err;
     Serve.cancelled := true;
     Serve.cancelled_waiting := false |}.

(** Error replies of the protocol, for the examples: the errors made from
    a text. *)
Definition text_errors (e : error) : bool :=
  match e with
  | ErrorString _ => true
  | _ => false
  end.

(** A transaction of three replies: an error reply, a broken read, a
    timeout. *)
Definition three_replies : txArgs.t (A := argsError.t) :=
  {| txArgs.mutex := false;
     txArgs.conn := Some {| txArgs.closed := false; txArgs.rmutex := true |};
     txArgs.args := [argsError.newArgsError (Some (ErrorString "ERR no such key"));
                     argsError.newArgsError (Some Canceled);
                     argsError.newArgsError (Some DeadlineExceeded)];
     txArgs.err := None |}.

(** * Properties *)

(** ** Shutdown *)

Lemma loop_returns_at_first_zero (env : Shutdown.Env) (k : nat) :
  forall (fuel : nat) (i now : Z),
    (forall j, (j < k)%nat ->
       Shutdown.actorsAt env (snd (Shutdown.poll env j i now)) <> 0) ->
    Shutdown.actorsAt env (snd (Shutdown.poll env k i now)) = 0 ->
    (k < fuel)%nat ->
    Shutdown.loop fuel env i now
    = Some (Shutdown.ctx_Err env (snd (Shutdown.poll env k i now))).
Proof.
  induction k as [|k IH]; intros fuel i now Hbefore Hzero Hfuel.
  - destruct fuel as [|fuel]; [lia|].
    simpl in *. apply Z.eqb_eq in Hzero. now rewrite Hzero.
  - destruct fuel as [|fuel]; [lia|].
    simpl.
    assert (H0 : Shutdown.actorsAt env now <> 0) by (apply (Hbefore 0%nat); lia).
    apply Z.eqb_neq in H0. rewrite H0.
    apply IH; [|exact Hzero|lia].
    intros j Hj. apply (Hbefore (S j)). lia.
Qed.

Lemma loop_polls_while_actors_remain (env : Shutdown.Env) (fuel : nat) :
  forall (i now : Z),
    (forall j, (j < fuel)%nat ->
       Shutdown.actorsAt env (snd (Shutdown.poll env j i now)) <> 0) ->
    Shutdown.loop fuel env i now = None.
Proof.
  induction fuel as [|fuel IH]; intros i now Hall; [reflexivity|].
  simpl.
  assert (H0 : Shutdown.actorsAt env now <> 0) by (apply (Hall 0%nat); lia).
  apply Z.eqb_neq in H0. rewrite H0.
  apply IH. intros j Hj. apply (Hall (S j)). lia.
Qed.

Lemma ctx_Err_nil_iff (env : Shutdown.Env) (now : Z) :
  Shutdown.ctx_Err env now = None <->
  match Shutdown.ctxDone env with Some t => now < t | None => True end.
Proof.
  unfold Shutdown.ctx_Err. destruct (Shutdown.ctxDone env) as [t|]; [|tauto].
  destruct (Z.leb_spec t now); split; intros; try discriminate; try lia; reflexivity.
Qed.

(** C5, as the code has it: at the first poll that finds no actor,
    [Shutdown] returns [ctx.Err()] as of that instant: nil when [ctx] is not
    done by then, the error of [ctx] when it became done during the wait,
    although the actors have drained. *)
Theorem Shutdown_returns_ctx_Err_at_drain
    (env : Shutdown.Env) (start : Z) (k fuel : nat) :
  (forall j, (j < k)%nat ->
     Shutdown.actorsAt env (Shutdown.pollTime env start j) <> 0) ->
  Shutdown.actorsAt env (Shutdown.pollTime env start k) = 0 ->
  (k < fuel)%nat ->
  Shutdown.Shutdown fuel env start
  = Some (Shutdown.ctx_Err env (Shutdown.pollTime env start k)) /\
  (Shutdown.ctx_Err env (Shutdown.pollTime env start k) = None <->
   match Shutdown.ctxDone env with
   | Some t => Shutdown.pollTime env start k < t
   | None => True
   end).
Proof.
  intros Hbefore Hzero Hfuel. split.
  - apply loop_returns_at_first_zero; assumption.
  - apply ctx_Err_nil_iff.
Qed.

(** C5, counterexample: the actors drain to zero after [ctx] has expired,
    and [Shutdown] returns the error of [ctx], not nil. *)
Lemma Shutdown_after_expiry_returns_error :
  Shutdown.actorsAt late_drain (Shutdown.pollTime late_drain 0 52) = 0 /\
  Shutdown.Shutdown 60 late_drain 0 = Some (Some DeadlineExceeded).
Proof. vm_compute. split; reflexivity. Qed.

Lemma Shutdown_returns_ctx_Err_at_drain_witness :
  Shutdown.Shutdown 60 late_drain 0
  = Some (Shutdown.ctx_Err late_drain (Shutdown.pollTime late_drain 0 52)).
Proof.
  refine (proj1 (Shutdown_returns_ctx_Err_at_drain late_drain 0 52 60 _ _ _)).
  - intros j Hj.
    do 52 (destruct j as [|j]; [vm_compute; discriminate|]). lia.
  - vm_compute. reflexivity.
  - lia.
Defined.

(** ** Argument lists *)

(** [argsList], [multiArgs] and [argsError] report no remaining value once
    an error is recorded. *)
Lemma argsList_Len_after_error (D : Type) (dec_Len : D -> Z) (a : argsList.t D) :
  argsList.err D a <> None -> argsList.Len D dec_Len a = 0.
Proof.
  unfold argsList.Len. destruct (argsList.err D a); [reflexivity | congruence].
Qed.

Lemma multiArgs_Len_after_error (A : Type) (HA : Args.t A) (m : multiArgs.t (A:=A)) :
  multiArgs.err m <> None -> Args.Len m = 0.
Proof.
  simpl. unfold multiArgs.Len. destruct (multiArgs.err m); [reflexivity | congruence].
Qed.

Lemma argsError_Len (a : argsError.t) : Args.Len a = 0.
Proof. reflexivity. Qed.

(** [byteArgs.Next] takes the argument off the list before it converts it,
    and [byteArgs.Len] does not look at [err]: after a failed conversion the
    arguments behind the failed one are still counted. *)
Lemma byteArgs_Len_ignores_err (P : Parsers) (dst : Kind)
    (a0 : bytes) (rest : list bytes) (e : error) :
  byteArgs.next dst a0 = inr e ->
  let a' := snd (Args.Next dst {| byteArgs.args := a0 :: rest; byteArgs.err := None |}) in
  byteArgs.err a' = Some e /\ Args.Len a' = Z.of_nat (length rest).
Proof.
  intros Hnext. simpl. unfold byteArgs.Next. simpl. rewrite Hnext. simpl.
  split; reflexivity.
Qed.

(** C8, the code at the failing input: reading an integer from the byte
    arguments ["x"; "1"] fails and records the error, and [Len] then
    returns 1, not 0. *)
Theorem byteArgs_Len_after_error :
  let '(ok, _, a') := Args.Next (t := byteArgs.byteArgs_Args (P := decimalParsers)) KInt two_args in
  ok = false /\ byteArgs.err a' = Some syntax_error /\ byteArgs.Len a' = 1.
Proof. vm_compute. repeat split; reflexivity. Qed.

(** ** ParseArgs *)

(** C10: with nil [args], [ParseArgs] returns [ErrNilArgs] when there is a
    destination and panics on the nil interface when there is none; with
    [args] not nil the guard is not taken, and the error returned is the one
    the [Close] of [args] reports after the reads. So [ErrNilArgs] comes out
    of the guard only when [args] is nil and a destination is given. *)
Theorem ParseArgs_nil_args (A : Type) (HA : Args.t A) :
  (forall dsts : list Kind, dsts <> [] ->
     ParseArgs (A := A) None dsts = (Ret (Some ErrNilArgs), None, [])) /\
  ParseArgs (A := A) None [] = (Panic nil_dereference, None, []) /\
  (forall (a : A) (dsts : list Kind),
     fst (fst (ParseArgs (Some a) dsts))
     = Ret (fst (Args.Close (fst (readInto a dsts))))) /\
  (forall (args : option A) (dsts : list Kind),
     fst (fst (ParseArgs args dsts)) = Ret (Some ErrNilArgs) ->
     (args = None /\ dsts <> []) \/
     (exists a, args = Some a /\
                fst (Args.Close (fst (readInto a dsts))) = Some ErrNilArgs)).
Proof.
  assert (Hsome : forall (a : A) (dsts : list Kind),
            fst (fst (ParseArgs (Some a) dsts))
            = Ret (fst (Args.Close (fst (readInto a dsts))))).
  { intros a dsts. unfold ParseArgs. simpl.
    destruct (readInto a dsts) as [a' outs]. simpl.
    destruct (Args.Close a') as [e a'']. reflexivity. }
  split; [|split; [|split]].
  - intros dsts Hne. destruct dsts as [|d dsts]; [congruence|]. reflexivity.
  - reflexivity.
  - exact Hsome.
  - intros args dsts Hret. destruct args as [a|].
    + right. exists a. split; [reflexivity|].
      rewrite Hsome in Hret. congruence.
    + left. split; [reflexivity|].
      destruct dsts; [discriminate | congruence].
Qed.

Lemma ParseArgs_nil_args_witness :
  ParseArgs (A := byteArgs.t) (HA := byteArgs.byteArgs_Args (P := decimalParsers))
    None [KString]
  = (Ret (Some ErrNilArgs), None, []).
Proof.
  apply (proj1 (ParseArgs_nil_args byteArgs.t
                  (byteArgs.byteArgs_Args (P := decimalParsers)))).
  discriminate.
Defined.

(** ** The response writer *)

Ltac unfold_writer :=
  unfold invoke, Flush, Write, WriteStream, Hijack, waitReadyWrite, set_writer,
    setWriteTimeout, setState, encode, wbuffer_Flush, bind, ret, get, modify, panic
    in *.

Ltac break_if :=
  repeat match goal with
    | |- context [if ?b then _ else _] => destruct b eqn:?; simpl in *
    end.

Lemma wire_app (h1 h2 : list event) : wire (h1 ++ h2) = (wire h1 ++ wire h2)%list.
Proof. unfold wire. apply flat_map_app. Qed.

Lemma wire_Sent (l : list frame) : wire (map Sent l) = l.
Proof. induction l as [|f l IH]; simpl; [reflexivity | now rewrite IH]. Qed.

Lemma served_app (h1 h2 : list event) : served (h1 ++ h2) = (served h1 ++ served h2)%list.
Proof. unfold served. apply flat_map_app. Qed.

Lemma served_Sent (l : list frame) : served (map Sent l) = [].
Proof. induction l as [|f l IH]; simpl; [reflexivity | exact IH]. Qed.

Lemma invoke_keeps_idle_has_no_remain (k : call) (st : St) :
  idle_has_no_remain st -> idle_has_no_remain (snd (invoke k st)).
Proof.
  unfold idle_has_no_remain.
  destruct st as [[cs wb we rd wd cl] [cn ty rm tm] pr h inc sd]; simpl.
  intros Hinv.
  destruct k, cn, ty, we; unfold_writer; simpl in *;
    break_if; intros; try congruence; auto.
Qed.

Lemma reachable_idle_has_no_remain (st : St) :
  reachable st -> idle_has_no_remain st.
Proof.
  induction 1 as [st t Hnew | st k _ IH].
  - unfold idle_has_no_remain. rewrite Hnew. reflexivity.
  - apply invoke_keeps_idle_has_no_remain. exact IH.
Qed.

(** C7: [Flush] on a writer that was not written to sends the one value
    ["OK"] and succeeds; [Flush] on a writer with writes left returns
    [ErrWriteCalledNotEnoughTimes]. *)
Theorem Flush_unwritten_and_unfinished :
  (forall (st : St) (t : Z),
     res st = newResponseWriter t ->
     werr (c st) = None ->
     exists st',
       Flush st = (Ret None, st') /\
       history st' = (history st ++ map Sent (wbuffer (c st) ++ [Value (Str "OK")]))%list /\
       wbuffer (c st') = [] /\
       wtype (res st') = oneshot /\ remain (res st') = 0) /\
  (forall st : St,
     reachable st ->
     conn (res st) <> None ->
     remain (res st) <> 0 ->
     Flush st = (Ret (Some ErrWriteCalledNotEnoughTimes), st)).
Proof.
  split.
  - intros st t Hres Hw.
    destruct st as [c0 r pr h inc sd]; simpl in *. subst r.
    destruct c0 as [cs wb we rd wd cl]; simpl in *. subst we.
    unfold_writer; simpl.
    destruct (t =? 0) eqn:Ht; simpl; eexists; repeat split; reflexivity.
  - intros st Hreach Hconn Hremain.
    pose proof (reachable_idle_has_no_remain st Hreach) as Hinv.
    unfold idle_has_no_remain in Hinv.
    destruct st as [c0 [cn ty rm tm] pr h inc sd]; simpl in *.
    destruct cn as [r|]; [|congruence].
    destruct ty; [tauto| |];
      unfold_writer; simpl;
      apply Z.eqb_neq in Hremain; rewrite Hremain; reflexivity.
Qed.

Lemma Flush_unwritten_and_unfinished_witness :
  (exists st',
     Flush (start []) = (Ret None, st') /\
     history st' = map Sent [Value (Str "OK")] /\
     wbuffer (c st') = [] /\
     wtype (res st') = oneshot /\ remain (res st') = 0) /\
  Flush (snd (invoke (CallWriteStream 2) (start [])))
  = (Ret (Some ErrWriteCalledNotEnoughTimes), snd (invoke (CallWriteStream 2) (start []))).
Proof.
  split.
  - apply (proj1 Flush_unwritten_and_unfinished (start []) 0); reflexivity.
  - apply (proj2 Flush_unwritten_and_unfinished).
    + apply reachable_call. apply (reachable_new _ 0). reflexivity.
    + simpl. discriminate.
    + simpl. lia.
Defined.

(** C9: [WriteStream(0)] then [Flush], with no [Write] between: both
    succeed, and what reaches the socket is the head of an empty array,
    without the ["OK"] of an unwritten response. [Flush] adds a frame of its
    own only to a writer that neither [WriteStream] nor [Write] has left
    its mark on. *)
Theorem WriteStream_zero_then_Flush :
  (forall (st : St) (t : Z),
     res st = newResponseWriter t ->
     werr (c st) = None ->
     exists st1 st2,
       WriteStream 0 st = (Ret None, st1) /\
       Flush st1 = (Ret None, st2) /\
       wire (history st2) = wire (history st) ++ wbuffer (c st) ++ [ArrayBegin 0] /\
       wbuffer (c st2) = []) /\
  (forall st : St,
     wtype (res st) <> notype ->
     wire (history (snd (Flush st))) ++ wbuffer (c (snd (Flush st)))
     = wire (history st) ++ wbuffer (c st)).
Proof.
  split.
  - intros st t Hres Hw.
    destruct st as [c0 r pr h inc sd]; simpl in *. subst r.
    destruct c0 as [cs wb we rd wd cl]; simpl in *. subst we.
    unfold_writer; simpl.
    destruct (t =? 0) eqn:Ht; simpl;
      do 2 eexists; (split; [reflexivity|]); simpl;
      (split; [reflexivity|]); simpl;
      rewrite wire_app, wire_Sent; split; reflexivity.
  - intros [[cs wb we rd wd cl] [cn ty rm tm] pr h inc sd]. simpl. intros Hty.
    destruct cn, ty, we; try congruence; unfold_writer; simpl;
      break_if; simpl; rewrite ?wire_app, ?wire_Sent, ?app_nil_r; reflexivity.
Qed.

Lemma WriteStream_zero_then_Flush_witness :
  exists st1 st2,
    WriteStream 0 (start []) = (Ret None, st1) /\
    Flush st1 = (Ret None, st2) /\
    wire (history st2) = [ArrayBegin 0] /\
    wbuffer (c st2) = [].
Proof.
  apply (proj1 WriteStream_zero_then_Flush (start []) 0); reflexivity.
Defined.

(** C4, the code on a writer that was not hijacked: [Hijack] clears
    [res.conn] and then calls [setState] through it, so it panics; it
    returns nothing, and the state of the connection stays what it was. The
    writer is left without connection, and the calls that follow return
    [ErrHijacked]. *)
Theorem Hijack_panics_on_nil_conn (st : St) :
  conn (res st) <> None ->
  exists st',
    Hijack st = (Panic nil_dereference, st') /\
    conn (res st') = None /\
    c st' = c st /\
    (forall n, WriteStream n st' = (Ret (Some ErrHijacked), st')) /\
    (forall v, Write v st' = (Ret (Some ErrHijacked), st')) /\
    Flush st' = (Ret (Some ErrHijacked), st') /\
    Hijack st' = (Ret (None, Some ErrHijacked), st').
Proof.
  destruct st as [c0 [cn ty rm tm] pr h inc sd]; simpl.
  intros Hconn. destruct cn as [r|]; [|congruence].
  unfold_writer; simpl. eexists. split; [reflexivity|].
  simpl. repeat split; reflexivity.
Qed.

Lemma Hijack_panics_on_nil_conn_witness :
  exists st',
    Hijack (start []) = (Panic nil_dereference, st') /\
    conn (res st') = None /\
    c st' = conn0 /\
    (forall n, WriteStream n st' = (Ret (Some ErrHijacked), st')) /\
    (forall v, Write v st' = (Ret (Some ErrHijacked), st')) /\
    Flush st' = (Ret (Some ErrHijacked), st') /\
    Hijack st' = (Ret (None, Some ErrHijacked), st').
Proof.
  apply (Hijack_panics_on_nil_conn (start [])). simpl. discriminate.
Defined.

(** C6, counterexample: a second [Write] on a one-shot writer returns
    [ErrWriteCalledTooManyTimes], and the [Flush] that follows succeeds. *)
Lemma Flush_succeeds_after_violation :
  let st1 := snd (invoke (CallWrite (Int 1)) (start [])) in
  let st2 := snd (invoke (CallWrite (Int 2)) st1) in
  fst (invoke (CallWrite (Int 2)) st1) = Ret (Some ErrWriteCalledTooManyTimes) /\
  fst (Flush st2) = Ret None /\
  wire (history (snd (Flush st2))) = [Value (Int 1)].
Proof. vm_compute. repeat split; reflexivity. Qed.

(** C6, as the code has it: a call that returns a contract violation
    changes neither the writer nor the connection, so the [Flush] that
    follows does what it would have done without that call; after
    [ErrWriteCalledTooManyTimes] on a transport in working order it
    succeeds. The error of a failed transport is taken not to be one of the
    writer's own. *)
Theorem violation_leaves_writer_unchanged (st : St) (k : call) (e : error) :
  (forall e', werr (c st) = Some e' -> contract_violation e' = false) ->
  fst (invoke k st) = Ret (Some e) ->
  contract_violation e = true ->
  snd (invoke k st) = st /\
  Flush (snd (invoke k st)) = Flush st /\
  (e = ErrWriteCalledTooManyTimes -> werr (c st) = None -> fst (Flush st) = Ret None).
Proof.
  intros Hwerr Hret Hviol.
  assert (Hsame : snd (invoke k st) = st /\
                  (e = ErrWriteCalledTooManyTimes -> werr (c st) = None ->
                   fst (Flush st) = Ret None)).
  { destruct st as [[cs wb we rd wd cl] [cn ty rm tm] pr h inc sd]; simpl in *.
    destruct k, cn, ty, we as [e'|];
      try (specialize (Hwerr e' eq_refl));
      unfold_writer; simpl in *;
      break_if; simpl in *;
      try discriminate;
      try discriminate;
      inversion Hret; subst; simpl in *;
      try congruence;
      (split; [reflexivity|]; intros; try discriminate; try congruence; try reflexivity).
  }
  destruct Hsame as [Hst Hflush]. rewrite Hst. auto.
Qed.

Lemma violation_leaves_writer_unchanged_witness :
  let st1 := snd (invoke (CallWrite (Int 1)) (start [])) in
  snd (invoke (CallWrite (Int 2)) st1) = st1 /\
  Flush (snd (invoke (CallWrite (Int 2)) st1)) = Flush st1 /\
  (ErrWriteCalledTooManyTimes = ErrWriteCalledTooManyTimes ->
   werr (c st1) = None -> fst (Flush st1) = Ret None).
Proof.
  apply (violation_leaves_writer_unchanged
           (snd (invoke (CallWrite (Int 1)) (start [])))
           (CallWrite (Int 2)) ErrWriteCalledTooManyTimes).
  - simpl. discriminate.
  - reflexivity.
  - reflexivity.
Defined.

(** ** Transactions *)

Lemma flushed_flushed (fs1 fs2 : list frame) (st : St) :
  flushed fs2 (flushed fs1 st) = flushed (fs1 ++ fs2) st.
Proof.
  destruct st as [[cs wb we rd wd cl] r pr h inc sd].
  unfold flushed, set_history, set_c, with_wbuffer. simpl.
  rewrite !map_app, <- !app_assoc. reflexivity.
Qed.

Section Transactions.
Context {P : Parsers}.
Variable s : Server.t.
Variable config : serverConfig.

Lemma WriteArgs_one_sent (v : value) (st : St) :
  werr (c st) = None ->
  WriteArgs [v] st = (Ret None, flushed [Value v] st).
Proof.
  destruct st as [[cs wb we rd wd cl] r pr h inc sd]. simpl. intros ->.
  reflexivity.
Qed.

Lemma WriteArgs_one_failed (v : value) (st : St) (e : error) :
  werr (c st) = Some e ->
  WriteArgs [v] st = (Ret (Some e), st).
Proof.
  destruct st as [[cs wb we rd wd cl] r pr h inc sd]. simpl. intros ->.
  reflexivity.
Qed.

Lemma queue_first_step (cmds : list Command) :
  cmds <> [] ->
  (0 <? Z.of_nat (length cmds)) = true /\
  (Z.of_nat (length cmds) =? 0) = false /\
  exists cmd, cmds !! (length cmds - 1)%nat = Some cmd /\
              <[(length cmds - 1)%nat := loadByteArgs cmd]> cmds = cmds.
Proof.
  intros Hne.
  assert (Hlen : (0 < length cmds)%nat) by (destruct cmds; [congruence | simpl; lia]).
  split; [apply Z.ltb_lt; lia|].
  split; [apply Z.eqb_neq; lia|].
  destruct (lookup_lt_is_Some_2 cmds (length cmds - 1)%nat) as [cmd Hcmd]; [lia|].
  exists cmd. split; [exact Hcmd|].
  apply list_insert_id. exact Hcmd.
Qed.

(** The queue loop acknowledges once per pass, always with ["QUEUED"]:
    one pass for the command that opened the transaction and one for each
    command the cursor delivers. *)
Lemma queue_sent (pending : list (string * byteArgs.t)) :
  forall (cmds : list Command) (st : St),
    cmds <> [] ->
    werr (c st) = None ->
    queue pending cmds st
    = (Ret (cmds ++ map Read pending)%list,
       flushed (repeat (Value (Str "QUEUED")) (S (length pending))) st).
Proof.
  induction pending as [|next pending IH]; intros cmds st Hne Hw.
  - destruct (queue_first_step cmds Hne) as (H1 & H2 & cmd & Hcmd & Hid).
    simpl. rewrite H1, H2, Hcmd, Hid.
    unfold bind. rewrite (WriteArgs_one_sent _ _ Hw).
    unfold ret. rewrite app_nil_r.
    rewrite take_app_length. reflexivity.
  - destruct (queue_first_step cmds Hne) as (H1 & H2 & cmd & Hcmd & Hid).
    simpl. rewrite H1, H2, Hcmd, Hid.
    unfold bind at 1. rewrite (WriteArgs_one_sent _ _ Hw).
    assert (Hins : <[length cmds := Read next]> (cmds ++ [Command_zero])
                   = (cmds ++ [Read next])%list).
    { rewrite insert_app_r_alt by lia.
      replace (length cmds - length cmds)%nat with 0%nat by lia. reflexivity. }
    rewrite Hins.
    rewrite IH.
    + rewrite flushed_flushed. rewrite <- app_assoc. reflexivity.
    + destruct cmds; discriminate.
    + destruct st as [[cs wb we rd wd cl] r pr h inc sd]. exact Hw.
Qed.

Lemma queue_failed (pending : list (string * byteArgs.t)) :
  forall (cmds : list Command) (st : St) (e : error),
    cmds <> [] ->
    werr (c st) = Some e ->
    queue pending cmds st = (Ret (cmds ++ map Read pending)%list, st).
Proof.
  induction pending as [|next pending IH]; intros cmds st e Hne Hw.
  - destruct (queue_first_step cmds Hne) as (H1 & H2 & cmd & Hcmd & Hid).
    simpl. rewrite H1, H2, Hcmd, Hid.
    unfold bind. rewrite (WriteArgs_one_failed _ _ _ Hw).
    unfold ret. rewrite app_nil_r.
    rewrite take_app_length. reflexivity.
  - destruct (queue_first_step cmds Hne) as (H1 & H2 & cmd & Hcmd & Hid).
    simpl. rewrite H1, H2, Hcmd, Hid.
    unfold bind at 1. rewrite (WriteArgs_one_failed _ _ _ Hw).
    assert (Hins : <[length cmds := Read next]> (cmds ++ [Command_zero])
                   = (cmds ++ [Read next])%list).
    { rewrite insert_app_r_alt by lia.
      replace (length cmds - length cmds)%nat with 0%nat by lia. reflexivity. }
    rewrite Hins.
    rewrite (IH _ _ e).
    + rewrite <- app_assoc. reflexivity.
    + destruct cmds; discriminate.
    + exact Hw.
Qed.

Lemma endTransaction_discard (front : list Command) (d : string * byteArgs.t) (st : St) :
  fst d = "DISCARD" ->
  endTransaction (front ++ [Read d]) st
  = match werr (c st) with
    | None =>
        (Ret (inl Again),
         flushed [Value (Str "OK")]
           (set_history (history st ++ [Drained "DISCARD"]) st))
    | Some _ =>
        (Ret (inl Return), set_history (history st ++ [Drained "DISCARD"]) st)
    end.
Proof.
  intros Hd. unfold endTransaction.
  rewrite length_app. change (length [Read d]) with 1%nat.
  replace (Z.of_nat (length front + 1) - 1) with (Z.of_nat (length front)) by lia.
  destruct (Z.ltb_spec (Z.of_nat (length front)) 0) as [Hneg|_]; [lia|].
  rewrite Nat2Z.id.
  rewrite lookup_app_r by lia.
  replace (length front - length front)%nat with 0%nat by lia.
  simpl. rewrite Hd. simpl.
  destruct st as [[cs wb we rd wd cl] r pr h inc sd].
  destruct we; reflexivity.
Qed.

End Transactions.

Lemma servePass_discard
    (P : Parsers) (s : Server.t) (config : serverConfig)
    (addr : string) (depth : nat) (st : St)
    (rd : CommandReader) (later : list CommandReader)
    (multi d : string * byteArgs.t) (body : list (string * byteArgs.t)) :
  shutdown st = false ->
  incoming st = rd :: later ->
  pending rd = multi :: body ++ [d] ->
  fst multi = "MULTI" ->
  fst d = "DISCARD" ->
  exists (p : pass) (st' : St),
    servePass s config addr depth st = (Ret (Done p), st') /\
    served (history st') = served (history st) /\
    incoming st' = later /\
    (werr (c st) = None ->
     p = Again /\
     history st'
     = history st
       ++ map Sent (wbuffer (c st) ++ repeat (Value (Str "QUEUED")) (S (S (length body))))
       ++ [Drained "DISCARD"; Sent (Value (Str "OK"))]).
Proof.
  intros Hsd Hinc Hpend Hmulti Hd.
  destruct st as [[cs wb we rdl wdl cl] r pr h inc sd]. simpl in *. subst sd inc.
  unfold servePass. unfold bind at 1. unfold get. simpl.
  unfold bind at 1. simpl. unfold bind at 1. simpl. unfold bind at 1. simpl.
  rewrite Hpend. simpl. rewrite Hmulti. simpl.
  unfold bind at 1. unfold bind at 1.
  destruct we as [e|].
  - rewrite (queue_failed _ _ _ e); [|discriminate|reflexivity].
    change (Read multi :: map Read (body ++ [d]))
      with ([Read multi] ++ map Read (body ++ [d])).
    rewrite map_app, app_assoc. simpl map.
    rewrite endTransaction_discard by exact Hd. simpl.
    do 2 eexists. split; [reflexivity|]. simpl.
    rewrite served_app. simpl. rewrite app_nil_r.
    repeat split; try reflexivity; discriminate.
  - rewrite queue_sent; [|discriminate|reflexivity].
    change (Read multi :: map Read (body ++ [d]))
      with ([Read multi] ++ map Read (body ++ [d])).
    rewrite map_app, app_assoc. simpl map.
    rewrite endTransaction_discard by exact Hd. simpl.
    do 2 eexists. split; [reflexivity|]. simpl.
    repeat (rewrite ?served_app, ?served_Sent; simpl). rewrite ?app_nil_r.
    split; [reflexivity|]. split; [reflexivity|].
    intros _. split; [reflexivity|].
    rewrite length_app. change (length [d]) with 1%nat.
    replace (length body + 1)%nat with (S (length body)) by lia.
    rewrite <- !app_assoc. reflexivity.
Qed.

(** C3: a pass of the connection loop over a transaction that ends with
    [DISCARD] does not call the handler, whatever the transport does. On a
    transport in working order the pass closes the argument list of
    [DISCARD], with ["OK"] as the last frame it sends, takes the batch off
    the input and gives control back to the loop, which goes on with its
    next pass. *)
Theorem discarded_transaction_skips_handler
    (P : Parsers) (s : Server.t) (config : serverConfig)
    (addr : string) (depth : nat) (st : St)
    (rd : CommandReader) (later : list CommandReader)
    (multi d : string * byteArgs.t) (body : list (string * byteArgs.t)) :
  shutdown st = false ->
  incoming st = rd :: later ->
  pending rd = multi :: body ++ [d] ->
  fst multi = "MULTI" ->
  fst d = "DISCARD" ->
  exists (p : pass) (st' : St),
    servePass s config addr depth st = (Ret (Done p), st') /\
    served (history st') = served (history st) /\
    incoming st' = later /\
    (werr (c st) = None ->
     p = Again /\
     history st'
     = history st
       ++ map Sent (wbuffer (c st) ++ repeat (Value (Str "QUEUED")) (S (S (length body))))
       ++ [Drained "DISCARD"; Sent (Value (Str "OK"))] /\
     forall fuel,
       passes s config (S fuel) addr depth st = passes s config fuel addr depth st').
Proof.
  intros Hsd Hinc Hpend Hmulti Hd.
  destruct (servePass_discard P s config addr depth st rd later multi d body
              Hsd Hinc Hpend Hmulti Hd) as (p & st' & Hrun & Hserved & Hincoming & Hok).
  exists p, st'. repeat (split; [assumption|]).
  intros Hw. destruct (Hok Hw) as [-> Hhist].
  repeat (split; [assumption || reflexivity|]).
  intros fuel. simpl. unfold bind at 1. rewrite Hrun. reflexivity.
Qed.

Lemma discarded_transaction_skips_handler_witness :
  exists (p : pass) (st' : St),
    servePass (P := decimalParsers) ok_server no_timeouts "" 1 (start [discarded])
    = (Ret (Done p), st') /\
    served (history st') = [] /\
    incoming st' = [] /\
    (werr (c (start [discarded])) = None ->
     p = Again /\
     history st'
     = [Sent (Value (Str "QUEUED")); Sent (Value (Str "QUEUED"));
        Sent (Value (Str "QUEUED")); Drained "DISCARD"; Sent (Value (Str "OK"))] /\
     forall fuel,
       passes (P := decimalParsers) ok_server no_timeouts (S fuel) "" 1 (start [discarded])
       = passes (P := decimalParsers) ok_server no_timeouts fuel "" 1 st').
Proof.
  apply (discarded_transaction_skips_handler decimalParsers ok_server no_timeouts
           "" 1 (start [discarded]) discarded []
           (wire_command "MULTI" []) (wire_command "DISCARD" [])
           [wire_command "SET" ["a"; "1"]]); reflexivity.
Defined.

(** C2, the code on the transaction [MULTI], [SET a 1], [SET b 2], [EXEC]:
    before the handler is called four frames are sent, all of them
    ["QUEUED"]. [MULTI] is not acknowledged with ["OK"], and there is one
    acknowledgement more than [1 + 2]. *)
Theorem transaction_acknowledgements :
  let st' := snd (servePass (P := decimalParsers) ok_server no_timeouts "" 1
                    (start [committed])) in
  history st'
  = [Sent (Value (Str "QUEUED")); Sent (Value (Str "QUEUED"));
     Sent (Value (Str "QUEUED")); Sent (Value (Str "QUEUED"));
     Served [Read (wire_command "SET" ["a"; "1"]); Read (wire_command "SET" ["b"; "2"])];
     Sent (ArrayBegin 2); Sent (Value (Str "OK")); Sent (Value (Str "OK"));
     Drained "SET"; Drained "SET"].
Proof. vm_compute. reflexivity. Qed.

(** ** Prepared responses *)

(** C1, the code on the request [PING], [SET foo bar] with a handler that
    writes ["OK"] for the one command it is given: [serveRequest] returns no
    error, the base writer is never put in stream mode, and of the two
    values due only ["PONG"] reaches the socket, without an array in front
    of it. *)
Theorem prepared_response_without_stream :
  let '(r, st') := serveRequest (P := decimalParsers) ok_server ping_then_set
                     (start []) in
  (exists req cmds, r = Ret (None, req, cmds)) /\
  wtype (res st') = oneshot /\
  wire (history st') = [Value (Str "PONG")].
Proof. vm_compute. split; [do 2 eexists; reflexivity|]. split; reflexivity. Qed.

(** *** The base writer is never put in stream mode through the wrapper *)

Lemma keeps_ret {A : Type} (I : St -> Prop) (a : A) : keeps I (ret a).
Proof. intros st H. exact H. Qed.

Lemma keeps_panic {A : Type} (I : St -> Prop) (v : panic_value) : keeps I (panic (A := A) v).
Proof. intros st H. exact H. Qed.

Lemma keeps_get (I : St -> Prop) : keeps I get.
Proof. intros st H. exact H. Qed.

Lemma keeps_bind {A B : Type} (I : St -> Prop) (m : M A) (k : A -> M B) :
  keeps I m -> (forall a, keeps I (k a)) -> keeps I (bind m k).
Proof.
  intros Hm Hk st H. unfold bind.
  destruct (m st) as [[a|v] st1] eqn:Hrun.
  - apply Hk. specialize (Hm st H). rewrite Hrun in Hm. exact Hm.
  - specialize (Hm st H). rewrite Hrun in Hm. exact Hm.
Qed.

Lemma keeps_recover {A : Type} (I : St -> Prop) (m : M A) :
  keeps I m -> keeps I (recover m).
Proof.
  intros Hm st H. unfold recover. specialize (Hm st H).
  destruct (m st) as [[a|v] st1]; exact Hm.
Qed.

Lemma Write_not_streaming (v : value) : keeps not_streaming (Write v).
Proof.
  intros [[cs wb we rd wd cl] [cn ty rm tm] pr h inc sd]. unfold not_streaming. simpl.
  intros Hty. destruct cn, ty, we; unfold_writer; simpl in *;
    break_if; simpl; congruence.
Qed.

Lemma Flush_not_streaming : keeps not_streaming Flush.
Proof.
  intros [[cs wb we rd wd cl] [cn ty rm tm] pr h inc sd]. unfold not_streaming. simpl.
  intros Hty. destruct cn, ty, we; unfold_writer; simpl in *;
    break_if; simpl; congruence.
Qed.

Lemma Hijack_not_streaming : keeps not_streaming Hijack.
Proof.
  intros [[cs wb we rd wd cl] [cn ty rm tm] pr h inc sd]. unfold not_streaming. simpl.
  intros Hty. destruct cn; unfold_writer; simpl in *; congruence.
Qed.

Lemma set_prepared_not_streaming (i : Z) (l : list preparedResponse.t) :
  keeps not_streaming (set_prepared i l).
Proof. intros st H. exact H. Qed.

Lemma note_not_streaming (e : event) : keeps not_streaming (note e).
Proof. intros st H. exact H. Qed.

Lemma preparedResponseWriter_Write_not_streaming (v : value) :
  keeps not_streaming (preparedResponseWriter_Write v).
Proof.
  unfold preparedResponseWriter_Write.
  apply keeps_bind; [apply keeps_get|]. intros st0.
  destruct (preparedRes st0) as [p|]; [|apply keeps_panic].
  apply keeps_bind.
  - destruct (responses p) as [|r0 rest]; [apply keeps_ret|].
    destruct (preparedResponse.index r0 =? index p); [|apply keeps_ret].
    apply keeps_bind; [apply Write_not_streaming|]. intros [e|]; [apply keeps_ret|].
    apply keeps_bind; [apply set_prepared_not_streaming|]. intros _. apply keeps_ret.
  - intros [e|]; [apply keeps_ret|].
    apply keeps_bind; [apply keeps_get|]. intros st1.
    destruct (preparedRes st1) as [p1|]; [|apply keeps_panic].
    apply keeps_bind; [apply set_prepared_not_streaming|]. intros _.
    apply Write_not_streaming.
Qed.

Lemma writeValues_not_streaming (l : list preparedResponse.t) :
  keeps not_streaming (writeValues l).
Proof.
  induction l as [|r rest IH]; simpl; [apply keeps_ret|].
  apply keeps_bind; [apply Write_not_streaming|].
  intros [e|]; [apply keeps_ret | exact IH].
Qed.

Lemma writeRemainingValues_not_streaming : keeps not_streaming writeRemainingValues.
Proof.
  unfold writeRemainingValues.
  apply keeps_bind; [apply keeps_get|]. intros st0.
  destruct (preparedRes st0) as [p|]; [|apply keeps_panic].
  apply keeps_bind; [apply writeValues_not_streaming|]. intros err.
  apply keeps_bind; [apply keeps_get|]. intros st1.
  destruct (preparedRes st1) as [p1|]; [|apply keeps_panic].
  apply keeps_bind; [apply set_prepared_not_streaming|]. intros _. apply keeps_ret.
Qed.

Lemma ServeRedis_prepared_not_streaming (calls : list call) :
  keeps not_streaming (ServeRedis the_preparedResponseWriter calls).
Proof.
  induction calls as [|k rest IH]; simpl; [apply keeps_ret|].
  apply keeps_bind; [|intros _; exact IH].
  destruct k; simpl.
  - apply keeps_bind; [|intros _; apply keeps_ret]. intros st H. exact H.
  - apply keeps_bind; [|intros _; apply keeps_ret].
    apply preparedResponseWriter_Write_not_streaming.
  - apply keeps_bind; [|intros _; apply keeps_ret]. apply Flush_not_streaming.
  - apply keeps_bind; [|intros _; apply keeps_ret]. apply Hijack_not_streaming.
  - apply keeps_panic.
Qed.

Lemma keeps_bind_ret {A B C : Type} (I : St -> Prop) (m : M A) (b : B) (k : B -> M C) :
  keeps I m -> keeps I (k b) -> keeps I (bind (bind m (fun _ => ret b)) k).
Proof.
  intros Hm Hk st H. unfold bind, ret.
  specialize (Hm st H).
  destruct (m st) as [[a|v] st1]; simpl in *; [apply Hk|]; exact Hm.
Qed.

Lemma serveRedis_prepared_not_streaming (P : Parsers) (s : Server.t) (req : Request) :
  keeps not_streaming (serveRedis s the_preparedResponseWriter req).
Proof.
  unfold serveRedis.
  apply keeps_bind; [apply note_not_streaming|]. intros _.
  apply keeps_bind.
  - apply keeps_recover. apply ServeRedis_prepared_not_streaming.
  - intros [u|v]; apply keeps_ret.
Qed.

(** The call [w.WriteStream(...)] of [serveRequest] reaches the wrapper,
    which changes nothing, and the handler has the wrapper for writer: for
    every request with a [PING] in it and every handler, the base writer is
    not in stream mode when [serveRequest] is over. *)
Lemma serveRequest_with_prepared_never_streams
    (P : Parsers) (s : Server.t) (req : Request) (st : St) :
  snd (stripPrepared (Cmds req) (Cmds req) 0 None) <> None ->
  wtype (res st) = notype ->
  wtype (res (snd (serveRequest s req st))) <> stream.
Proof.
  intros Hprep Hty.
  assert (Hkeep : keeps not_streaming (serveRequest s req)).
  { unfold serveRequest.
    destruct (stripPrepared (Cmds req) (Cmds req) 0 None) as [[array i] [p|]];
      simpl in Hprep; [|congruence].
    apply keeps_bind; [intros st0 H; exact H|]. intros _.
    apply keeps_bind_ret; [intros st0 H; exact H|].
    apply keeps_bind.
    { match goal with |- keeps _ (if ?b then _ else _) => destruct b end;
        [apply (serveRedis_prepared_not_streaming P) | apply keeps_ret]. }
    intros err. apply keeps_bind.
    { match goal with |- keeps _ (if ?b then _ else _) => destruct b end;
        [apply writeRemainingValues_not_streaming | apply keeps_ret]. }
    intros err'. apply keeps_bind.
    { match goal with |- keeps _ (if ?b then _ else _) => destruct b end;
        [apply Flush_not_streaming | apply keeps_ret]. }
    intros err''. apply keeps_ret. }
  apply Hkeep. unfold not_streaming. rewrite Hty. discriminate.
Qed.

(** * Further properties of the code *)

(** ** backoff *)

Lemma int64_wrap_small (z : Z) : - 2 ^ 63 <= z < 2 ^ 63 -> int64_wrap z = z.
Proof.
  intros Hz. unfold int64_wrap.
  rewrite Z.mod_small; lia.
Qed.

(** X1: the delay of [backoff] never exceeds [maxDelay]; while
    [attempt * attempt * minDelay] fits a 64-bit integer it is that product
    capped at [maxDelay], and it does not decrease with [attempt]. *)
Theorem backoff_capped_square :
  (forall attempt minDelay maxDelay : Z,
     backoff attempt minDelay maxDelay <= maxDelay) /\
  (forall attempt minDelay maxDelay : Z,
     0 <= attempt -> 0 < minDelay -> attempt * attempt * minDelay < 2 ^ 63 ->
     backoff attempt minDelay maxDelay = Z.min (attempt * attempt * minDelay) maxDelay) /\
  (forall a b minDelay maxDelay : Z,
     0 <= a <= b -> 0 < minDelay -> b * b * minDelay < 2 ^ 63 ->
     backoff a minDelay maxDelay <= backoff b minDelay maxDelay).
Proof.
  assert (Hexact : forall attempt minDelay maxDelay : Z,
            0 <= attempt -> 0 < minDelay -> attempt * attempt * minDelay < 2 ^ 63 ->
            backoff attempt minDelay maxDelay
            = Z.min (attempt * attempt * minDelay) maxDelay).
  { intros attempt minDelay maxDelay Ha Hm Hfit. unfold backoff.
    assert (Hsq : 0 <= attempt * attempt) by nia.
    assert (Hle : attempt * attempt <= attempt * attempt * minDelay) by nia.
    rewrite (int64_wrap_small (attempt * attempt)) by lia.
    rewrite int64_wrap_small by nia.
    destruct (Z.gtb_spec (attempt * attempt * minDelay) maxDelay); lia. }
  split; [|split].
  - intros attempt minDelay maxDelay. unfold backoff.
    destruct (Z.gtb_spec (int64_wrap (int64_wrap (attempt * attempt) * minDelay)) maxDelay);
      lia.
  - exact Hexact.
  - intros a b minDelay maxDelay Hab Hm Hfit.
    assert (Hsq : a * a <= b * b) by nia.
    rewrite !Hexact; try lia; nia.
Qed.

Lemma backoff_capped_square_witness :
  backoff 3 (10 * Millisecond) (500 * Millisecond)
  = Z.min (3 * 3 * (10 * Millisecond)) (500 * Millisecond).
Proof.
  apply (proj1 (proj2 backoff_capped_square)); vm_compute; first [reflexivity | discriminate].
Defined.

(** ** Shutdown *)

(** X2: while every poll finds an actor, [Shutdown] does not return, whether
    [ctx] is done or not: the [select] of the loop only waits. *)
Theorem Shutdown_waits_for_actors (env : Shutdown.Env) (start : Z) (fuel : nat) :
  (forall t : Z, Shutdown.actorsAt env t <> 0) ->
  Shutdown.Shutdown fuel env start = None.
Proof.
  intros Hbusy. apply loop_polls_while_actors_remain.
  intros j _. apply Hbusy.
Qed.

Lemma Shutdown_waits_for_actors_witness :
  Shutdown.Shutdown 1000 never_drained 0 = None.
Proof.
  apply (Shutdown_waits_for_actors never_drained 0 1000).
  intros t. simpl. discriminate.
Defined.

(** ** byteArgs *)

(** X3: [Next] is safe to call after the end or after an error: it returns
    false, stores nothing and changes nothing. *)
Theorem byteArgs_Next_after_end (P : Parsers) (dst : Kind) (a : byteArgs.t) :
  byteArgs.args a = [] \/ byteArgs.err a <> None ->
  Args.Next dst a = (false, None, a).
Proof.
  intros Hend. simpl. unfold byteArgs.Next.
  destruct a as [l e]; simpl in *.
  destruct Hend as [-> | He]; [reflexivity|].
  destruct e as [e|]; [|congruence].
  simpl. rewrite orb_true_r. reflexivity.
Qed.

Lemma byteArgs_Next_after_end_witness :
  Args.Next (t := byteArgs.byteArgs_Args (P := decimalParsers)) KInt
    (snd (Args.Next (t := byteArgs.byteArgs_Args (P := decimalParsers)) KInt two_args))
  = (false, None,
     snd (Args.Next (t := byteArgs.byteArgs_Args (P := decimalParsers)) KInt two_args)).
Proof.
  apply (byteArgs_Next_after_end decimalParsers). right. simpl. discriminate.
Defined.

(** X4: [Close] of byte arguments returns the recorded error and drops the
    arguments that are left: afterwards [Len] is 0, [Next] is false, and a
    second [Close] returns the same error and changes nothing. *)
Theorem byteArgs_Close_drops_and_repeats (P : Parsers) (a : byteArgs.t) (dst : Kind) :
  let '(e, a') := Args.Close a in
  e = byteArgs.err a /\
  Args.Len a' = 0 /\
  fst (fst (Args.Next dst a')) = false /\
  Args.Close a' = (e, a').
Proof.
  destruct a as [l e]. simpl. unfold byteArgs.Close. simpl.
  repeat split; reflexivity.
Qed.

(** X5: reading [n] strings from byte arguments without error gives the
    first [n] arguments in order, all of them when there are fewer, with no
    error; [ParseArgs] leaves the list closed. *)
Theorem ParseArgs_strings (P : Parsers) (l : list bytes) (n : nat) :
  ParseArgs (Some {| byteArgs.args := l; byteArgs.err := None |}) (repeat KString n)
  = (Ret None, Some {| byteArgs.args := []; byteArgs.err := None |},
     map SString (take n l)).
Proof.
  assert (Hread : forall (n : nat) (l : list bytes),
            exists rest,
              readInto {| byteArgs.args := l; byteArgs.err := None |} (repeat KString n)
              = ({| byteArgs.args := rest; byteArgs.err := None |},
                 map SString (take n l))).
  { clear. induction n as [|n IH]; intros l.
    - exists l. reflexivity.
    - destruct l as [|x l].
      + exists []. reflexivity.
      + destruct (IH l) as [rest Hrest]. exists rest.
        simpl. unfold byteArgs.Next. simpl.
        simpl in Hrest. rewrite Hrest. reflexivity. }
  destruct (Hread n l) as [rest Hrest].
  unfold ParseArgs. simpl. rewrite Hrest. reflexivity.
Qed.

(** X6: when the conversion of an argument fails, [ParseArgs] returns that
    error, stores nothing in the destinations from there on and leaves the
    list closed, with the error kept. *)
Theorem ParseArgs_conversion_error (P : Parsers) (dst : Kind) (dsts : list Kind)
    (a0 : bytes) (rest : list bytes) (e : error) :
  byteArgs.next dst a0 = inr e ->
  ParseArgs (Some {| byteArgs.args := a0 :: rest; byteArgs.err := None |}) (dst :: dsts)
  = (Ret (Some e), Some {| byteArgs.args := []; byteArgs.err := Some e |}, []).
Proof.
  intros Hnext. unfold ParseArgs. simpl. unfold byteArgs.Next. simpl.
  rewrite Hnext. reflexivity.
Qed.

Lemma ParseArgs_conversion_error_witness :
  ParseArgs (HA := byteArgs.byteArgs_Args (P := decimalParsers))
    (Some two_args) [KInt; KString]
  = (Ret (Some syntax_error),
     Some {| byteArgs.args := []; byteArgs.err := Some syntax_error |}, []).
Proof.
  apply (ParseArgs_conversion_error decimalParsers KInt [KString] "x" ["1"] syntax_error).
  reflexivity.
Defined.

(** X7: [Int], [Int64] and [String] never panic, since they pass one
    destination: on nil arguments they return the zero value and
    [ErrNilArgs]. On byte arguments that are empty they return the zero
    value and no error. *)
Theorem readers_of_one_value :
  (forall (A : Type) (HA : Args.t A),
     Parse.Int (A := A) None = Ret (0, Some ErrNilArgs) /\
     Parse.Int64 (A := A) None = Ret (0, Some ErrNilArgs) /\
     Parse.String (A := A) None = Ret ("", Some ErrNilArgs)) /\
  (forall P : Parsers,
     let empty := Some {| byteArgs.args := []; byteArgs.err := None |} in
     Parse.Int empty = Ret (0, None) /\
     Parse.Int64 empty = Ret (0, None) /\
     Parse.String empty = Ret ("", None)).
Proof.
  split.
  - intros A HA. repeat split; reflexivity.
  - intros P. repeat split; reflexivity.
Qed.

(** ** The response writer in stream mode *)

Lemma Write_in_stream (v : value) (st : St) :
  conn (res st) <> None ->
  wtype (res st) = stream ->
  0 < remain (res st) < 2 ^ 63 ->
  werr (c st) = None ->
  Write v st = (Ret None, streamed [Value v] (remain (res st) - 1) st).
Proof.
  destruct st as [[cs wb we rd wd cl] [cn ty rm tm] pr h inc sd]. simpl.
  intros Hcn -> Hrm ->. destruct cn as [r|]; [|congruence].
  unfold_writer. simpl.
  destruct (Z.eqb_spec rm 0) as [Hz|_]; [lia|]. simpl.
  rewrite int64_wrap_small by lia. reflexivity.
Qed.

Lemma streamed_streamed (fs1 fs2 : list frame) (n1 n2 : Z) (st : St) :
  streamed fs2 n2 (streamed fs1 n1 st) = streamed (fs1 ++ fs2) n2 st.
Proof.
  destruct st as [[cs wb we rd wd cl] [cn ty rm tm] pr h inc sd].
  unfold streamed, set_res, set_c, with_wbuffer. simpl.
  rewrite <- app_assoc. reflexivity.
Qed.

Lemma writes_in_stream (vs : list value) :
  forall st : St,
    conn (res st) <> None ->
    wtype (res st) = stream ->
    remain (res st) = Z.of_nat (length vs) ->
    remain (res st) < 2 ^ 63 ->
    werr (c st) = None ->
    writes vs st
    = (Ret (repeat None (length vs)),
       if (length vs =? 0)%nat then st else streamed (map Value vs) 0 st).
Proof.
  induction vs as [|v vs IH]; intros st Hcn Hty Hrm Hfit Hw; [reflexivity|].
  change (length (v :: vs)) with (S (length vs)) in *.
  rewrite Nat2Z.inj_succ in Hrm.
  cbn [writes]. unfold bind at 1.
  rewrite Write_in_stream by (assumption || lia).
  replace (remain (res st) - 1) with (Z.of_nat (length vs)) by lia.
  unfold bind at 1.
  rewrite IH.
  - unfold ret. cbn [repeat Nat.eqb]. f_equal.
    destruct vs as [|v' vs].
    + simpl. reflexivity.
    + cbn [length Nat.eqb]. rewrite streamed_streamed. reflexivity.
  - destruct st as [[cs wb we rd wd cl] [cn ty rm tm] pr h inc sd]. exact Hcn.
  - destruct st as [[cs wb we rd wd cl] [cn ty rm tm] pr h inc sd]. reflexivity.
  - destruct st as [[cs wb we rd wd cl] [cn ty rm tm] pr h inc sd]. reflexivity.
  - destruct st as [[cs wb we rd wd cl] [cn ty rm tm] pr h inc sd]. simpl. lia.
  - destruct st as [[cs wb we rd wd cl] [cn ty rm tm] pr h inc sd]. exact Hw.
Qed.

(** X8: a stream used as announced. On a new writer and a transport in
    working order, [WriteStream(n)] followed by [n] calls of [Write]
    succeeds; one more [Write] returns [ErrWriteCalledTooManyTimes] and
    changes nothing; [Flush] then succeeds, and what it sends is the head of
    an array of [n] followed by the [n] values in the order written. *)
Theorem stream_written_as_announced (st : St) (t : Z) (vs : list value) :
  res st = newResponseWriter t ->
  werr (c st) = None ->
  Z.of_nat (length vs) < 2 ^ 63 ->
  exists st1 st2 st3,
    WriteStream (Z.of_nat (length vs)) st = (Ret None, st1) /\
    writes vs st1 = (Ret (repeat None (length vs)), st2) /\
    (forall v, Write v st2 = (Ret (Some ErrWriteCalledTooManyTimes), st2)) /\
    Flush st2 = (Ret None, st3) /\
    wire (history st3)
    = wire (history st) ++ wbuffer (c st)
      ++ ArrayBegin (Z.of_nat (length vs)) :: map Value vs.
Proof.
  intros Hres Hw Hfit.
  destruct st as [[cs wb we rd wd cl] r pr h inc sd]. simpl in *. subst r we.
  assert (Hopen : exists wd',
            WriteStream (Z.of_nat (length vs))
              {| c := {| state := cs; wbuffer := wb; werr := None; rdeadline := rd;
                         wdeadline := wd; closed := cl |};
                 res := newResponseWriter t; preparedRes := pr; history := h;
                 incoming := inc; shutdown := sd |}
            = (Ret None,
               {| c := {| state := cs; wbuffer := wb ++ [ArrayBegin (Z.of_nat (length vs))];
                          werr := None; rdeadline := rd; wdeadline := wd'; closed := cl |};
                  res := {| conn := Some conn_ref; wtype := stream;
                            remain := Z.of_nat (length vs); timeout := t |};
                  preparedRes := pr; history := h; incoming := inc; shutdown := sd |})).
  { unfold newResponseWriter. unfold_writer. simpl.
    destruct (Z.ltb_spec (Z.of_nat (length vs)) 0) as [Hneg|_]; [lia|].
    exists (if negb (t =? 0) then t else wd).
    simpl. destruct (t =? 0); reflexivity. }
  destruct Hopen as [wd' Hopen].
  destruct vs as [|v0 vs].
  - eexists. eexists. eexists.
    split; [exact Hopen|].
    split; [reflexivity|]. split; [reflexivity|]. split; [reflexivity|].
    simpl. rewrite wire_app, wire_Sent. reflexivity.
  - eexists. eexists. eexists.
    split; [exact Hopen|].
    split; [apply writes_in_stream; simpl; (discriminate || reflexivity || assumption)|].
    cbn [length Nat.eqb]. split; [reflexivity|]. split; [reflexivity|].
    simpl. rewrite wire_app, wire_Sent, <- app_assoc. reflexivity.
Qed.

Lemma stream_written_as_announced_witness :
  exists st1 st2 st3,
    WriteStream 2 (start []) = (Ret None, st1) /\
    writes [Int 1; Int 2] st1 = (Ret [None; None], st2) /\
    (forall v, Write v st2 = (Ret (Some ErrWriteCalledTooManyTimes), st2)) /\
    Flush st2 = (Ret None, st3) /\
    wire (history st3) = [ArrayBegin 2; Value (Int 1); Value (Int 2)].
Proof.
  apply (stream_written_as_announced (start []) 0 [Int 1; Int 2]);
    vm_compute; reflexivity.
Defined.

(** ** The commands of a request *)

Lemma stripPrepared_from (P : Parsers) (range : list Command) :
  forall (kept junk : list Command) (prepared : option preparedResponseWriter)
         (array : list Command) (i : nat) (prepared' : option preparedResponseWriter),
    stripPrepared range (kept ++ junk ++ range) (length kept) prepared
    = (array, i, prepared') ->
    take i array = kept ++ List.filter (fun cmd => negb (is_PING cmd)) range /\
    length array = length (kept ++ junk ++ range) /\
    length (prepared_responses prepared')
    = (length (prepared_responses prepared) + length (List.filter is_PING range))%nat /\
    (prepared' = None <-> prepared = None /\ List.filter is_PING range = []).
Proof.
  induction range as [|cmd rest IH];
    intros kept junk prepared array i prepared' Hrun.
  - simpl in Hrun. injection Hrun as <- <- <-.
    rewrite !app_nil_r. simpl. rewrite take_app_length.
    repeat split; try tauto; lia.
  - cbn [stripPrepared] in Hrun. cbn [List.filter].
    assert (Hp : is_PING cmd = (Cmd cmd =? "PING")%string) by reflexivity.
    rewrite !Hp.
    destruct (Cmd cmd =? "PING")%string eqn:Hping; cbn [negb].
    + replace (kept ++ junk ++ cmd :: rest) with (kept ++ (junk ++ [cmd]) ++ rest) in *
        by (rewrite <- !app_assoc; reflexivity).
      destruct (IH kept (junk ++ [cmd]) _ array i prepared' Hrun)
        as (Htake & Hlen & Hcount & Hnone).
      split; [exact Htake|]. split; [exact Hlen|]. split.
      * rewrite Hcount. unfold addPreparedResponse, prepared_responses.
        destruct prepared as [p|]; cbn [responses length];
          rewrite ?length_app; cbn [length]; lia.
      * rewrite Hnone. unfold addPreparedResponse.
        split; [intros [Habs _]; discriminate | intros [_ Habs]; discriminate].
    + assert (Hins : exists junk',
                <[length kept := cmd]> (kept ++ junk ++ cmd :: rest)
                = (kept ++ [cmd]) ++ junk' ++ rest /\
                length junk' = length junk).
      { rewrite insert_app_r_alt by lia.
        replace (length kept - length kept)%nat with 0%nat by lia.
        destruct junk as [|j junk].
        - exists []. simpl. rewrite <- app_assoc. split; reflexivity.
        - exists (junk ++ [cmd]). simpl. rewrite <- !app_assoc. simpl.
          split; [reflexivity|]. rewrite length_app. simpl. lia. }
      destruct Hins as (junk' & Hins & Hjunk).
      rewrite Hins in Hrun.
      replace (S (length kept)) with (length (kept ++ [cmd])) in Hrun
        by (rewrite length_app; simpl; lia).
      destruct (IH (kept ++ [cmd]) junk' _ array i prepared' Hrun)
        as (Htake & Hlen & Hcount & Hnone).
      split; [rewrite Htake, <- app_assoc; reflexivity|].
      split; [rewrite Hlen, !length_app; simpl; lia|].
      split; [exact Hcount | exact Hnone].
Qed.

(** X9: the first loop of [serveRequest] keeps, at the front of the array
    and in their order, exactly the commands that are not [PING]; it makes
    one prepared response for each [PING], and a wrapper only if there is a
    [PING]. *)
Theorem stripPrepared_keeps_other_commands (P : Parsers) (cmds : list Command) :
  let '(array, i, prepared) := stripPrepared cmds cmds 0 None in
  take i array = List.filter (fun cmd => negb (is_PING cmd)) cmds /\
  length array = length cmds /\
  length (prepared_responses prepared) = length (List.filter is_PING cmds) /\
  (prepared = None <-> List.filter is_PING cmds = []).
Proof.
  destruct (stripPrepared cmds cmds 0 None) as [[array i] prepared] eqn:Hrun.
  destruct (stripPrepared_from P cmds [] [] None array i prepared Hrun)
    as (Htake & Hlen & Hcount & Hnone).
  repeat split; try assumption.
  - apply Hnone.
  - intros Hno. apply Hnone. split; [reflexivity | exact Hno].
Qed.

(** ** Panics stay inside the handler *)
















(** ** Requests without and with [PING] *)

Lemma stripPrepared_without_PING (P : Parsers) (range : list Command) :
  forall (kept : list Command) (prepared : option preparedResponseWriter),
    List.filter is_PING range = [] ->
    stripPrepared range (kept ++ range) (length kept) prepared
    = (kept ++ range, (length kept + length range)%nat, prepared).
Proof.
  induction range as [|cmd rest IH]; intros kept prepared Hno.
  - simpl. rewrite Nat.add_0_r. reflexivity.
  - cbn [List.filter] in Hno. cbn [stripPrepared].
    assert (Hp : is_PING cmd = (Cmd cmd =? "PING")%string) by reflexivity.
    rewrite <- Hp. destruct (is_PING cmd); [discriminate|].
    rewrite insert_app_r_alt by lia.
    replace (length kept - length kept)%nat with 0%nat by lia.
    cbn [insert list_insert].
    replace (kept ++ cmd :: rest) with ((kept ++ [cmd]) ++ rest)
      by (rewrite <- app_assoc; reflexivity).
    replace (S (length kept)) with (length (kept ++ [cmd]))
      by (rewrite length_app; simpl; lia).
    rewrite IH by exact Hno.
    rewrite length_app. simpl. f_equal. f_equal. lia.
Qed.

(** X11: a request without [PING] whose handler writes nothing. The handler
    is given the commands as they came, on a new writer and a transport in
    working order [serveRequest] returns no error, and the one frame it
    sends is ["OK"]. *)
Theorem silent_handler_answers_OK
    (P : Parsers) (s : Server.t) (req : Request) (st : St) (t : Z) :
  List.filter is_PING (Cmds req) = [] ->
  Cmds req <> [] ->
  Server.Handler s req = [] ->
  res st = newResponseWriter t ->
  werr (c st) = None ->
  exists st',
    serveRequest s req st = (Ret (None, req, Cmds req), st') /\
    history st'
    = history st ++ Served (Cmds req) :: map Sent (wbuffer (c st) ++ [Value (Str "OK")]).
Proof.
  intros Hno Hne Hsilent Hres Hw.
  unfold serveRequest.
  pose proof (stripPrepared_without_PING P (Cmds req) [] None Hno) as Hstrip.
  simpl in Hstrip. rewrite Hstrip.
  rewrite firstn_all.
  destruct req as [addr cmds]. simpl in *.
  destruct st as [[cs wb we rd wd cl] r pr h inc sd]. simpl in *. subst r we.
  assert (Hlen : (Z.of_nat (length cmds) =? 0) = false).
  { apply Z.eqb_neq. destruct cmds; [congruence | simpl; lia]. }
  unfold bind at 1. unfold modify at 1.
  unfold bind at 1. unfold ret at 1.
  unfold bind at 1. simpl Cmds. rewrite Hlen. simpl negb.
  unfold serveRedis. rewrite Hsilent.
  unfold newResponseWriter. unfold_writer. unfold note, recover, modify. simpl.
  destruct (t =? 0); simpl; eexists; (split; [reflexivity|]);
    simpl; rewrite <- app_assoc; reflexivity.
Qed.

Lemma silent_handler_answers_OK_witness :
  exists st',
    serveRequest (P := decimalParsers) silent_server set_foo_bar (start [])
    = (Ret (None, set_foo_bar, Cmds set_foo_bar), st') /\
    history st' = [Served (Cmds set_foo_bar); Sent (Value (Str "OK"))].
Proof.
  apply (silent_handler_answers_OK decimalParsers silent_server set_foo_bar (start []) 0);
    first [reflexivity | discriminate].
Defined.

(** X12: a request that is one [PING]. The handler is not called; on a new
    writer and a transport in working order [serveRequest] returns no
    error and sends one value, the first argument of the [PING] when it has
    one and ["PONG"] otherwise. *)
Theorem single_PING_is_answered (P : Parsers) (s : Server.t) (addr : string)
    (a : byteArgs.t) (st : St) (t : Z) :
  res st = newResponseWriter t ->
  werr (c st) = None ->
  exists req' cmds st',
    serveRequest s {| Addr := addr; Cmds := [Read ("PING", a)] |} st
    = (Ret (None, req', cmds), st') /\
    Cmds req' = [] /\
    history st'
    = history st ++ map Sent (wbuffer (c st) ++ [Value (Str (PING_message a))]).
Proof.
  intros Hres Hw.
  destruct st as [[cs wb we rd wd cl] r pr h inc sd]. simpl in *. subst r we.
  destruct a as [[|m l] [e|]];
    unfold serveRequest, newResponseWriter; simpl;
    cbv [writeRemainingValues writeValues set_prepared addPreparedResponse
         Write Flush waitReadyWrite set_writer setWriteTimeout encode wbuffer_Flush
         bind ret get modify panic preparedResponseWriter_WriteStream];
    simpl;
    destruct (t =? 0); simpl;
    do 3 eexists; (split; [reflexivity|]); split; reflexivity.
Qed.

Lemma single_PING_is_answered_witness :
  exists req' cmds st',
    serveRequest (P := decimalParsers) ok_server
      {| Addr := ""; Cmds := [Read ("PING", {| byteArgs.args := ["hello"];
                                                byteArgs.err := None |})] |} (start [])
    = (Ret (None, req', cmds), st') /\
    Cmds req' = [] /\
    history st' = [Sent (Value (Str "hello"))].
Proof.
  apply (single_PING_is_answered decimalParsers ok_server ""
           {| byteArgs.args := ["hello"]; byteArgs.err := None |} (start []) 0);
    reflexivity.
Defined.

(** ** The wrapper on a base writer in stream mode *)

Lemma spliced_lengths (vs : list value) :
  forall (i : Z) (rs : list preparedResponse.t),
    (length (fst (spliced i rs vs)) + length (snd (spliced i rs vs))
     = length vs + length rs)%nat.
Proof.
  induction vs as [|v vs IH]; intros i rs; [reflexivity|].
  cbn [spliced]. destruct rs as [|r rs].
  - specialize (IH (i + 1) []). destruct (spliced (i + 1) [] vs). simpl in *. lia.
  - destruct (preparedResponse.index r =? i).
    + specialize (IH (i + 1) rs). destruct (spliced (i + 1) rs vs). simpl in *. lia.
    + specialize (IH (i + 1) (r :: rs)). destruct (spliced (i + 1) (r :: rs) vs).
      simpl in *. lia.
Qed.

Lemma interleaved_interleaved (fs1 fs2 : list frame) (n1 n2 i1 i2 : Z)
    (rs1 rs2 : list preparedResponse.t) (st : St) :
  interleaved fs2 n2 i2 rs2 (interleaved fs1 n1 i1 rs1 st)
  = interleaved (fs1 ++ fs2) n2 i2 rs2 st.
Proof.
  destruct st as [[cs wb we rd wd cl] [cn ty rm tm] pr h inc sd].
  unfold interleaved, streamed, set_preparedRes, set_res, set_c, with_wbuffer. simpl.
  rewrite <- app_assoc. reflexivity.
Qed.

Lemma interleaved_same (st : St) (i : Z) (rs : list preparedResponse.t) :
  wtype (res st) = stream ->
  preparedRes st = Some {| index := i; responses := rs |} ->
  interleaved [] (remain (res st)) i rs st = st.
Proof.
  destruct st as [[cs wb we rd wd cl] [cn ty rm tm] pr h inc sd]. simpl.
  intros -> ->.
  unfold interleaved, streamed, set_preparedRes, set_res, set_c, with_wbuffer. simpl.
  rewrite app_nil_r. reflexivity.
Qed.

(** One [Write] through the wrapper. *)
Lemma preparedResponseWriter_Write_in_stream
    (v : value) (st : St) (i : Z) (rs : list preparedResponse.t) :
  conn (res st) <> None ->
  wtype (res st) = stream ->
  werr (c st) = None ->
  preparedRes st = Some {| index := i; responses := rs |} ->
  Z.of_nat (length (fst (spliced i rs [v]))) <= remain (res st) < 2 ^ 63 ->
  0 <= i < 2 ^ 63 - 1 ->
  preparedResponseWriter_Write v st
  = (Ret None,
     interleaved (map Value (fst (spliced i rs [v])))
       (remain (res st) - Z.of_nat (length (fst (spliced i rs [v]))))
       (i + 1) (snd (spliced i rs [v])) st).
Proof.
  destruct st as [[cs wb we rd wd cl] [cn ty rm tm] pr h inc sd]. simpl.
  intros Hcn -> -> -> Hrm Hi. destruct cn as [r|]; [|congruence].
  unfold preparedResponseWriter_Write.
  unfold bind at 1. unfold get at 1. cbn [preparedRes responses index].
  destruct rs as [|r0 rs].
  - simpl in Hrm. unfold bind at 1. unfold ret at 1.
    unfold bind at 1. unfold get at 1. cbn [preparedRes].
    unfold bind at 1. unfold set_prepared, modify. cbn [index responses].
    rewrite int64_wrap_small by lia.
    rewrite Write_in_stream by (simpl; (discriminate || reflexivity || lia)).
    simpl. unfold interleaved, streamed. simpl. reflexivity.
  - cbn [spliced] in *.
    destruct (preparedResponse.index r0 =? i); simpl in Hrm.
    + unfold bind at 1. unfold bind at 1.
      rewrite Write_in_stream by (simpl; (discriminate || reflexivity || lia)).
      unfold bind at 1. unfold set_prepared, modify. unfold ret at 1.
      unfold bind at 1. unfold get at 1. cbn [preparedRes set_preparedRes].
      unfold bind at 1. cbn [index responses].
      rewrite int64_wrap_small by lia.
      rewrite Write_in_stream by (simpl; (discriminate || reflexivity || lia)).
      simpl. unfold interleaved, streamed. simpl.
      rewrite <- app_assoc. simpl.
      replace (rm - 1 - 1) with (rm - 2) by lia. reflexivity.
    + unfold bind at 1. unfold ret at 1.
      unfold bind at 1. unfold get at 1. cbn [preparedRes].
      unfold bind at 1. unfold set_prepared, modify. cbn [index responses].
      rewrite int64_wrap_small by lia.
      rewrite Write_in_stream by (simpl; (discriminate || reflexivity || lia)).
      simpl. unfold interleaved, streamed. simpl. reflexivity.
Qed.

Lemma spliced_cons (v : value) (vs : list value) (i : Z) (rs : list preparedResponse.t) :
  fst (spliced i rs (v :: vs))
  = fst (spliced i rs [v]) ++ fst (spliced (i + 1) (snd (spliced i rs [v])) vs) /\
  snd (spliced i rs (v :: vs)) = snd (spliced (i + 1) (snd (spliced i rs [v])) vs).
Proof.
  cbn [spliced]. destruct rs as [|r rs].
  - cbn [fst snd]. destruct (spliced (i + 1) [] vs). split; reflexivity.
  - destruct (preparedResponse.index r =? i); cbn [fst snd].
    + destruct (spliced (i + 1) rs vs). split; reflexivity.
    + destruct (spliced (i + 1) (r :: rs) vs). split; reflexivity.
Qed.

Lemma streamed_same (st : St) :
  wtype (res st) = stream -> streamed [] (remain (res st)) st = st.
Proof.
  destruct st as [[cs wb we rd wd cl] [cn ty rm tm] pr h inc sd]. simpl. intros ->.
  unfold streamed, set_res, set_c, with_wbuffer. simpl. rewrite app_nil_r. reflexivity.
Qed.

Lemma writeValues_in_stream (l : list preparedResponse.t) :
  forall st : St,
    conn (res st) <> None ->
    wtype (res st) = stream ->
    remain (res st) = Z.of_nat (length l) ->
    remain (res st) < 2 ^ 63 ->
    werr (c st) = None ->
    writeValues l st
    = (Ret None, streamed (map Value (map preparedResponse.value l)) 0 st).
Proof.
  induction l as [|r l IH]; intros st Hcn Hty Hrm Hfit Hw.
  - simpl in Hrm. simpl. unfold ret. rewrite <- Hrm at 1.
    rewrite streamed_same by exact Hty. reflexivity.
  - change (length (r :: l)) with (S (length l)) in Hrm.
    rewrite Nat2Z.inj_succ in Hrm.
    cbn [writeValues]. unfold bind at 1.
    rewrite Write_in_stream by (assumption || lia).
    replace (remain (res st) - 1) with (Z.of_nat (length l)) by lia.
    rewrite IH.
    + rewrite streamed_streamed. reflexivity.
    + destruct st as [[cs wb we rd wd cl] [cn ty rm tm] pr h inc sd]. exact Hcn.
    + destruct st as [[cs wb we rd wd cl] [cn ty rm tm] pr h inc sd]. reflexivity.
    + destruct st as [[cs wb we rd wd cl] [cn ty rm tm] pr h inc sd]. reflexivity.
    + destruct st as [[cs wb we rd wd cl] [cn ty rm tm] pr h inc sd]. simpl. lia.
    + destruct st as [[cs wb we rd wd cl] [cn ty rm tm] pr h inc sd]. exact Hw.
Qed.

Lemma ServeRedis_writes_in_stream (vs : list value) :
  forall (st : St) (i : Z) (rs : list preparedResponse.t),
    conn (res st) <> None ->
    wtype (res st) = stream ->
    werr (c st) = None ->
    preparedRes st = Some {| index := i; responses := rs |} ->
    Z.of_nat (length (fst (spliced i rs vs))) <= remain (res st) < 2 ^ 63 ->
    0 <= i ->
    i + Z.of_nat (length vs) < 2 ^ 63 ->
    ServeRedis the_preparedResponseWriter (map CallWrite vs) st
    = (Ret tt,
       interleaved (map Value (fst (spliced i rs vs)))
         (remain (res st) - Z.of_nat (length (fst (spliced i rs vs))))
         (i + Z.of_nat (length vs)) (snd (spliced i rs vs)) st).
Proof.
  induction vs as [|v vs IH]; intros st i rs Hcn Hty Hw Hpr Hrm Hi Hfit.
  - simpl. unfold ret. rewrite Z.sub_0_r, Z.add_0_r.
    rewrite interleaved_same by assumption. reflexivity.
  - destruct (spliced_cons v vs i rs) as [Hfst Hsnd].
    change (length (v :: vs)) with (S (length vs)) in *.
    rewrite Nat2Z.inj_succ in *.
    rewrite Hfst, length_app, Nat2Z.inj_add in Hrm.
    cbn [map ServeRedis perform].
    unfold bind at 1. unfold bind at 1.
    rewrite (preparedResponseWriter_Write_in_stream v st i rs) by (assumption || lia).
    unfold ret at 1.
    rewrite (IH _ (i + 1) (snd (spliced i rs [v]))).
    + rewrite interleaved_interleaved, Hfst, Hsnd.
      rewrite map_app, length_app, Nat2Z.inj_add.
      f_equal. f_equal; [|lia].
      destruct st as [[cs wb we rd wd cl] [cn ty rm tm] pr h inc sd]. simpl. lia.
    + destruct st as [[cs wb we rd wd cl] [cn ty rm tm] pr h inc sd]. exact Hcn.
    + destruct st as [[cs wb we rd wd cl] [cn ty rm tm] pr h inc sd]. reflexivity.
    + destruct st as [[cs wb we rd wd cl] [cn ty rm tm] pr h inc sd]. exact Hw.
    + destruct st as [[cs wb we rd wd cl] [cn ty rm tm] pr h inc sd]. reflexivity.
    + destruct st as [[cs wb we rd wd cl] [cn ty rm tm] pr h inc sd]. simpl in *. lia.
    + lia.
    + lia.
Qed.

(** X13: the wrapper on a base writer in stream mode that has as many
    writes left as there are values and prepared responses. The handler's
    writes through the wrapper and then [writeRemainingValues] all succeed,
    use up the writes exactly and encode, in this order, the values of
    [splice]: those of the handler in the order written, each preceded by
    the prepared response due at its index if it is the next one, and the
    responses left over at the end. None is dropped. *)
Theorem wrapper_splices_in_stream
    (st : St) (i : Z) (rs : list preparedResponse.t) (vs : list value) :
  conn (res st) <> None ->
  wtype (res st) = stream ->
  werr (c st) = None ->
  preparedRes st = Some {| index := i; responses := rs |} ->
  remain (res st) = Z.of_nat (length vs + length rs) ->
  remain (res st) < 2 ^ 63 ->
  0 <= i ->
  i + Z.of_nat (length vs) < 2 ^ 63 ->
  exists st',
    (ServeRedis the_preparedResponseWriter (map CallWrite vs) ;;; writeRemainingValues) st
    = (Ret None, st') /\
    wbuffer (c st') = wbuffer (c st) ++ map Value (splice i rs vs) /\
    remain (res st') = 0 /\
    prepared_responses (preparedRes st') = [] /\
    history st' = history st /\
    length (splice i rs vs) = (length vs + length rs)%nat.
Proof.
  intros Hcn Hty Hw Hpr Hrm Hfit Hi Hidx.
  pose proof (spliced_lengths vs i rs) as Hlen.
  unfold bind at 1.
  rewrite (ServeRedis_writes_in_stream vs st i rs) by (assumption || lia).
  unfold writeRemainingValues. unfold bind at 1. unfold get at 1.
  unfold interleaved at 1. cbn [preparedRes set_preparedRes responses].
  unfold bind at 1.
  rewrite writeValues_in_stream.
  - unfold bind at 1. unfold get at 1.
    cbn [preparedRes streamed set_res set_c set_preparedRes interleaved].
    unfold bind, set_prepared, modify, ret. eexists. split; [reflexivity|].
    destruct st as [[cs wb we rd wd cl] [cn ty rm tm] pr h inc sd].
    unfold splice. simpl. rewrite <- app_assoc, map_app, length_app, length_map.
    repeat split; try reflexivity. exact Hlen.
  - destruct st as [[cs wb we rd wd cl] [cn ty rm tm] pr h inc sd]. exact Hcn.
  - destruct st as [[cs wb we rd wd cl] [cn ty rm tm] pr h inc sd]. reflexivity.
  - destruct st as [[cs wb we rd wd cl] [cn ty rm tm] pr h inc sd]. simpl in *. lia.
  - destruct st as [[cs wb we rd wd cl] [cn ty rm tm] pr h inc sd]. simpl in *. lia.
  - destruct st as [[cs wb we rd wd cl] [cn ty rm tm] pr h inc sd]. exact Hw.
Qed.

Lemma wrapper_splices_in_stream_witness :
  exists st',
    (ServeRedis the_preparedResponseWriter (map CallWrite [Str "a"; Str "b"]) ;;;
     writeRemainingValues) opened_for_three
    = (Ret None, st') /\
    wbuffer (c st')
    = wbuffer (c opened_for_three)
      ++ map Value (splice 0 [{| preparedResponse.index := 1;
                                 preparedResponse.value := Str "PONG" |}]
                      [Str "a"; Str "b"]) /\
    remain (res st') = 0 /\
    prepared_responses (preparedRes st') = [] /\
    history st' = history opened_for_three /\
    length (splice 0 [{| preparedResponse.index := 1;
                         preparedResponse.value := Str "PONG" |}] [Str "a"; Str "b"])
    = (2 + 1)%nat.
Proof.
  apply (wrapper_splices_in_stream opened_for_three 0
           [{| preparedResponse.index := 1; preparedResponse.value := Str "PONG" |}]
           [Str "a"; Str "b"]);
    vm_compute; first [reflexivity | discriminate].
Defined.

(** ** multiArgs *)

Lemma drop_at {A : Type} (l : list A) (n : nat) (a : A) :
  l !! n = Some a -> drop n l = a :: drop (S n) l.
Proof.
  revert n. induction l as [|x l IH]; intros [|n] H; simpl in *; try discriminate.
  - injection H as ->. rewrite drop_0. reflexivity.
  - apply IH. exact H.
Qed.

Lemma drop_insert_at {A : Type} (l : list A) (n : nat) (a : A) :
  (n < length l)%nat -> drop n (<[n := a]> l) = a :: drop (S n) l.
Proof.
  revert n. induction l as [|x l IH]; intros [|n] H; simpl in *; try lia.
  - rewrite drop_0. reflexivity.
  - apply IH. lia.
Qed.

Lemma Forall_insert_at {A : Type} (Q : A -> Prop) (l : list A) (n : nat) (a : A) :
  Forall Q l -> Q a -> Forall Q (<[n := a]> l).
Proof.
  intros Hl Ha. revert n. induction Hl as [|x l Hx Hl IH]; intros [|n]; simpl;
    constructor; auto.
Qed.

(** One pass of the loop of [multiArgs.Next] and those that follow, for a
    string destination. *)
Lemma Next_loop_string (P : Parsers) (fuel : nat) :
  forall m : multiArgs.t (A := byteArgs.t),
    error_free m ->
    (multiArgs.argn m < length (multiArgs.args m))%nat ->
    (length (multiArgs.args m) - multiArgs.argn m <= fuel)%nat ->
    let '(ok, out, m') := multiArgs.Next_loop fuel KString m in
    error_free m' /\
    match pending_values m with
    | [] => ok = false /\ out = None /\ pending_values m' = []
    | x :: xs => ok = true /\ out = Some (SString x) /\ pending_values m' = xs
    end.
Proof.
  induction fuel as [|fuel IH]; intros m [Herr Hall] Hlt Hfuel; [lia|].
  destruct m as [l n e]. simpl in *. subst e.
  destruct (lookup_lt_is_Some_2 l n Hlt) as [a Ha].
  cbn [multiArgs.Next_loop multiArgs.args multiArgs.argn multiArgs.err].
  rewrite Ha.
  assert (Haerr : byteArgs.err a = None).
  { apply (proj1 (Forall_forall _ _) Hall).
    rewrite list_elem_of_lookup. exists n. exact Ha. }
  unfold pending_values at 1.
  cbn [multiArgs.args multiArgs.argn]. rewrite (drop_at l n a Ha).
  destruct a as [[|x xs] ae]; simpl in Haerr; subst ae.
  - (* the current list is empty: it is closed and the next one is tried *)
    simpl.
    rewrite !(list_insert_id l n _ Ha).
    destruct (Nat.leb_spec (length l) (S n)) as [Hend|Hmore].
    + split; [split; [reflexivity | exact Hall]|].
      unfold pending_values. cbn [multiArgs.args multiArgs.argn].
      rewrite drop_ge by lia. simpl. repeat split; reflexivity.
    + specialize (IH {| multiArgs.args := l; multiArgs.argn := S n;
                        multiArgs.err := None |}).
      cbn [multiArgs.args multiArgs.argn multiArgs.err] in IH.
      specialize (IH (conj eq_refl Hall) Hmore ltac:(lia)).
      unfold pending_values at 1 in IH. cbn [multiArgs.args multiArgs.argn] in IH.
      exact IH.
  - (* the current list gives its first argument *)
    simpl.
    split.
    + split; [reflexivity|]. cbn [multiArgs.args].
      apply Forall_insert_at; [exact Hall | reflexivity].
    + unfold pending_values. cbn [multiArgs.args multiArgs.argn].
      rewrite drop_insert_at by exact Hlt. simpl. repeat split; reflexivity.
Qed.

Lemma multiArgs_Next_string (P : Parsers) (m : multiArgs.t (A := byteArgs.t)) :
  error_free m ->
  let '(ok, out, m') := Args.Next KString m in
  error_free m' /\
  match pending_values m with
  | [] => ok = false /\ out = None /\ pending_values m' = []
  | x :: xs => ok = true /\ out = Some (SString x) /\ pending_values m' = xs
  end.
Proof.
  intros Hfree. cbn [Args.Next multiArgs.multiArgs_Args]. unfold multiArgs.Next.
  destruct Hfree as [Herr Hall]. rewrite Herr. cbn [isSome]. rewrite orb_false_r.
  destruct (Nat.leb_spec (length (multiArgs.args m)) (multiArgs.argn m)) as [Hend|Hlt].
  - split; [split; assumption|].
    unfold pending_values. rewrite drop_ge by lia. simpl. repeat split; reflexivity.
  - apply (Next_loop_string P); [split; assumption | exact Hlt | lia].
Qed.

Lemma readInto_multiArgs_strings (P : Parsers) (n : nat) :
  forall m : multiArgs.t (A := byteArgs.t),
    error_free m ->
    error_free (fst (readInto m (repeat KString n))) /\
    snd (readInto m (repeat KString n)) = map SString (take n (pending_values m)).
Proof.
  induction n as [|n IH]; intros m Hfree.
  - simpl. split; [exact Hfree | reflexivity].
  - cbn [repeat readInto].
    pose proof (multiArgs_Next_string P m Hfree) as Hnext.
    destruct (Args.Next KString m) as [[ok out] m'].
    destruct Hnext as [Hfree' Hcase].
    destruct (pending_values m) as [|x xs] eqn:Hpend.
    + destruct Hcase as (-> & -> & _). simpl. split; [exact Hfree' | reflexivity].
    + destruct Hcase as (-> & -> & Hxs).
      destruct (IH m' Hfree') as [Hfree'' Hout].
      destruct (readInto m' (repeat KString n)) as [m'' outs].
      simpl in *. rewrite Hout, Hxs. split; [exact Hfree'' | reflexivity].
Qed.

Lemma closeAll_first_error (P : Parsers) (l : list byteArgs.t) :
  forall e : option error,
    fst (multiArgs.closeAll l e)
    = (if isSome e then e else first_error (map byteArgs.err l)) /\
    snd (multiArgs.closeAll l e)
    = map (fun a => {| byteArgs.args := []; byteArgs.err := byteArgs.err a |}) l.
Proof.
  induction l as [|a l IH]; intros e.
  - simpl. destruct e; split; reflexivity.
  - cbn [multiArgs.closeAll Args.Close byteArgs.byteArgs_Args byteArgs.Close].
    specialize (IH (if isSome (byteArgs.err a) && negb (isSome e)
                    then byteArgs.err a else e)).
    destruct (multiArgs.closeAll l _) as [e'' rest']. simpl in IH. simpl.
    destruct IH as [-> ->].
    destruct (byteArgs.err a) as [ea|], e as [e0|]; simpl; split; reflexivity.
Qed.

(** X14: [MultiArgs] over byte arguments without error gives the arguments
    of its lists one after the other. Reading [n] strings with [ParseArgs]
    stores the first [n] of the concatenation, all of it when there is less,
    and returns no error. *)
Theorem MultiArgs_reads_in_sequence (P : Parsers) (l : list byteArgs.t) (n : nat) :
  Forall (fun a => byteArgs.err a = None) l ->
  exists m',
    ParseArgs (Some (multiArgs.MultiArgs l)) (repeat KString n)
    = (Ret None, Some m', map SString (take n (concat (map byteArgs.args l)))).
Proof.
  intros Hall.
  assert (Hfree : error_free (multiArgs.MultiArgs l)) by (split; [reflexivity | exact Hall]).
  destruct (readInto_multiArgs_strings P n _ Hfree) as [[Herr Hall'] Hout].
  unfold ParseArgs. cbn [isSome negb andb].
  destruct (readInto (multiArgs.MultiArgs l) (repeat KString n)) as [m1 outs].
  simpl in Herr, Hall', Hout.
  cbn [Args.Close multiArgs.multiArgs_Args]. unfold multiArgs.Close.
  destruct (closeAll_first_error P (multiArgs.args m1) None) as [Hfst Hsnd].
  destruct (multiArgs.closeAll (multiArgs.args m1) None) as [e l'].
  simpl in Hfst, Hsnd. rewrite Herr. cbn [isSome].
  assert (He : e = None).
  { rewrite Hfst. clear - Hall'. induction Hall' as [|a l Ha Hl IH]; [reflexivity|].
    simpl. rewrite Ha. exact IH. }
  subst e. rewrite He. eexists. rewrite Hout. unfold pending_values. simpl.
  rewrite drop_0. reflexivity.
Qed.

Lemma MultiArgs_reads_in_sequence_witness :
  exists m',
    ParseArgs (HA := multiArgs.multiArgs_Args (HA := byteArgs.byteArgs_Args (P := decimalParsers)))
      (Some (multiArgs.MultiArgs [two_args; {| byteArgs.args := []; byteArgs.err := None |};
                                  {| byteArgs.args := ["y"]; byteArgs.err := None |}]))
      (repeat KString 5)
    = (Ret None, Some m', map SString ["x"; "1"; "y"]).
Proof.
  apply (MultiArgs_reads_in_sequence decimalParsers
           [two_args; {| byteArgs.args := []; byteArgs.err := None |};
            {| byteArgs.args := ["y"]; byteArgs.err := None |}] 5).
  repeat constructor.
Defined.


(** ** The connection loop *)

(** X16: a queued transaction that does not end with [DISCARD]. On a
    transport in working order the server has sent one ["QUEUED"] per
    command read, the opening one and the last one included, and the
    commands it goes on to serve are those between the first and the last:
    the last command read is dropped whatever it is. *)
Theorem committed_transaction_is_trimmed
    (multi last : string * byteArgs.t) (body : list (string * byteArgs.t)) (st : St) :
  werr (c st) = None ->
  fst last <> "DISCARD" ->
  (cmds <- queue (body ++ [last]) [Read multi] ;; endTransaction cmds) st
  = (Ret (inr (map Read body)),
     flushed (repeat (Value (Str "QUEUED")) (S (S (length body)))) st).
Proof.
  intros Hw Hlast. unfold bind.
  rewrite queue_sent; [|discriminate|exact Hw].
  rewrite length_app. change (length [last]) with 1%nat.
  replace (S (length body + 1)) with (S (S (length body))) by lia.
  unfold endTransaction.
  rewrite map_app. cbn [map app].
  rewrite length_cons, length_app, length_map. change (length [Read last]) with 1%nat.
  replace (Z.of_nat (S (length body + 1)) - 1) with (Z.of_nat (S (length body))) by lia.
  destruct (Z.ltb_spec (Z.of_nat (S (length body))) 0) as [Hneg|_]; [lia|].
  rewrite Nat2Z.id.
  assert (Hlook : (Read multi :: map Read body ++ [Read last]) !! S (length body)
                  = Some (Read last)).
  { change ((map Read body ++ [Read last]) !! length body = Some (Read last)).
    rewrite lookup_app_r by (rewrite length_map; lia).
    rewrite length_map. replace (length body - length body)%nat with 0%nat by lia.
    reflexivity. }
  rewrite Hlook. cbn [Read Cmd].
  apply String.eqb_neq in Hlast. rewrite Hlast.
  destruct (Z.ltb_spec (Z.of_nat (S (length body))) 1) as [Hone|_]; [lia|].
  cbn [take drop].
  rewrite take_app_length' by (rewrite length_map; reflexivity).
  reflexivity.
Qed.

Lemma committed_transaction_is_trimmed_witness :
  (cmds <- queue [wire_command "SET" ["a"; "1"]; wire_command "EXEC" []]
             [Read (wire_command "MULTI" [])] ;;
   endTransaction cmds) (start [])
  = (Ret (inr [Read (wire_command "SET" ["a"; "1"])]),
     flushed (repeat (Value (Str "QUEUED")) 3) (start [])).
Proof.
  apply (committed_transaction_is_trimmed (wire_command "MULTI" [])
           (wire_command "EXEC" []) [wire_command "SET" ["a"; "1"]] (start []));
    [reflexivity | discriminate].
Defined.

(** X17: a transaction of which only [MULTI] arrives. When the cursor
    delivers [MULTI] and then nothing, the pass of the connection loop
    panics on [cmds[1:lastIndex]] with [lastIndex = 0]. *)
Theorem MULTI_alone_panics
    (P : Parsers) (s : Server.t) (config : serverConfig)
    (addr : string) (depth : nat) (st : St)
    (rd : CommandReader) (later : list CommandReader) (multi : string * byteArgs.t) :
  shutdown st = false ->
  incoming st = rd :: later ->
  pending rd = [multi] ->
  fst multi = "MULTI" ->
  fst (servePass s config addr depth st) = Panic slice_bounds_out_of_range.
Proof.
  intros Hsd Hinc Hpend Hmulti.
  destruct st as [[cs wb we rdl wdl cl] r pr h inc sd].
  destruct multi as [name a]. simpl in *. subst sd inc name.
  unfold servePass. unfold bind at 1. unfold get. simpl.
  unfold bind at 1. simpl. unfold bind at 1. simpl. unfold bind at 1. simpl.
  rewrite Hpend. simpl.
  unfold endTransaction.
  destruct we; reflexivity.
Qed.

Lemma MULTI_alone_panics_witness :
  fst (servePass (P := decimalParsers) ok_server no_timeouts "" 1 (start [multi_alone]))
  = Panic slice_bounds_out_of_range.
Proof.
  apply (MULTI_alone_panics decimalParsers ok_server no_timeouts "" 1
           (start [multi_alone]) multi_alone [] (wire_command "MULTI" []));
    reflexivity.
Defined.

(** X18: [ErrNotPipeline] is not an error. With the pipeline on, when no
    command has a follow-up ([pipeCommand] returns [ErrNotPipeline]),
    [serveCommands] does and returns what it does with the pipeline off. *)
Theorem ErrNotPipeline_is_not_an_error
    (P : Parsers) (s : Server.t) (config : serverConfig)
    (fuel : nat) (addr : string) (cmds : list Command) (st : St) :
  (forall cmd, snd (Server.pipeCommand s cmd) = Some ErrNotPipeline) ->
  serveCommands s config (S fuel) addr cmds st
  = serveCommands (without_pipeline s) config (S fuel) addr cmds st.
Proof.
  intros Hnot.
  cbn [serveCommands]. unfold bind, modify.
  change (serveRequest (without_pipeline s)) with (serveRequest s).
  destruct (serveRequest s _ _) as [[[[err req] array]|v] st1]; [|reflexivity].
  destruct (Request_Close (Cmds req) None st1) as [[reqErr|v] st2]; [|reflexivity].
  cbn [without_pipeline Server.EnablePipeline andb].
  destruct (Server.EnablePipeline s); [|reflexivity].
  destruct err as [e|]; [reflexivity|].
  destruct reqErr as [e|]; [reflexivity|].
  cbn [isSome negb andb].
  destruct array as [|cmd array].
  - reflexivity.
  - cbn [pipeCommands]. specialize (Hnot cmd).
    destruct (Server.pipeCommand s cmd) as [pipeCmd pipeErr]. simpl in Hnot. subst pipeErr.
    reflexivity.
Qed.

Lemma ErrNotPipeline_is_not_an_error_witness :
  serveCommands (P := decimalParsers) ok_server_with_pipeline no_timeouts 1 ""
    (Cmds set_foo_bar) (start [])
  = serveCommands (P := decimalParsers) (without_pipeline ok_server_with_pipeline)
      no_timeouts 1 "" (Cmds set_foo_bar) (start []).
Proof.
  apply (ErrNotPipeline_is_not_an_error decimalParsers ok_server_with_pipeline
           no_timeouts 0 "" (Cmds set_foo_bar) (start [])).
  intros cmd. reflexivity.
Defined.

(** X19: a connection whose server is shutting down, or whose client sends
    nothing more, is closed without a read or a write: [serveConnection]
    returns at once, and all it changes is that the connection is closed
    and in [StateClosed]. *)
Theorem serveConnection_stops_and_closes
    (P : Parsers) (s : Server.t) (config : serverConfig)
    (fuel : nat) (addr : string) (depth : nat) (st : St) :
  shutdown st = true \/ incoming st = [] ->
  serveConnection s config (S fuel) addr depth st
  = (Ret (Done tt),
     set_c (with_state StateClosed (with_closed true (c st))) st).
Proof.
  intros Hstop.
  destruct st as [[cs wb we rdl wdl cl] r pr h inc sd]. simpl in Hstop.
  destruct Hstop as [-> | ->]; [|destruct sd]; reflexivity.
Qed.

Lemma serveConnection_stops_and_closes_witness :
  serveConnection (P := decimalParsers) ok_server no_timeouts 1 "" 1 (start [])
  = (Ret (Done tt),
     set_c (with_state StateClosed (with_closed true (c (start [])))) (start [])).
Proof.
  apply (serveConnection_stops_and_closes decimalParsers ok_server no_timeouts
           0 "" 1 (start [])).
  right. reflexivity.
Defined.

(** ** The helpers of the hash-ring test *)

Lemma map_fold_selects (test : string -> string -> bool)
    (init : gset string) (m : gmap string string) (k : string) :
  k ∈ map_fold (fun key a diff => if test key a then {[key]} ∪ diff else diff) init m
  <-> k ∈ init \/ exists a, m !! k = Some a /\ test k a = true.
Proof.
  apply (map_fold_weak_ind
           (fun (r : gset string) (m : gmap string string) =>
              k ∈ r <-> k ∈ init \/ exists a, m !! k = Some a /\ test k a = true)).
  - split; [auto|]. intros [H|[a [H _]]]; [exact H|].
    rewrite lookup_empty in H. discriminate.
  - intros i x m' r Hnone IH.
    destruct (test i x) eqn:Ht.
    + rewrite elem_of_union, elem_of_singleton, IH. split.
      * intros [->|[H|[a [Hl Ha]]]].
        -- right. exists x. rewrite lookup_insert_eq. auto.
        -- auto.
        -- right. exists a. split; [|exact Ha].
           rewrite lookup_insert_ne; [exact Hl|]. intros ->. congruence.
      * intros [H|[a [Hl Ha]]]; [auto|].
        destruct (decide (i = k)) as [->|Hne]; [auto|].
        rewrite lookup_insert_ne in Hl by exact Hne. right. right. eauto.
    + rewrite IH. split.
      * intros [H|[a [Hl Ha]]]; [auto|].
        right. exists a. split; [|exact Ha].
        rewrite lookup_insert_ne; [exact Hl|]. intros ->. congruence.
      * intros [H|[a [Hl Ha]]]; [auto|].
        destruct (decide (i = k)) as [->|Hne].
        -- rewrite lookup_insert_eq in Hl. congruence.
        -- rewrite lookup_insert_ne in Hl by exact Hne. eauto.
Qed.

Lemma difference_elem (dist1 dist2 : gmap string string) (k : string) :
  k ∈ RingTest.difference dist1 dist2
  <-> RingTest.index dist1 k <> RingTest.index dist2 k.
Proof.
  unfold RingTest.difference.
  rewrite (map_fold_selects
             (fun key2 addr2 => negb (RingTest.index dist1 key2 =? addr2)%string)).
  rewrite (map_fold_selects
             (fun key1 addr1 => negb (addr1 =? RingTest.index dist2 key1)%string)).
  unfold RingTest.index. split.
  - intros [[H|[a [Hl Ha]]]|[a [Hl Ha]]].
    + apply elem_of_empty in H. destruct H.
    + rewrite Hl. simpl. apply negb_true_iff, String.eqb_neq in Ha. exact Ha.
    + rewrite Hl. simpl. apply negb_true_iff, String.eqb_neq in Ha. exact Ha.
  - intros Hne. destruct (dist1 !! k) as [a1|] eqn:H1.
    + left. right. exists a1. split; [reflexivity|].
      apply negb_true_iff, String.eqb_neq. exact Hne.
    + destruct (dist2 !! k) as [a2|] eqn:H2.
      * right. exists a2. split; [reflexivity|].
        apply negb_true_iff, String.eqb_neq. exact Hne.
      * destruct Hne. reflexivity.
Qed.

Lemma distribute_lookup {R : Type} {HR : RingTest.ServerRing R}
    (ring : R) (keys : list string) (k : string) :
  RingTest.distribute ring keys !! k
  = if decide (k ∈ keys)
    then Some (RingTest.Addr (RingTest.LookupServer ring k)) else None.
Proof.
  unfold RingTest.distribute.
  induction keys as [|x keys IH] using rev_ind.
  - simpl. rewrite lookup_empty. destruct (decide (k ∈ [])) as [H|_]; [|reflexivity].
    apply elem_of_nil in H. destruct H.
  - rewrite foldl_snoc.
    destruct (decide (x = k)) as [->|Hne].
    + rewrite lookup_insert_eq.
      destruct (decide (k ∈ keys ++ [k])) as [_|H]; [reflexivity|].
      destruct H. apply elem_of_app. right. apply list_elem_of_singleton. reflexivity.
    + rewrite lookup_insert_ne by exact Hne. rewrite IH.
      destruct (decide (k ∈ keys)) as [Hin|Hin];
        destruct (decide (k ∈ keys ++ [x])) as [Hin'|Hin']; try reflexivity.
      * destruct Hin'. apply elem_of_app. left. exact Hin.
      * apply elem_of_app in Hin'. destruct Hin' as [H|H]; [contradiction|].
        apply list_elem_of_singleton in H. congruence.
Qed.

Lemma size_list_to_set_le (l : list string) :
  (size (list_to_set l : gset string) <= length l)%nat.
Proof.
  induction l as [|x l IH].
  - reflexivity.
  - change (list_to_set (x :: l) : gset string) with ({[x]} ∪ list_to_set l : gset string).
    rewrite size_union_alt, size_singleton.
    assert (size ((list_to_set l : gset string) ∖ {[x]}) <= size (list_to_set l : gset string))%nat.
    { apply subseteq_size. intros y Hy. apply elem_of_difference in Hy. tauto. }
    simpl length. lia.
Qed.

(** X20: what [difference] reports. A key is in the result exactly when
    the two maps, read as Go reads them (a missing key gives the empty
    string), give it different addresses; so the result does not depend on
    the order of the two maps, a map differs from itself nowhere, and a map
    where a key is bound to the empty string does not differ from the map
    without that key. *)
Theorem difference_reports_disagreements
    (dist1 dist2 : gmap string string) (key : string) :
  (forall k, k ∈ RingTest.difference dist1 dist2
             <-> RingTest.index dist1 k <> RingTest.index dist2 k)
  /\ RingTest.difference dist1 dist2 = RingTest.difference dist2 dist1
  /\ RingTest.difference dist1 dist1 = ∅
  /\ RingTest.difference (<[key := ""]> dist1) (delete key dist1) = ∅.
Proof.
  split; [intros k; apply difference_elem|].
  split; [|split].
  - apply set_eq. intros k. rewrite !difference_elem. split; intros H E; apply H; auto.
  - apply set_eq. intros k. rewrite difference_elem. split.
    + intros H. destruct H. reflexivity.
    + intros H. apply elem_of_empty in H. destruct H.
  - apply set_eq. intros k. rewrite difference_elem. unfold RingTest.index. split.
    + intros H. destruct H. destruct (decide (key = k)) as [->|Hne].
      * rewrite lookup_insert_eq, lookup_delete_eq. reflexivity.
      * rewrite lookup_insert_ne, lookup_delete_ne by exact Hne. reflexivity.
    + intros H. apply elem_of_empty in H. destruct H.
Qed.

(** X21: the two helpers together, as the test uses them. The keys reported
    for two rings are the keys of the list that the rings send to servers of
    different addresses, and there are at most as many as keys in the
    list. *)
Theorem distribute_then_difference {R1 R2 : Type}
    {H1 : RingTest.ServerRing R1} {H2 : RingTest.ServerRing R2}
    (ringA : R1) (ringB : R2) (keys : list string) :
  let diff := RingTest.difference (RingTest.distribute ringA keys)
                                  (RingTest.distribute ringB keys) in
  (forall k, k ∈ diff
             <-> k ∈ keys
                 /\ RingTest.Addr (RingTest.LookupServer ringA k)
                    <> RingTest.Addr (RingTest.LookupServer ringB k))
  /\ (size diff <= length keys)%nat.
Proof.
  intros diff.
  assert (Helem : forall k, k ∈ diff
             <-> k ∈ keys
                 /\ RingTest.Addr (RingTest.LookupServer ringA k)
                    <> RingTest.Addr (RingTest.LookupServer ringB k)).
  { intros k. unfold diff. rewrite difference_elem. unfold RingTest.index.
    rewrite !distribute_lookup.
    destruct (decide (k ∈ keys)) as [Hin|Hin]; simpl.
    - split; [auto|]. intros [_ H]. exact H.
    - split; [intros H; destruct H; reflexivity|]. intros [H _]. contradiction. }
  assert (Hsize : (size diff <= length keys)%nat).
  { etransitivity; [|apply size_list_to_set_le].
    apply subseteq_size. intros k Hk. apply Helem in Hk.
    apply elem_of_list_to_set. tauto. }
  split; [exact Helem|exact Hsize].
Qed.

(** ** Serve and the tracking of listeners and connections *)

Lemma backoff_no_overflow (attempt minDelay maxDelay : Z) :
  0 <= attempt -> 0 < minDelay -> attempt * attempt * minDelay < 2 ^ 63 ->
  backoff attempt minDelay maxDelay = Z.min (attempt * attempt * minDelay) maxDelay.
Proof.
  intros Ha Hm Hfit. unfold backoff.
  assert (Hsq : 0 <= attempt * attempt) by nia.
  assert (Hle : attempt * attempt <= attempt * attempt * minDelay) by nia.
  rewrite (int64_wrap_small (attempt * attempt)) by lia.
  rewrite int64_wrap_small by nia.
  destruct (Z.gtb_spec (attempt * attempt * minDelay) maxDelay); lia.
Qed.

Lemma spawned_Spawned (conn : nat) (state : ConnState) (config : serverConfig)
    (did : list Serve.step) :
  spawned (Serve.Spawned conn state config :: did) = (conn, state, config) :: spawned did.
Proof. reflexivity. Qed.

Lemma spawned_Waited (d : Z) (did : list Serve.step) :
  spawned (Serve.Waited d :: did) = spawned did.
Proof. reflexivity. Qed.

Lemma accepted_of_cons (t : Serve.turn) (turns : list Serve.turn) :
  accepted_of (t :: turns)
  = match Serve.accepted t with
    | Serve.Accepted conn => conn :: accepted_of turns
    | Serve.Failed _ => accepted_of turns
    end.
Proof. unfold accepted_of. simpl. destruct (Serve.accepted t); reflexivity. Qed.

Lemma loop_carries_on (config : serverConfig)
    (before rest : list Serve.turn) (attempt : Z) :
  forallb carries_on before = true ->
  exists (attempt' : Z) (did : list Serve.step),
    Serve.loop config (before ++ rest) false attempt
    = (let '(steps, r, done) := Serve.loop config rest false attempt' in
       (did ++ steps, r, done))
    /\ spawned did = map (fun conn => (conn, StateNew, config)) (accepted_of before).
Proof.
  revert attempt. induction before as [|t before IH]; intros attempt Hall.
  - exists attempt, []. split; [|reflexivity].
    simpl. destruct (Serve.loop config rest false attempt) as [[? ?] ?]. reflexivity.
  - simpl in Hall. apply andb_true_iff in Hall. destruct Hall as [Ht Hall].
    unfold carries_on in Ht. rewrite accepted_of_cons.
    destruct t as [[conn|err] cancelled waiting];
      cbn [Serve.accepted Serve.cancelled Serve.cancelled_waiting] in Ht |- *;
      cbn [app Serve.loop Serve.accepted Serve.cancelled Serve.cancelled_waiting].
    + destruct (IH 0 Hall) as [a' [did [Hloop Hsp]]].
      exists a', (Serve.Spawned conn StateNew config :: did). split.
      * rewrite Hloop.
        destruct (Serve.loop config rest false a') as [[? ?] ?]. reflexivity.
      * rewrite spawned_Spawned, Hsp. reflexivity.
    + apply andb_true_iff in Ht. destruct Ht as [Hc Ht].
      apply negb_true_iff in Hc. subst cancelled. cbn [orb].
      destruct (Serve.isTimeout err) eqn:Hto.
      * destruct (IH attempt Hall) as [a' [did [Hloop Hsp]]].
        exists a', did. split; [exact Hloop|exact Hsp].
      * cbn [orb] in Ht. apply andb_true_iff in Ht. destruct Ht as [Htmp Hw].
        apply negb_true_iff in Hw. subst waiting. rewrite Htmp.
        destruct (IH (int64_wrap (attempt + 1)) Hall) as [a' [did [Hloop Hsp]]].
        eexists a', (Serve.Waited _ :: did). split.
        -- rewrite Hloop.
           destruct (Serve.loop config rest false a') as [[? ?] ?]. reflexivity.
        -- rewrite spawned_Waited. exact Hsp.
Qed.

Lemma spawned_app_nil (did : list Serve.step) : spawned (did ++ []) = spawned did.
Proof. rewrite app_nil_r. reflexivity. Qed.

Lemma has_listener_untrack (l : nat) (s : Serve.t) :
  has_listener l (Serve.untrackListener l s) = false.
Proof.
  unfold has_listener, Serve.untrackListener.
  destruct (Serve.listeners s) as [ls|] eqn:Hls; simpl; [|rewrite Hls; reflexivity].
  apply bool_decide_eq_false. intros H. apply elem_of_difference in H.
  destruct H as [_ H]. apply H. apply elem_of_singleton. reflexivity.
Qed.

Lemma trackListener_context (l : nat) (s : Serve.t) :
  isSome (Serve.listeners s) = isSome (Serve.context s) ->
  Serve.context (Serve.trackListener l s)
  = Some (match Serve.context s with Some done => done | None => false end).
Proof.
  unfold Serve.trackListener.
  destruct (Serve.listeners s) as [ls|] eqn:Hls; simpl; intros Hwf.
  - rewrite Hls. simpl. destruct (Serve.context s); [reflexivity|discriminate].
  - destruct (Serve.context s); [discriminate|reflexivity].
Qed.

Lemma Serve_config (l : nat) (s : Serve.t) :
  (let s' := Serve.trackListener l s in
   let config :=
     {| idleTimeout := Serve.IdleTimeout s';
        readTimeout := Serve.ReadTimeout s';
        writeTimeout := Serve.WriteTimeout s';
        retryable := Serve.EnableRetry s' |} in
   if idleTimeout config =? 0
   then {| idleTimeout := readTimeout config;
           readTimeout := readTimeout config;
           writeTimeout := writeTimeout config;
           retryable := retryable config |}
   else config) = config_of s.
Proof.
  unfold config_of, Serve.trackListener.
  destruct (Serve.listeners s) as [ls|] eqn:Hls; simpl; rewrite ?Hls; simpl;
    destruct (Serve.IdleTimeout s =? 0); reflexivity.
Qed.

(** X22: [Serve] returns the first error of [Accept] that is neither a
    timeout nor temporary. While the context is not done, connections,
    timeouts and temporary failures keep the loop going; every connection
    accepted before the error has been handed over in [StateNew] with the
    server's timeouts, the idle timeout being the read timeout when it is
    zero; on return the listener is closed and no longer tracked. *)
Theorem Serve_returns_fatal_error
    (l : nat) (s : Serve.t) (before after : list Serve.turn)
    (err : Serve.netError) (waiting : bool) :
  isSome (Serve.listeners s) = isSome (Serve.context s) ->
  Serve.context s <> Some true ->
  forallb carries_on before = true ->
  Serve.isTimeout err = false ->
  Serve.isTemporary err = false ->
  let r := Serve.Serve l
             (before ++ {| Serve.accepted := Serve.Failed err;
                           Serve.cancelled := false;
                           Serve.cancelled_waiting := waiting |} :: after) s in
  Serve.returned r = Some (Serve.cause err)
  /\ spawned (Serve.steps r)
     = map (fun conn => (conn, StateNew, config_of s)) (accepted_of before)
  /\ Serve.listener_closed r = true
  /\ has_listener l (Serve.server r) = false.
Proof.
  intros Hwf Hctx Hall Hto Htmp r. subst r. unfold Serve.Serve.
  rewrite Serve_config. rewrite (trackListener_context l s Hwf).
  assert (Hdone : match Serve.context s with Some done => done | None => false end = false).
  { destruct (Serve.context s) as [[|]|]; [congruence|reflexivity|reflexivity]. }
  rewrite Hdone.
  destruct (loop_carries_on (config_of s) before
              ({| Serve.accepted := Serve.Failed err; Serve.cancelled := false;
                  Serve.cancelled_waiting := waiting |} :: after) 0 Hall)
    as [a' [did [Hloop Hsp]]].
  rewrite Hloop. simpl. rewrite Hto, Htmp. simpl.
  rewrite spawned_app_nil.
  split; [reflexivity|]. split; [exact Hsp|]. split; [reflexivity|].
  apply has_listener_untrack.
Qed.

Lemma Serve_returns_fatal_error_witness :
  let r := Serve.Serve 7
             ([connection 1; failure too_many_files; connection 2]
              ++ {| Serve.accepted := Serve.Failed listener_gone;
                    Serve.cancelled := false;
                    Serve.cancelled_waiting := false |} :: [connection 3])
             fresh_server in
  Serve.returned r = Some (Serve.cause listener_gone)
  /\ spawned (Serve.steps r)
     = map (fun conn => (conn, StateNew, config_of fresh_server))
         (accepted_of [connection 1; failure too_many_files; connection 2])
  /\ Serve.listener_closed r = true
  /\ has_listener 7 (Serve.server r) = false.
Proof.
  apply (Serve_returns_fatal_error 7 fresh_server
           [connection 1; failure too_many_files; connection 2] [connection 3]
           listener_gone false);
    first [reflexivity | discriminate].
Defined.

(** X23: once [s.shutdown] has been called, the next failure of [Accept]
    makes [Serve] return [ErrServerClosed], whatever the failure is; and a
    shutdown during the wait that follows a temporary failure does the
    same. The listener is closed and no longer tracked. *)
Theorem Serve_returns_ErrServerClosed
    (l : nat) (s : Serve.t) (before after : list Serve.turn) (t : Serve.turn)
    (err : Serve.netError) :
  isSome (Serve.listeners s) = isSome (Serve.context s) ->
  Serve.context s <> Some true ->
  forallb carries_on before = true ->
  Serve.accepted t = Serve.Failed err ->
  Serve.cancelled t = true
  \/ (Serve.isTimeout err = false /\ Serve.isTemporary err = true
      /\ Serve.cancelled_waiting t = true) ->
  let r := Serve.Serve l (before ++ t :: after) s in
  Serve.returned r = Some ErrServerClosed
  /\ spawned (Serve.steps r)
     = map (fun conn => (conn, StateNew, config_of s)) (accepted_of before)
  /\ Serve.context (Serve.server r) = Some true
  /\ Serve.listener_closed r = true
  /\ has_listener l (Serve.server r) = false.
Proof.
  intros Hwf Hctx Hall Hacc Hstop r. subst r. unfold Serve.Serve.
  rewrite Serve_config. rewrite (trackListener_context l s Hwf).
  assert (Hdone : match Serve.context s with Some done => done | None => false end = false).
  { destruct (Serve.context s) as [[|]|]; [congruence|reflexivity|reflexivity]. }
  rewrite Hdone.
  destruct (loop_carries_on (config_of s) before (t :: after) 0 Hall)
    as [a' [did [Hloop Hsp]]].
  rewrite Hloop. simpl. rewrite Hacc.
  destruct Hstop as [Hc | [Hto [Htmp Hw]]].
  - rewrite Hc. simpl. rewrite spawned_app_nil.
    split; [reflexivity|]. split; [exact Hsp|].
    split; [|split; [reflexivity|apply has_listener_untrack]].
    unfold Serve.untrackListener. simpl.
    destruct (Serve.listeners (Serve.trackListener l s)); reflexivity.
  - destruct (Serve.cancelled t); simpl.
    + rewrite spawned_app_nil.
      split; [reflexivity|]. split; [exact Hsp|].
      split; [|split; [reflexivity|apply has_listener_untrack]].
      unfold Serve.untrackListener. simpl.
      destruct (Serve.listeners (Serve.trackListener l s)); reflexivity.
    + rewrite Hto, Htmp, Hw. simpl. rewrite spawned_app_nil.
      split; [reflexivity|]. split; [exact Hsp|].
      split; [|split; [reflexivity|apply has_listener_untrack]].
      unfold Serve.untrackListener. simpl.
      destruct (Serve.listeners (Serve.trackListener l s)); reflexivity.
Qed.

Lemma Serve_returns_ErrServerClosed_witness :
  let r := Serve.Serve 7
             ([connection 1; failure too_many_files]
              ++ failure_at_shutdown listener_gone :: [connection 2])
             fresh_server in
  Serve.returned r = Some ErrServerClosed
  /\ spawned (Serve.steps r)
     = map (fun conn => (conn, StateNew, config_of fresh_server))
         (accepted_of [connection 1; failure too_many_files])
  /\ Serve.context (Serve.server r) = Some true
  /\ Serve.listener_closed r = true
  /\ has_listener 7 (Serve.server r) = false.
Proof.
  apply (Serve_returns_ErrServerClosed 7 fresh_server
           [connection 1; failure too_many_files] [connection 2]
           (failure_at_shutdown listener_gone) listener_gone);
    first [reflexivity | discriminate | (left; reflexivity)].
Defined.

(** X24: [Serve] called again on a server that has been shut down still
    hands over the connections its listener accepts; it returns
    [ErrServerClosed] at the first failure of [Accept], and not before. *)
Theorem Serve_after_shutdown
    (l : nat) (s : Serve.t) (conns : list nat) (after : list Serve.turn)
    (t : Serve.turn) (err : Serve.netError) :
  Serve.listeners s <> None ->
  Serve.context s = Some true ->
  Serve.accepted t = Serve.Failed err ->
  (let r := Serve.Serve l (map connection conns ++ t :: after) s in
   Serve.returned r = Some ErrServerClosed
   /\ spawned (Serve.steps r) = map (fun conn => (conn, StateNew, config_of s)) conns)
  /\ Serve.returned (Serve.Serve l (map connection conns) s) = None.
Proof.
  intros Hls Hctx Hacc.
  assert (Hloop : forall rest attempt,
            Serve.loop (config_of s) (map connection conns ++ rest) true attempt
            = (let '(steps, r, done) := Serve.loop (config_of s) rest true 0 in
               (map (fun conn => Serve.Spawned conn StateNew (config_of s)) conns
                  ++ steps, r, done))
              \/ conns = []).
  { intros rest attempt. destruct conns as [|c0 conns]; [right; reflexivity|left].
    revert attempt c0. induction conns as [|c1 conns IH]; intros attempt c0.
    - simpl. destruct (Serve.loop (config_of s) rest true 0) as [[? ?] ?]. reflexivity.
    - change (map connection (c0 :: c1 :: conns) ++ rest)
        with (connection c0 :: (map connection (c1 :: conns) ++ rest)).
      cbn [Serve.loop connection Serve.accepted]. rewrite (IH 0 c1).
      destruct (Serve.loop (config_of s) rest true 0) as [[? ?] ?]. reflexivity. }
  assert (Hsp : forall cs : list nat,
            spawned (map (fun conn => Serve.Spawned conn StateNew (config_of s)) cs)
            = map (fun conn => (conn, StateNew, config_of s)) cs).
  { induction cs as [|c0 cs IH]; [reflexivity|].
    cbn [map]. rewrite spawned_Spawned, IH. reflexivity. }
  assert (Htrack : Serve.context (Serve.trackListener l s) = Some true).
  { unfold Serve.trackListener. destruct (Serve.listeners s) eqn:E; [|congruence].
    simpl. rewrite E. exact Hctx. }
  split.
  - intros r. subst r. unfold Serve.Serve. rewrite Serve_config, Htrack.
    destruct (Hloop (t :: after) 0) as [H| ->].
    + rewrite H. simpl. rewrite Hacc. simpl. rewrite spawned_app_nil.
      split; [reflexivity|apply Hsp].
    + simpl. rewrite Hacc. simpl. split; reflexivity.
  - unfold Serve.Serve. rewrite Serve_config, Htrack.
    destruct (Hloop [] 0) as [H| ->].
    + rewrite app_nil_r in H. rewrite H. reflexivity.
    + reflexivity.
Qed.

Lemma Serve_after_shutdown_witness :
  (let r := Serve.Serve 7 (map connection [1; 2]%nat ++ failure listener_gone :: [])
              stopped_server in
   Serve.returned r = Some ErrServerClosed
   /\ spawned (Serve.steps r)
      = map (fun conn => (conn, StateNew, config_of stopped_server)) [1; 2]%nat)
  /\ Serve.returned (Serve.Serve 7 (map connection [1; 2]%nat) stopped_server) = None.
Proof.
  apply (Serve_after_shutdown 7 stopped_server [1; 2]%nat [] (failure listener_gone)
           listener_gone);
    first [reflexivity | discriminate].
Defined.

(** X25: the waits of the accept loop. After [a] temporary failures in a
    row, [k] more of them make the loop wait
    [min ((a + i)^2 * 10ms, 1s)] after the [i]-th, and the loop goes on
    with the count at [a + k]. *)
Theorem temporary_failures_back_off
    (config : serverConfig) (t : Serve.turn) (err : Serve.netError)
    (k : nat) (rest : list Serve.turn) (a : Z) :
  Serve.accepted t = Serve.Failed err ->
  Serve.isTimeout err = false ->
  Serve.isTemporary err = true ->
  Serve.cancelled t = false ->
  Serve.cancelled_waiting t = false ->
  0 <= a ->
  (a + Z.of_nat k) * (a + Z.of_nat k) * Serve.minBackoffDelay < 2 ^ 63 ->
  Serve.loop config (repeat t k ++ rest) false a
  = (let '(steps, r, done) := Serve.loop config rest false (a + Z.of_nat k) in
     (map (fun i => Serve.Waited
                      (Z.min ((a + Z.of_nat i) * (a + Z.of_nat i) * (10 * Millisecond))
                             (1000 * Millisecond)))
          (seq 1 k) ++ steps, r, done)).
Proof.
  intros Hacc Hto Htmp Hc Hw. revert a.
  induction k as [|k IH]; intros a Ha Hfit.
  - simpl. rewrite Z.add_0_r.
    destruct (Serve.loop config rest false a) as [[? ?] ?]. reflexivity.
  - assert (Hmin : Serve.minBackoffDelay = 10 * Millisecond) by reflexivity.
    assert (Hpos : 0 < Serve.minBackoffDelay) by (rewrite Hmin; reflexivity).
    assert (Hstep : (a + 1) * (a + 1) * Serve.minBackoffDelay < 2 ^ 63) by nia.
    assert (Hsmall : a + 1 < 2 ^ 63) by nia.
    cbn [repeat app Serve.loop]. rewrite Hacc, Hc, Hto, Htmp, Hw. cbn [orb].
    rewrite (int64_wrap_small (a + 1)) by lia.
    rewrite IH; [|lia|].
    + replace (a + 1 + Z.of_nat k) with (a + Z.of_nat (S k)) by lia.
      destruct (Serve.loop config rest false (a + Z.of_nat (S k))) as [[steps r] done].
      cbn [seq map app]. rewrite <- (seq_shift k 1), map_map.
      rewrite backoff_no_overflow; [|lia|exact Hpos|exact Hstep].
      rewrite Hmin. change (Z.of_nat 1) with 1.
      rewrite (map_ext
                 (fun i => Serve.Waited
                    (Z.min ((a + Z.of_nat (S i)) * (a + Z.of_nat (S i)) * (10 * Millisecond))
                           (1000 * Millisecond)))
                 (fun i => Serve.Waited
                    (Z.min ((a + 1 + Z.of_nat i) * (a + 1 + Z.of_nat i) * (10 * Millisecond))
                           (1000 * Millisecond)))).
      * reflexivity.
      * intros i. replace (a + Z.of_nat (S i)) with (a + 1 + Z.of_nat i) by lia.
        reflexivity.
    + replace (a + 1 + Z.of_nat k) with (a + Z.of_nat (S k)) by lia. exact Hfit.
Qed.

Lemma temporary_failures_back_off_witness :
  Serve.loop no_timeouts (repeat (failure too_many_files) 3 ++ []) false 0
  = (let '(steps, r, done) := Serve.loop no_timeouts [] false (0 + Z.of_nat 3) in
     (map (fun i => Serve.Waited
                      (Z.min ((0 + Z.of_nat i) * (0 + Z.of_nat i) * (10 * Millisecond))
                             (1000 * Millisecond)))
          (seq 1 3) ++ steps, r, done)).
Proof.
  apply (temporary_failures_back_off no_timeouts (failure too_many_files)
           too_many_files 3 [] 0);
    first [reflexivity | (vm_compute; discriminate)].
Defined.

Ltac unfold_tracking :=
  cbn [Serve.len Serve.connections Serve.listeners Serve.context
       Serve.set_connections Serve.set_listeners Serve.set_context].

(** X26: [numberOfActors] counts every listener and every connection once.
    Tracking one that is tracked already changes nothing, tracking a new one
    adds one; untracking one that is tracked takes one off, untracking
    another changes nothing, also while the maps are nil; and the count is
    zero exactly when nothing is tracked. *)
Theorem numberOfActors_counts_once (x : nat) (s : Serve.t) :
  Serve.numberOfActors (Serve.trackConnection x s)
  = Serve.numberOfActors s + (if has_connection x s then 0 else 1)
  /\ Serve.numberOfActors (Serve.untrackConnection x s)
     = Serve.numberOfActors s - (if has_connection x s then 1 else 0)
  /\ Serve.numberOfActors (Serve.trackListener x s)
     = Serve.numberOfActors s + (if has_listener x s then 0 else 1)
  /\ Serve.numberOfActors (Serve.untrackListener x s)
     = Serve.numberOfActors s - (if has_listener x s then 1 else 0)
  /\ (Serve.numberOfActors s = 0
      <-> forall y, has_connection y s = false /\ has_listener y s = false).
Proof.
  assert (Hadd : forall xs : gset nat,
            Z.of_nat (size ({[x]} ∪ xs))
            = Z.of_nat (size xs) + (if bool_decide (x ∈ xs) then 0 else 1)).
  { intros xs. destruct (bool_decide_reflect (x ∈ xs)) as [Hin|Hin].
    - replace ({[x]} ∪ xs) with xs; [lia|].
      apply set_eq. intros y. rewrite elem_of_union, elem_of_singleton.
      split; [auto|]. intros [->|H]; assumption.
    - rewrite size_union, size_singleton; [lia|].
      intros y Hy Hy'. apply elem_of_singleton in Hy. subst y. contradiction. }
  assert (Hsub : forall xs : gset nat,
            Z.of_nat (size (xs ∖ {[x]}))
            = Z.of_nat (size xs) - (if bool_decide (x ∈ xs) then 1 else 0)).
  { intros xs. destruct (bool_decide_reflect (x ∈ xs)) as [Hin|Hin].
    - rewrite size_difference, size_singleton.
      + assert (size xs <> 0)%nat; [|lia].
        intros H0. apply size_empty_inv in H0.
        apply (elem_of_empty (C := gset nat) x). apply H0. exact Hin.
      + intros y Hy. apply elem_of_singleton in Hy. subst y. exact Hin.
    - replace (xs ∖ {[x]}) with xs; [lia|].
      apply set_eq. intros y. rewrite elem_of_difference, elem_of_singleton.
      split; [|tauto]. intros Hy. split; [exact Hy|]. intros ->. contradiction. }
  assert (Hzero : forall xs : gset nat,
            Z.of_nat (size xs) = 0 <-> forall y, bool_decide (y ∈ xs) = false).
  { intros xs. split.
    - intros H y. apply bool_decide_eq_false. intros Hy.
      assert (H0 : size xs = 0%nat) by lia.
      apply size_empty_inv in H0.
      apply (elem_of_empty (C := gset nat) y). apply H0. exact Hy.
    - intros H. assert (H0 : xs ≡ ∅).
      { intros y. split; [|intros Hy; apply elem_of_empty in Hy; destruct Hy].
        intros Hy. specialize (H y). apply bool_decide_eq_false in H. contradiction. }
      apply size_empty_iff in H0. lia. }
  assert (Hnn : forall xs : gset nat, 0 <= Z.of_nat (size xs)) by (intros; lia).
  unfold Serve.numberOfActors, has_connection, has_listener,
    Serve.trackConnection, Serve.untrackConnection,
    Serve.trackListener, Serve.untrackListener.
  destruct s as [it rt wt er ls cs ctx]. cbn [Serve.listeners Serve.connections].
  split; [|split; [|split; [|split]]].
  - destruct cs as [cs|]; unfold_tracking; rewrite Hadd; [lia|].
    rewrite size_empty, bool_decide_eq_false_2 by apply not_elem_of_empty. lia.
  - destruct cs as [cs|]; unfold_tracking; [rewrite Hsub|]; lia.
  - destruct ls as [ls|]; unfold_tracking; rewrite Hadd; [lia|].
    rewrite size_empty, bool_decide_eq_false_2 by apply not_elem_of_empty. lia.
  - destruct ls as [ls|]; unfold_tracking; [rewrite Hsub|]; lia.
  - destruct ls as [ls|], cs as [cs|]; unfold_tracking.
    + pose proof (Hnn ls). pose proof (Hnn cs). split.
      * intros H1 y. split; [apply (proj1 (Hzero cs))|apply (proj1 (Hzero ls))]; lia.
      * intros H1.
        assert (Z.of_nat (size cs) = 0) by (apply (proj2 (Hzero cs)); intros y; apply (H1 y)).
        assert (Z.of_nat (size ls) = 0) by (apply (proj2 (Hzero ls)); intros y; apply (H1 y)).
        lia.
    + pose proof (Hnn ls). split.
      * intros H1 y. split; [reflexivity|apply (proj1 (Hzero ls))]; lia.
      * intros H1.
        assert (Z.of_nat (size ls) = 0) by (apply (proj2 (Hzero ls)); intros y; apply (H1 y)).
        lia.
    + pose proof (Hnn cs). split.
      * intros H1 y. split; [apply (proj1 (Hzero cs))|reflexivity]; lia.
      * intros H1.
        assert (Z.of_nat (size cs) = 0) by (apply (proj2 (Hzero cs)); intros y; apply (H1 y)).
        lia.
    + split; [intros _ y; split; reflexivity|reflexivity].
Qed.

(** ** txArgs *)

Lemma last_of_cons {X : Type} (x : X) (l : list X) :
  last_of (x :: l) = match last_of l with Some y => Some y | None => Some x end.
Proof.
  destruct l as [|y l]; [reflexivity|].
  change (last_of (x :: y :: l)) with (last_of (y :: l)).
  assert (H : exists z, last_of (y :: l) = Some z).
  { clear x. revert y. induction l as [|y' l IH]; intros y; [exists y; reflexivity|].
    change (last_of (y :: y' :: l)) with (last_of (y' :: l)). apply IH. }
  destruct H as [z ->]. reflexivity.
Qed.

Lemma txArgs_closeAll_reports {A : Type} {HA : Args.t A} (stable : error -> bool)
    (l : list A) (conn : option txArgs.Conn) (err : option error) :
  txArgs.closeAll stable l conn err
  = (map (fun a => snd (Args.Close a)) l,
     option_map (fun c => {| txArgs.closed :=
                               txArgs.closed c
                               || existsb (fun e => negb (stable e)) (close_errors l);
                             txArgs.rmutex := txArgs.rmutex c |}) conn,
     reported stable err (close_errors l)).
Proof.
  revert conn err. induction l as [|arg rest IH]; intros conn err.
  - simpl. unfold reported. simpl.
    destruct conn as [[c r]|], err; simpl; rewrite ?orb_false_r; reflexivity.
  - cbn [txArgs.closeAll close_errors flat_map map].
    fold (close_errors rest).
    destruct (Args.Close arg) as [[e|] arg'] eqn:Hclose; cbn [fst snd].
    + destruct (stable e) eqn:Hst; cbn [negb].
      * rewrite IH. cbn [app existsb]. rewrite Hst. cbn [negb orb].
        f_equal. unfold reported. cbn [List.filter]. rewrite Hst. cbn [negb].
        destruct (last_of (List.filter (fun e0 => negb (stable e0)) (close_errors rest)));
          [reflexivity|].
        destruct err; reflexivity.
      * rewrite IH. cbn [app existsb]. rewrite Hst. cbn [negb orb].
        f_equal; [f_equal|].
        -- destruct conn as [[c r]|]; cbn [option_map txArgs.closed txArgs.rmutex];
             [|reflexivity].
           rewrite orb_true_r. reflexivity.
        -- unfold reported. cbn [List.filter]. rewrite Hst. cbn [negb].
           rewrite last_of_cons.
           destruct (last_of (List.filter (fun e0 => negb (stable e0)) (close_errors rest)));
             reflexivity.
    + rewrite IH. reflexivity.
Qed.

(** X27: what [txArgs.Close] reports and leaves. With its mutex free and
    the read mutex of its connection held, [Close] closes every list and
    returns the last error that is not an error reply of the protocol, else
    the error recorded before, else the first error; it records what it
    returns. The connection is closed when there was an error that is not
    an error reply; its read mutex is released and [tx.conn] is nil
    afterwards. The lists stay in [tx.args]. *)
Theorem txArgs_Close_reports {A : Type} {HA : Args.t A} (stable : error -> bool)
    (tx : txArgs.t) (c : txArgs.Conn) :
  txArgs.mutex tx = false ->
  txArgs.conn tx = Some c ->
  txArgs.rmutex c = true ->
  let errs := close_errors (txArgs.args tx) in
  let e := reported stable (txArgs.err tx) errs in
  txArgs.Close stable tx
  = txArgs.Returned
      (e,
       {| txArgs.mutex := false;
          txArgs.conn := None;
          txArgs.args := map (fun a => snd (Args.Close a)) (txArgs.args tx);
          txArgs.err := e |},
       Some {| txArgs.closed :=
                 txArgs.closed c || existsb (fun e => negb (stable e)) errs;
               txArgs.rmutex := false |}).
Proof.
  intros Hmutex Hconn Hheld errs e. unfold txArgs.Close.
  rewrite Hmutex, txArgs_closeAll_reports, Hconn. cbn [option_map txArgs.rmutex].
  rewrite Hheld. reflexivity.
Qed.

Lemma txArgs_Close_reports_witness :
  let errs := close_errors (txArgs.args three_replies) in
  let e := reported text_errors (txArgs.err three_replies) errs in
  txArgs.Close text_errors three_replies
  = txArgs.Returned
      (e,
       {| txArgs.mutex := false;
          txArgs.conn := None;
          txArgs.args := map (fun a => snd (Args.Close a)) (txArgs.args three_replies);
          txArgs.err := e |},
       Some {| txArgs.closed :=
                 txArgs.closed {| txArgs.closed := false; txArgs.rmutex := true |}
                 || existsb (fun e => negb (text_errors e)) errs;
               txArgs.rmutex := false |}).
Proof.
  apply (txArgs_Close_reports text_errors three_replies
           {| txArgs.closed := false; txArgs.rmutex := true |});
    reflexivity.
Defined.

(** ** A connection served to its end *)

Lemma servePass_plain (P : Parsers) (s : Server.t) (config : serverConfig)
    (addr : string) (depth : nat) (st : St)
    (rd : CommandReader) (later : list CommandReader) (cmd : string * byteArgs.t) :
  Server.EnablePipeline s = false ->
  (forall req, Server.Handler s req = []) ->
  shutdown st = false ->
  incoming st = rd :: later ->
  pending rd = [cmd] ->
  rerr rd = None ->
  fst cmd <> "MULTI" ->
  fst cmd <> "PING" ->
  werr (c st) = None ->
  wbuffer (c st) = [] ->
  exists st',
    servePass s config addr (S depth) st = (Ret (Done Again), st')
    /\ history st'
       = history st ++ [Served [Read cmd]; Sent (Value (Str "OK")); Drained (fst cmd)]
    /\ incoming st' = later
    /\ shutdown st' = false
    /\ werr (c st') = None
    /\ wbuffer (c st') = []
    /\ closed (c st') = closed (c st).
Proof.
  intros Hpipe Hsilent Hsd Hinc Hpend Hrerr Hmulti Hping Hw Hwb.
  destruct st as [[cs wb we rdl wdl cl] r pr h inc sd].
  destruct cmd as [name a]. simpl in *. subst sd inc we wb.
  apply String.eqb_neq in Hmulti, Hping.
  unfold servePass. unfold bind at 1. unfold get. simpl.
  unfold bind at 1. simpl. unfold bind at 1. simpl. unfold bind at 1. simpl.
  rewrite Hpend. simpl. rewrite Hmulti, Hpipe, Hrerr.
  unfold bind at 1. unfold ret at 1. cbv beta iota.
  unfold serveRequest. cbn [stripPrepared Cmds Read Cmd fst].
  rewrite Hping. simpl.
  unfold serveRedis. rewrite Hsilent.
  unfold_writer. unfold note, recover, modify. simpl.
  destruct (writeTimeout config =? 0); simpl; eexists;
    (split; [reflexivity|]); simpl; repeat split; try reflexivity;
    rewrite <- !app_assoc; reflexivity.
Qed.

Lemma passes_plain (P : Parsers) (s : Server.t) (config : serverConfig)
    (addr : string) (depth : nat) (cmds : list (string * byteArgs.t)) :
  Server.EnablePipeline s = false ->
  (forall req, Server.Handler s req = []) ->
  Forall (fun cmd => fst cmd <> "MULTI" /\ fst cmd <> "PING") cmds ->
  forall (fuel : nat) (st : St),
    (length cmds < fuel)%nat ->
    shutdown st = false ->
    incoming st = map one_command cmds ->
    werr (c st) = None ->
    wbuffer (c st) = [] ->
    exists st',
      passes s config fuel addr (S depth) st = (Ret (Done tt), st')
      /\ history st' = history st ++ flat_map answered cmds
      /\ incoming st' = []
      /\ closed (c st') = closed (c st).
Proof.
  intros Hpipe Hsilent Hall.
  induction Hall as [|cmd cmds [Hmulti Hping] Hall IH];
    intros fuel st Hfuel Hsd Hinc Hw Hwb.
  - destruct fuel as [|fuel]; [simpl in Hfuel; lia|].
    exists st. simpl in Hinc.
    destruct st as [c0 r0 pr0 h0 inc0 sd0]. simpl in *. subst sd0 inc0.
    split; [reflexivity|]. rewrite app_nil_r. auto.
  - destruct fuel as [|fuel]; [simpl in Hfuel; lia|].
    simpl in Hinc.
    destruct (servePass_plain P s config addr depth st (one_command cmd)
                (map one_command cmds) cmd Hpipe Hsilent Hsd Hinc
                eq_refl eq_refl Hmulti Hping Hw Hwb)
      as [st1 [Hpass [Hh [Hinc1 [Hsd1 [Hw1 [Hwb1 Hcl1]]]]]]].
    destruct (IH fuel st1) as [st' [Hrest [Hh' [Hinc' Hcl']]]];
      [simpl in Hfuel; lia|exact Hsd1|exact Hinc1|exact Hw1|exact Hwb1|].
    exists st'. cbn [passes]. unfold bind at 1. rewrite Hpass. cbv beta iota.
    split; [exact Hrest|].
    split; [|split; [exact Hinc'|congruence]].
    rewrite Hh', Hh. cbn [flat_map answered]. rewrite <- app_assoc. reflexivity.
Qed.

(** X28: a connection from its first command to its end. The client sends
    commands one at a time, none of them [MULTI] or [PING]; the handler
    writes nothing, the pipeline is off and the transport works. Then
    [serveConnection] returns; for every command, in order, the handler has
    been called with that command alone, ["OK"] has been sent and the
    arguments have been closed; nothing else has been sent or logged; and
    the connection is closed and in [StateClosed]. *)
Theorem connection_of_plain_commands
    (P : Parsers) (s : Server.t) (config : serverConfig)
    (addr : string) (depth fuel : nat)
    (cmds : list (string * byteArgs.t)) (st : St) :
  Server.EnablePipeline s = false ->
  (forall req, Server.Handler s req = []) ->
  Forall (fun cmd => fst cmd <> "MULTI" /\ fst cmd <> "PING") cmds ->
  (length cmds < fuel)%nat ->
  shutdown st = false ->
  incoming st = map one_command cmds ->
  werr (c st) = None ->
  wbuffer (c st) = [] ->
  exists st',
    serveConnection s config fuel addr (S depth) st = (Ret (Done tt), st')
    /\ history st' = history st ++ flat_map answered cmds
    /\ closed (c st') = true
    /\ state (c st') = StateClosed.
Proof.
  intros Hpipe Hsilent Hall Hfuel Hsd Hinc Hw Hwb.
  destruct (passes_plain P s config addr depth cmds Hpipe Hsilent Hall
              fuel st Hfuel Hsd Hinc Hw Hwb)
    as [st1 [Hpasses [Hh [Hinc1 Hcl]]]].
  unfold serveConnection. unfold bind at 1. rewrite Hpasses. cbv beta iota.
  eexists. split; [reflexivity|]. simpl. split; [exact Hh|]. split; reflexivity.
Qed.

Lemma connection_of_plain_commands_witness :
  exists st',
    serveConnection (P := decimalParsers) silent_server no_timeouts 3 "" 1
      (start (map one_command [wire_command "SET" ["foo"; "bar"];
                               wire_command "GET" ["foo"]]))
    = (Ret (Done tt), st')
    /\ history st'
       = history (start (map one_command [wire_command "SET" ["foo"; "bar"];
                                          wire_command "GET" ["foo"]]))
         ++ flat_map answered [wire_command "SET" ["foo"; "bar"];
                               wire_command "GET" ["foo"]]
    /\ closed (c st') = true
    /\ state (c st') = StateClosed.
Proof.
  apply (connection_of_plain_commands decimalParsers silent_server no_timeouts "" 0 3
           [wire_command "SET" ["foo"; "bar"]; wire_command "GET" ["foo"]]
           (start (map one_command [wire_command "SET" ["foo"; "bar"];
                                    wire_command "GET" ["foo"]])));
    first [ reflexivity
          | (repeat constructor; discriminate)
          | (simpl; lia) ].
Defined.

(** ** A request with a PING in it *)

Section ThroughTheWrapper.
(** A property of the state that the calls on the base writer keep, and
    that does not depend on the wrapper nor on who was served. *)
Variable I : St -> Prop.
Hypothesis I_Write : forall v, keeps I (Write v).
Hypothesis I_Flush : keeps I Flush.
Hypothesis I_Hijack : keeps I Hijack.
Hypothesis I_wrapper : forall p st, I st -> I (set_preparedRes p st).
Hypothesis I_Served : forall cmds, keeps I (note (Served cmds)).

Lemma set_prepared_keeps (i : Z) (l : list preparedResponse.t) :
  keeps I (set_prepared i l).
Proof. intros st H. apply I_wrapper. exact H. Qed.

Lemma preparedResponseWriter_Write_keeps (v : value) :
  keeps I (preparedResponseWriter_Write v).
Proof.
  unfold preparedResponseWriter_Write.
  apply keeps_bind; [apply keeps_get|]. intros st0.
  destruct (preparedRes st0) as [p|]; [|apply keeps_panic].
  apply keeps_bind.
  - destruct (responses p) as [|r0 rest]; [apply keeps_ret|].
    destruct (preparedResponse.index r0 =? index p); [|apply keeps_ret].
    apply keeps_bind; [apply I_Write|]. intros [e|]; [apply keeps_ret|].
    apply keeps_bind; [apply set_prepared_keeps|]. intros _. apply keeps_ret.
  - intros [e|]; [apply keeps_ret|].
    apply keeps_bind; [apply keeps_get|]. intros st1.
    destruct (preparedRes st1) as [p1|]; [|apply keeps_panic].
    apply keeps_bind; [apply set_prepared_keeps|]. intros _.
    apply I_Write.
Qed.

Lemma writeValues_keeps (l : list preparedResponse.t) : keeps I (writeValues l).
Proof.
  induction l as [|r rest IH]; simpl; [apply keeps_ret|].
  apply keeps_bind; [apply I_Write|].
  intros [e|]; [apply keeps_ret | exact IH].
Qed.

Lemma writeRemainingValues_keeps : keeps I writeRemainingValues.
Proof.
  unfold writeRemainingValues.
  apply keeps_bind; [apply keeps_get|]. intros st0.
  destruct (preparedRes st0) as [p|]; [|apply keeps_panic].
  apply keeps_bind; [apply writeValues_keeps|]. intros err.
  apply keeps_bind; [apply keeps_get|]. intros st1.
  destruct (preparedRes st1) as [p1|]; [|apply keeps_panic].
  apply keeps_bind; [apply set_prepared_keeps|]. intros _. apply keeps_ret.
Qed.

Lemma ServeRedis_prepared_keeps (calls : list call) :
  keeps I (ServeRedis the_preparedResponseWriter calls).
Proof.
  induction calls as [|k rest IH]; simpl; [apply keeps_ret|].
  apply keeps_bind; [|intros _; exact IH].
  destruct k; simpl.
  - apply keeps_bind; [|intros _; apply keeps_ret]. intros st H. exact H.
  - apply keeps_bind; [|intros _; apply keeps_ret].
    apply preparedResponseWriter_Write_keeps.
  - apply keeps_bind; [|intros _; apply keeps_ret]. apply I_Flush.
  - apply keeps_bind; [|intros _; apply keeps_ret]. apply I_Hijack.
  - apply keeps_panic.
Qed.

Lemma serveRequest_prepared_keeps (P : Parsers) (s : Server.t) (req : Request) :
  snd (stripPrepared (Cmds req) (Cmds req) 0 None) <> None ->
  keeps I (serveRequest s req).
Proof.
  intros Hprep. unfold serveRequest.
  destruct (stripPrepared (Cmds req) (Cmds req) 0 None) as [[array i] [p|]];
    simpl in Hprep; [|congruence].
  apply keeps_bind; [intros st0 H; apply I_wrapper; exact H|]. intros _.
  apply keeps_bind_ret; [intros st0 H; exact H|].
  apply keeps_bind.
  { match goal with |- keeps _ (if ?b then _ else _) => destruct b end;
      [|apply keeps_ret].
    unfold serveRedis.
    apply keeps_bind; [apply I_Served|]. intros _.
    apply keeps_bind.
    - apply keeps_recover. apply ServeRedis_prepared_keeps.
    - intros [u|v]; apply keeps_ret. }
  intros err. apply keeps_bind.
  { match goal with |- keeps _ (if ?b then _ else _) => destruct b end;
      [apply writeRemainingValues_keeps | apply keeps_ret]. }
  intros err'. apply keeps_bind.
  { match goal with |- keeps _ (if ?b then _ else _) => destruct b end;
      [apply I_Flush | apply keeps_ret]. }
  intros err''. apply keeps_ret.
Qed.

End ThroughTheWrapper.

Lemma Write_one_value_at_most (before : list frame) (v : value) :
  keeps (one_value_at_most before) (Write v).
Proof.
  intros [[cs wb we rd wd cl] [cn ty rm tm] pr h inc sd].
  unfold one_value_at_most, encoded. simpl.
  intros [[Hty Hs] | [Hty [Hrm Hs]]]; subst ty; try subst rm;
    destruct cn, we; unfold_writer; simpl in *; break_if; simpl;
    try (left; split; [reflexivity|exact Hs]);
    try (right; split; [reflexivity|]; split; [reflexivity|]; auto; fail);
    try (right; split; [reflexivity|]; split; [reflexivity|];
         right; exists v; subst before; rewrite app_assoc; reflexivity).
Qed.

Lemma Flush_one_value_at_most (before : list frame) :
  keeps (one_value_at_most before) Flush.
Proof.
  intros [[cs wb we rd wd cl] [cn ty rm tm] pr h inc sd].
  unfold one_value_at_most, encoded. simpl.
  intros [[Hty Hs] | [Hty [Hrm Hs]]]; subst ty; try subst rm;
    destruct cn, we; unfold_writer; simpl in *; break_if; simpl;
    rewrite ?wire_app, ?wire_Sent, ?app_nil_r;
    try (left; split; [reflexivity|exact Hs]);
    try (right; split; [reflexivity|]; split; [reflexivity|]; auto; fail);
    try (right; split; [reflexivity|]; split; [reflexivity|];
         right; exists (Str "OK"); subst before; rewrite app_assoc; reflexivity).
Qed.

Lemma Hijack_one_value_at_most (before : list frame) :
  keeps (one_value_at_most before) Hijack.
Proof.
  intros [[cs wb we rd wd cl] [cn ty rm tm] pr h inc sd].
  unfold one_value_at_most, encoded. simpl.
  intros H. destruct cn; unfold_writer; simpl in *; exact H.
Qed.

(** X29: a request with a [PING] in it, whatever the handler does. The
    handler is given the wrapper, whose [WriteStream] opens nothing, so the
    base writer stays out of stream mode: from a new writer, all that
    [serveRequest] has encoded when it is over is nothing or one value,
    without an array in front, however many commands the request has. *)
Theorem request_with_PING_encodes_one_value_at_most
    (P : Parsers) (s : Server.t) (req : Request) (st : St) :
  List.filter is_PING (Cmds req) <> [] ->
  wtype (res st) = notype ->
  let st' := snd (serveRequest s req st) in
  wtype (res st') <> stream
  /\ (encoded st' = encoded st \/ exists v, encoded st' = encoded st ++ [Value v]).
Proof.
  intros Hping Hty st'.
  assert (Hprep : snd (stripPrepared (Cmds req) (Cmds req) 0 None) <> None).
  { destruct (stripPrepared (Cmds req) (Cmds req) 0 None) as [[array i] prepared] eqn:Hrun.
    destruct (stripPrepared_from P (Cmds req) [] [] None array i prepared Hrun)
      as (_ & _ & _ & Hnone).
    simpl. intros Hp. apply Hnone in Hp. destruct Hp as [_ Hp]. contradiction. }
  assert (Hkeep : keeps (one_value_at_most (encoded st)) (serveRequest s req)).
  { apply serveRequest_prepared_keeps.
    - apply Write_one_value_at_most.
    - apply Flush_one_value_at_most.
    - apply Hijack_one_value_at_most.
    - intros p st0 H. exact H.
    - intros cmds st0 H. unfold one_value_at_most, encoded, note, modify in *. simpl.
      rewrite wire_app. simpl. rewrite app_nil_r. exact H.
    - exact Hprep. }
  assert (Hstart : one_value_at_most (encoded st) st).
  { left. split; [exact Hty|reflexivity]. }
  specialize (Hkeep st Hstart). fold st' in Hkeep.
  destruct Hkeep as [[Hty' Hs] | [Hty' [_ Hs]]].
  - split; [rewrite Hty'; discriminate|]. left. exact Hs.
  - split; [rewrite Hty'; discriminate|]. exact Hs.
Qed.

Lemma request_with_PING_encodes_one_value_at_most_witness :
  let st' := snd (serveRequest (P := decimalParsers) ok_server ping_then_set (start [])) in
  wtype (res st') <> stream
  /\ (encoded st' = encoded (start [])
      \/ exists v, encoded st' = encoded (start []) ++ [Value v]).
Proof.
  apply (request_with_PING_encodes_one_value_at_most decimalParsers ok_server
           ping_then_set (start []));
    first [reflexivity | discriminate].
Defined.

(** ** One value for one response *)

(** X30: a response of one value. On a new writer and a transport in
    working order [Write] succeeds; after it every [Write] returns
    [ErrWriteCalledTooManyTimes] and every [WriteStream]
    [ErrWriteStreamCalledAfterWrite], or [ErrNegativeStreamCount] for a
    negative count, and they change nothing; [Flush] then succeeds and sends
    the value alone, with no array in front. *)
Theorem value_written_once (st : St) (t : Z) (v : value) :
  res st = newResponseWriter t ->
  werr (c st) = None ->
  exists st1 st2,
    Write v st = (Ret None, st1) /\
    (forall v', Write v' st1 = (Ret (Some ErrWriteCalledTooManyTimes), st1)) /\
    (forall n, WriteStream n st1
               = (Ret (Some (if n <? 0 then ErrNegativeStreamCount
                             else ErrWriteStreamCalledAfterWrite)), st1)) /\
    Flush st1 = (Ret None, st2) /\
    wire (history st2) = wire (history st) ++ wbuffer (c st) ++ [Value v].
Proof.
  intros Hres Hw.
  destruct st as [[cs wb we rd wd cl] r pr h inc sd]. simpl in *. subst r we.
  unfold newResponseWriter. unfold_writer. simpl.
  destruct (t =? 0); simpl; eexists; eexists;
    (split; [reflexivity|]);
    (split; [intros v'; reflexivity|]);
    (split; [intros n; simpl; destruct (n <? 0); reflexivity|]);
    (split; [reflexivity|]);
    simpl; rewrite wire_app, wire_Sent; reflexivity.
Qed.

Lemma value_written_once_witness :
  exists st1 st2,
    Write (Str "bar") (start []) = (Ret None, st1) /\
    (forall v', Write v' st1 = (Ret (Some ErrWriteCalledTooManyTimes), st1)) /\
    (forall n, WriteStream n st1
               = (Ret (Some (if n <? 0 then ErrNegativeStreamCount
                             else ErrWriteStreamCalledAfterWrite)), st1)) /\
    Flush st1 = (Ret None, st2) /\
    wire (history st2) = [Value (Str "bar")].
Proof.
  apply (value_written_once (start []) 0 (Str "bar")); reflexivity.
Defined.
